(** * JoomlaScan: the probing-and-aggregation engine of [joomla_scanner.py]

    A shallow embedding of the scanner's coroutines as effect trees, of the
    event loop as a schedule-driven interleaving, and of the report
    aggregation as pure functions, followed by the properties of the
    specification that were checked against them. *)

From Stdlib Require Import ZArith Lia Ascii String.
From stdpp Require Import base list strings gmap.
From Equations Require Import Equations.

Local Open Scope Z_scope.

(** ** Data model (joomla_scanner.py, lines 36-68) *)

(** [datetime] values are naive timestamps, kept as a count of microseconds;
    a [timedelta] is the difference of two of them. *)
Definition datetime := Z.

(** class ScanConfig(BaseModel) *)
Record ScanConfig := {
  url : string;
  threads : Z;
  timeout : Z;
  user_agent : string;
  verify_ssl : bool;
  max_retries : Z;
  output_file : option string
}.

(** The [Field(ge=..., le=...)] constraints that pydantic enforces when a
    [ScanConfig] is constructed. *)
Definition ScanConfig_valid (c : ScanConfig) : bool :=
  (1 <=? threads c) && (threads c <=? 50) &&
  (1 <=? timeout c) && (timeout c <=? 30) &&
  (1 <=? max_retries c) && (max_retries c <=? 5).

(** class Vulnerability(BaseModel) *)
Record Vulnerability := {
  type : string;
  description : string;
  severity : string;
  vuln_url : string
}.

(** class Component(BaseModel) *)
Record Component := {
  name : string;
  paths : gset string;
  vulnerabilities : list Vulnerability;
  version : option string;
  last_modified : option datetime
}.

(** class ScanResult(BaseModel); [duration] is the elapsed [timedelta]
    whose [total_seconds()] the source stores. *)
Record ScanResult := {
  target_url : string;
  scan_time : datetime;
  duration : Z;
  components : list Component;
  total_vulnerabilities : Z;
  scan_config : ScanConfig
}.

(** ** The HTTP session and Python exceptions *)

Inductive method := GET | HEAD.

(** What the code reads of an [httpx.Response]. Header names are kept in
    lower case, as [httpx.Headers] compares them. *)
Record Response := {
  status_code : Z;
  text : string;
  headers : list (string * string)
}.

(** Exceptions: [httpx.RequestError] (with all its subclasses: timeouts,
    connection, protocol and TLS failures) and any other [Exception],
    carried by its class name. *)
Inductive exn :=
| HttpxRequestError
| PyException (cls : string).

(** The end of one [session.get] / [session.head] call. *)
Inductive netres :=
| Responded (r : Response)
| Failed (e : exn).

(** A call that returns or raises. *)
Inductive outcome (A : Type) :=
| Ok (a : A)
| Raised (e : exn).
Arguments Ok {A} a.
Arguments Raised {A} e.

(** ** Coroutines as effect trees

    An [async def] of the scanner is a tree whose nodes are its suspension
    points: an HTTP exchange on the shared session, or [asyncio.sleep]. *)
Inductive coro (A : Type) : Type :=
| Return (a : A)
| Raise (e : exn)
| Await_request (m : method) (u : string) (k : netres → coro A)
| Await_sleep (secs : Z) (k : coro A).
Arguments Return {A} a.
Arguments Raise {A} e.
Arguments Await_request {A} m u k.
Arguments Await_sleep {A} secs k.

Fixpoint bind {A B} (c : coro A) (f : A → coro B) : coro B :=
  match c with
  | Return a => f a
  | Raise e => Raise e
  | Await_request m u k => Await_request m u (λ r, bind (k r) f)
  | Await_sleep s k => Await_sleep s (bind k f)
  end.

(** [try: c  except Exception: h] *)
Fixpoint try_except {A} (c : coro A) (h : coro A) : coro A :=
  match c with
  | Return a => Return a
  | Raise _ => h
  | Await_request m u k => Await_request m u (λ r, try_except (k r) h)
  | Await_sleep s k => Await_sleep s (try_except k h)
  end.

(** stdpp's monadic notation [x ← c; k] is used for [await]-sequencing. *)
#[global] Instance coro_ret : MRet coro := λ A a, Return a.
#[global] Instance coro_bind : MBind coro := λ A B f c, bind c f.

(** [await self.session.get(url)] and [await self.session.head(url)]:
    the response, or the exception raised in the awaiting coroutine. *)
Definition session_request (m : method) (u : string) : coro Response :=
  Await_request m u (λ r,
    match r with
    | Responded resp => Return resp
    | Failed e => Raise e
    end).

(** ** The event loop

    The history of a run lists, in the order in which they complete, the
    HTTP exchanges and sleeps of the tasks (each tagged with the index of
    the candidate whose task performed it) and the calls made on the
    progress bar. *)
Inductive event :=
| Ev_request (task : nat) (m : method) (u : string) (r : netres)
| Ev_sleep (task : nat) (secs : Z)
| Ev_add_task (total : Z)
| Ev_advance.

(** The target and the network between: how an exchange ends, given
    everything that happened before it. *)
Definition network := list event → method → string → netres.

(** One coroutine driven to its end without interleaving. *)
Fixpoint run {A} (net : network) (task : nat) (c : coro A) (h : list event)
  : outcome A * list event :=
  match c with
  | Return a => (Ok a, h)
  | Raise e => (Raised e, h)
  | Await_request m u k =>
      let r := net h m u in run net task (k r) (h ++ [Ev_request task m u r])
  | Await_sleep s k => run net task k (h ++ [Ev_sleep task s])
  end.

(** One task resumed at its suspension point and run to the next one. *)
Definition step {A} (net : network) (task : nat) (c : coro A)
    (h : list event) : coro A * list event :=
  match c with
  | Await_request m u k =>
      let r := net h m u in (k r, h ++ [Ev_request task m u r])
  | Await_sleep s k => (k, h ++ [Ev_sleep task s])
  | _ => (c, h)
  end.

Definition suspended {A} (c : coro A) : bool :=
  match c with
  | Await_request _ _ _ | Await_sleep _ _ => true
  | _ => false
  end.

(** The positions of the tasks of a pool that are still suspended. *)
Definition ready {A} (pool : list (nat * coro A)) : list nat :=
  (filter (λ jc, suspended jc.2.2 = true) (imap (λ j c, (j, c)) pool)).*1.

(** The first task of a pool whose coroutine has raised. *)
Fixpoint first_raised {A} (pool : list (nat * coro A)) : option exn :=
  match pool with
  | [] => None
  | (_, Raise e) :: _ => Some e
  | _ :: pool' => first_raised pool'
  end.

(** The tasks of a pool run to their ends one after the other; the first
    exception ends the run: the waiting coroutine is resumed with it
    before any other task gets further. The runs in which other tasks
    do get further are those of longer schedules, see [gather_loop]. *)
Fixpoint run_all {A} (net : network) (pool : list (nat * coro A))
    (h : list event) : outcome (list A) * list event :=
  match pool with
  | [] => (Ok [], h)
  | (task, c) :: pool' =>
      match run net task c h with
      | (Ok a, h') =>
          match run_all net pool' h' with
          | (Ok results, h'') => (Ok (a :: results), h'')
          | (Raised e, h'') => (Raised e, h'')
          end
      | (Raised e, h') => (Raised e, h')
      end
  end.

(** What the other tasks of a pool do once one of them has raised.
    [asyncio.gather] passes the exception on to the coroutine that
    waits, but leaves the other tasks running: until that coroutine is
    resumed each entry of what is left of the schedule resumes one of
    the tasks still suspended. What these tasks return or raise from
    then on is lost. *)
Fixpoint linger {A} (net : network) (sched : list nat)
    (pool : list (nat * coro A)) (h : list event) : list event :=
  match sched with
  | [] => h
  | n :: sched' =>
      match ready pool !! (n `mod` length (ready pool))%nat with
      | None => h
      | Some j =>
          match pool !! j with
          | None => h
          | Some (task, c) =>
              let '(c', h') := step net task c h in
              linger net sched' (<[j := (task, c')]> pool) h'
          end
      end
  end.

(** The event loop on a pool of tasks: each entry of the schedule resumes
    one of the suspended tasks; once the schedule is used up the tasks
    left are completed in order. The first exception raised by a task
    is the outcome of the wait; the entries of the schedule that are
    left then tell how far the other tasks get before the waiting
    coroutine is resumed with it. *)
Fixpoint gather_loop {A} (net : network) (sched : list nat)
    (pool : list (nat * coro A)) (h : list event)
  : outcome (list A) * list event :=
  match sched with
  | [] => run_all net pool h
  | n :: sched' =>
      match ready pool !! (n `mod` length (ready pool))%nat with
      | None => run_all net pool h
      | Some j =>
          match pool !! j with
          | None => run_all net pool h
          | Some (task, c) =>
              match step net task c h with
              | (Raise e, h') =>
                  (Raised e, linger net sched' (<[j := (task, Raise e)]> pool) h')
              | (c', h') => gather_loop net sched' (<[j := (task, c')]> pool) h'
              end
          end
      end
  end.

(** [await asyncio.gather] of the tasks, without [return_exceptions]: the
    results in the order of the tasks, or the first exception raised. *)
Definition gather {A} (net : network) (sched : list nat)
    (pool : list (nat * coro A)) (h : list event)
  : outcome (list A) * list event :=
  match first_raised pool with
  | Some e => (Raised e, h)
  | None => gather_loop net sched pool h
  end.

(** ** Python built-ins used by the scheduler and the aggregator *)

Definition len {A} (l : list A) : Z := Z.of_nat (length l).

(** [sum(xs)] *)
Definition py_sum (xs : list Z) : Z := foldl Z.add 0 xs.

(** [range(start, stop, step)] as the list of its values; a zero step
    raises [ValueError]. *)
Definition py_range (start stop step : Z) : outcome (list Z) :=
  if decide (step = 0) then Raised (PyException "ValueError")
  else
    let n := if decide (0 < step)
             then (stop - start + step - 1) `div` step
             else (start - stop - step - 1) `div` (- step) in
    Ok ((λ k : nat, start + Z.of_nat k * step) <$> seq 0 (Z.to_nat n)).

(** [l[i:j]] for [0 <= i] and [0 <= j]. *)
Definition py_slice {A} (l : list A) (i j : Z) : list A :=
  take (Z.to_nat (j - i)) (drop (Z.to_nat i) l).

(** Text is kept in UTF-8. The code points for which [str.isspace]
    holds, which are those that [str.strip()] removes, and their
    encodings. *)
Definition py_whitespace_code_points : list N :=
  [0x9; 0xA; 0xB; 0xC; 0xD; 0x1C; 0x1D; 0x1E; 0x1F; 0x20; 0x85; 0xA0;
   0x1680; 0x2000; 0x2001; 0x2002; 0x2003; 0x2004; 0x2005; 0x2006;
   0x2007; 0x2008; 0x2009; 0x200A; 0x2028; 0x2029; 0x202F; 0x205F;
   0x3000]%N.

Definition utf8_byte (n : N) : string := String (Ascii.ascii_of_N n) "".

(** The encoding of a code point below [0x10000]. *)
Definition utf8_encode (cp : N) : string :=
  if (cp <? 0x80)%N then utf8_byte cp
  else if (cp <? 0x800)%N then
    utf8_byte (0xC0 + cp / 0x40) +:+ utf8_byte (0x80 + cp `mod` 0x40)
  else
    utf8_byte (0xE0 + cp / 0x1000)
    +:+ utf8_byte (0x80 + (cp / 0x40) `mod` 0x40)
    +:+ utf8_byte (0x80 + cp `mod` 0x40).

Definition py_whitespace : list string :=
  Eval vm_compute in utf8_encode <$> py_whitespace_code_points.

(** [s] without the prefix [w], when it begins with [w]. *)
Fixpoint without_prefix (w s : string) : option string :=
  match w, s with
  | EmptyString, _ => Some s
  | String a w', String b s' =>
      if decide (a = b) then without_prefix w' s' else None
  | String _ _, EmptyString => None
  end.

(** [s] without its first character, when that is one of [ws]. *)
Fixpoint drop_first (ws : list string) (s : string) : option string :=
  match ws with
  | [] => None
  | w :: ws' =>
      match without_prefix w s with
      | Some rest => Some rest
      | None => drop_first ws' s
      end
  end.

(** Characters of [ws] taken off the front of [s], at most [n] of
    them. *)
Fixpoint strip_front (ws : list string) (n : nat) (s : string) : string :=
  match n with
  | O => s
  | S n' =>
      match drop_first ws s with
      | Some rest => strip_front ws n' rest
      | None => s
      end
  end.

(** [str.lstrip()], [str.rstrip()] and [str.strip()]: a string has no
    more characters than bytes. *)
Definition lstrip (s : string) : string :=
  strip_front py_whitespace (String.length s) s.

Definition rstrip (s : string) : string :=
  String.rev (strip_front (String.rev <$> py_whitespace) (String.length s)
                (String.rev s)).

Definition strip (s : string) : string := rstrip (lstrip s).

(** *** Scanner.load_components_db (lines 252-260); [fs] holds the lines
    of [comptotestdb.txt], or [None] when the file does not exist. *)
Definition load_components_db (fs : option (list string)) : list string :=
  match fs with
  | None => []
  | Some lines => strip <$> filter (λ line, strip line ≠ "") lines
  end.

(** The attributes of a [Scanner] that change during a scan. *)
Record Scanner := {
  self_components : list Component;
  self_start_time : option datetime
}.

(** Scanner.__init__ (lines 73-78) *)
Definition Scanner_init : Scanner :=
  {| self_components := []; self_start_time := None |}.

(** Library functions the scanner calls, taken as they are:
    [urllib.parse.urljoin]; the BeautifulSoup queries of lines 109, 197
    and 206 applied to a response text (whether a title containing
    "Index of" is found; the [content] of the generator meta tag, if the
    tag is found; the text of the version tag, if it is found);
    [datetime.strptime] with the HTTP date format ([None] when it raises
    [ValueError]). *)
Class Library := {
  urljoin : string → string → string;
  soup_title_index_of : string → bool;
  soup_generator_meta : string → option (option string);
  soup_version_tag : string → option string;
  strptime_http_date : string → option datetime
}.

Section Scanner.

Context `{Library}.

(** The configuration held in [self.config]. *)
Variable config : ScanConfig.

(** *** Scanner.check_url (lines 93-102) *)
Equations? check_url (u : string) (retry_count : Z) : coro (option Z)
  by wf (Z.to_nat (max_retries config - retry_count)) lt :=
check_url u retry_count :=
  Await_request GET u (λ r,
    match r with
    | Responded response => Return (Some (status_code response))
    | Failed HttpxRequestError =>
        match Z_lt_dec retry_count (max_retries config) with
        | left _ => Await_sleep 1 (check_url u (retry_count + 1))
        | right _ => Return None
        end
    | Failed e => Raise e
    end).
Proof. lia. Qed.

(** *** Scanner.check_directory_listing (lines 104-111) *)
Definition check_directory_listing (u : string) : coro bool :=
  try_except
    (response ← session_request GET u;
     mret (soup_title_index_of (text response)))
    (mret false).

(** The loop shared by lines 116-120 and 125-129: the first candidate
    file for which [check_url] answers 200 ends it with [True]. *)
Fixpoint any_file_200 (u : string) (files : list string) : coro bool :=
  match files with
  | [] => mret false
  | path :: files' =>
      let full_url := urljoin u path in
      status ← check_url full_url 0;
      if decide (status = Some 200) then mret true
      else any_file_200 u files'
  end.

(** *** Scanner.check_readme_files (lines 113-120) *)
Definition readme_paths : list string :=
  ["README.txt"; "readme.txt"; "README.md"; "readme.md"].
Definition check_readme_files (u : string) : coro bool :=
  any_file_200 u readme_paths.

(** *** Scanner.check_manifest_files (lines 122-129) *)
Definition manifest_paths : list string := ["MANIFEST.xml"; "manifest.xml"].
Definition check_manifest_files (u : string) : coro bool :=
  any_file_200 u manifest_paths.

(** *** Scanner.get_component_version (lines 190-212) *)
Definition get_component_version (u : string) : coro (option string) :=
  try_except
    (response ← session_request GET u;
     match soup_generator_meta (text response) with
     | Some content => mret content
     | None =>
         let manifest_url := urljoin u "manifest.xml" in
         status ← check_url manifest_url 0;
         if decide (status = Some 200) then
           manifest_response ← session_request GET manifest_url;
           match soup_version_tag (text manifest_response) with
           | Some version_text => mret (Some version_text)
           | None => mret None
           end
         else mret None
     end)
    (mret None).

(** [response.headers[key]]: the values recorded under [key], joined
    with a comma as httpx does; [None] when [key not in headers]. *)
Definition headers_get (hs : list (string * string)) (key : string)
  : option string :=
  match (filter (λ kv, kv.1 = key) hs).*2 with
  | [] => None
  | vs => Some (String.concat ", " vs)
  end.

(** *** Scanner.get_last_modified (lines 214-222) *)
Definition get_last_modified (u : string) : coro (option datetime) :=
  try_except
    (response ← session_request HEAD u;
     match headers_get (headers response) "last-modified" with
     | Some value =>
         match strptime_http_date value with
         | Some d => mret (Some d)
         | None => Raise (PyException "ValueError")
         end
     | None => mret None
     end)
    (mret None).

(** *** Scanner.check_component (lines 131-188) *)

(** The three candidate paths of lines 133-137. *)
Definition component_paths (component : string) : list string :=
  [ "/components/" +:+ component +:+ "/";
    "/administrator/components/" +:+ component +:+ "/";
    "/index.php?option=" +:+ component ].

(** The local variables of lines 139-142 that the loop updates. *)
Record locals := {
  found_paths : gset string;
  l_vulnerabilities : list Vulnerability;
  l_version : option string;
  l_last_modified : option datetime
}.

Definition locals_init : locals :=
  {| found_paths := ∅; l_vulnerabilities := [];
     l_version := None; l_last_modified := None |}.

Definition directory_listing_vuln (u : string) : Vulnerability :=
  {| type := "Directory Listing";
     description :=
       "Directory listing is enabled, exposing sensitive information";
     severity := "Medium"; vuln_url := u |}.

Definition exposed_documentation_vuln (u : string) : Vulnerability :=
  {| type := "Exposed Documentation";
     description :=
       "README files are exposed, revealing component information";
     severity := "Low"; vuln_url := u |}.

Definition exposed_manifest_vuln (u : string) : Vulnerability :=
  {| type := "Exposed Manifest";
     description :=
       "Manifest files are exposed, revealing component details";
     severity := "Low"; vuln_url := u |}.

(** [vulnerabilities.append(v)] guarded by [if flag:]. *)
Definition append_if (flag : bool) (v : Vulnerability)
    (vs : list Vulnerability) : list Vulnerability :=
  if flag then vs ++ [v] else vs.

(** The statements of lines 149-178, run when [status == 200]. *)
Definition found_path (st : locals) (path u : string) : coro locals :=
  listing ← check_directory_listing u;
  let vs1 := append_if listing (directory_listing_vuln u)
               (l_vulnerabilities st) in
  readme ← check_readme_files u;
  let vs2 := append_if readme (exposed_documentation_vuln u) vs1 in
  manifest ← check_manifest_files u;
  let vs3 := append_if manifest (exposed_manifest_vuln u) vs2 in
  version ← get_component_version u;
  last_modified ← get_last_modified u;
  mret {| found_paths := {[path]} ∪ found_paths st;
          l_vulnerabilities := vs3;
          l_version := version;
          l_last_modified := last_modified |}.

(** One iteration of [for path in paths] (lines 145-178). *)
Definition check_path (st : locals) (path : string) : coro locals :=
  let u := urljoin (url config) path in
  status ← check_url u 0;
  if decide (status = Some 200) then found_path st path u
  else mret st.

(** [for path in paths: ...] *)
Fixpoint for_paths (st : locals) (ps : list string) : coro locals :=
  match ps with
  | [] => mret st
  | path :: ps' => st' ← check_path st path; for_paths st' ps'
  end.

Definition check_component (component : string) : coro (option Component) :=
  st ← for_paths locals_init (component_paths component);
  if decide (found_paths st = ∅) then mret None
  else mret (Some {| name := component;
                     paths := found_paths st;
                     vulnerabilities := l_vulnerabilities st;
                     version := l_version st;
                     last_modified := l_last_modified st |}).

(** *** Scanner.scan (lines 224-250) *)

(** Lines 247-250: the results of one batch, in order. *)
Fixpoint collect (results : list (option Component)) (self : Scanner)
    (h : list event) : Scanner * list event :=
  match results with
  | [] => (self, h)
  | result :: results' =>
      let self' :=
        match result with
        | Some c => {| self_components := self_components self ++ [c];
                       self_start_time := self_start_time self |}
        | None => self
        end in
      collect results' self' (h ++ [Ev_advance])
  end.

(** The tasks of line 244, each identified by the position of its
    candidate in the database. *)
Definition chunk_tasks (i : Z) (chunk : list string)
  : list (nat * coro (option Component)) :=
  imap (λ j comp, ((Z.to_nat i + j)%nat, check_component comp)) chunk.

(** The loop of lines 242-250 over the values [i] of the range; [b]
    counts the batches and selects the interleaving of each. *)
Fixpoint scan_loop (net : network) (sched : nat → list nat) (b : nat)
    (components_db : list string) (chunk_size : Z) (starts : list Z)
    (self : Scanner) (h : list event)
  : outcome () * Scanner * list event :=
  match starts with
  | [] => (Ok (), self, h)
  | i :: starts' =>
      let chunk := py_slice components_db i (i + chunk_size) in
      let tasks := chunk_tasks i chunk in
      match gather net (sched b) tasks h with
      | (Raised e, h') => (Raised e, self, h')
      | (Ok results, h') =>
          let '(self', h'') := collect results self h' in
          scan_loop net sched (S b) components_db chunk_size starts'
            self' h''
      end
  end.

(** [now] is the value of [datetime.now()] at line 226. *)
Definition scan (net : network) (sched : nat → list nat)
    (fs : option (list string)) (now : datetime)
    (self : Scanner) (h : list event)
  : outcome () * Scanner * list event :=
  let self := {| self_components := self_components self;
                 self_start_time := Some now |} in
  let components_db := load_components_db fs in
  let h := h ++ [Ev_add_task (len components_db)] in
  let chunk_size := threads config in
  match py_range 0 (len components_db) chunk_size with
  | Raised e => (Raised e, self, h)
  | Ok starts =>
      scan_loop net sched 0 components_db chunk_size starts self h
  end.

(** *** Scanner.generate_report (lines 262-274); [end_time] is the value
    of [datetime.now()] at line 264. Subtracting a start time that was
    never set raises [TypeError]. *)
Definition generate_report (self : Scanner) (end_time : datetime)
  : outcome ScanResult :=
  match self_start_time self with
  | None => Raised (PyException "TypeError")
  | Some start_time =>
      let duration := end_time - start_time in
      Ok {| target_url := url config;
            scan_time := start_time;
            duration := duration;
            components := self_components self;
            total_vulnerabilities :=
              py_sum ((λ c, len (vulnerabilities c)) <$> self_components self);
            scan_config := config |}
  end.

(** *** run_scanner (lines 344-348) *)
Definition run_scanner (net : network) (sched : nat → list nat)
    (fs : option (list string)) (now end_time : datetime)
  : outcome ScanResult * list event :=
  match scan net sched fs now Scanner_init [] with
  | (Ok _, scanner, h) => (generate_report scanner end_time, h)
  | (Raised e, _, h) => (Raised e, h)
  end.

End Scanner.

(** ** Vocabulary of the statements *)

(** The history of [n] failed attempts, each followed by the one-second
    sleep of line 100. *)
Definition failed_attempts (task : nat) (u : string) (n : nat) : list event :=
  mjoin (replicate n [Ev_request task GET u (Failed HttpxRequestError);
                      Ev_sleep task 1]).

Definition is_request (ev : event) : bool :=
  match ev with Ev_request _ _ _ _ => true | _ => false end.

Definition is_sleep (ev : event) : bool :=
  match ev with Ev_sleep _ _ => true | _ => false end.

(** How one attempt of [check_url] ends when it is the last one. *)
Definition attempt_result (r : netres) : outcome (option Z) :=
  match r with
  | Responded response => Ok (Some (status_code response))
  | Failed HttpxRequestError => Ok None
  | Failed e => Raised e
  end.

(** ** Mock targets for the examples *)
Module Mock.

Definition config : ScanConfig :=
  {| url := "http://target"; threads := 2; timeout := 5;
     user_agent := "Mozilla/5.0"; verify_ssl := false; max_retries := 3;
     output_file := None |}.

(** [urljoin] on the URLs of the examples: tabs, line feeds and
    carriage returns are removed from both arguments; a reference that
    starts with a slash then replaces the path of the base; any other
    reference replaces what follows the last slash of the base, query
    string dropped. *)
Fixpoint remove_unsafe (s : string) : string :=
  match s with
  | EmptyString => EmptyString
  | String a s' =>
      if decide (a = Ascii.ascii_of_nat 9 ∨ a = Ascii.ascii_of_nat 10
                 ∨ a = Ascii.ascii_of_nat 13)
      then remove_unsafe s'
      else String a (remove_unsafe s')
  end.

Fixpoint before_slash (n : nat) (s : string) : string :=
  match s with
  | EmptyString => EmptyString
  | String a s' =>
      if decide (a = "/"%char)
      then match n with
           | O => EmptyString
           | S n' => String a (before_slash n' s')
           end
      else String a (before_slash n s')
  end.

Fixpoint before_query (s : string) : string :=
  match s with
  | EmptyString => EmptyString
  | String a s' =>
      if decide (a = "?"%char) then EmptyString
      else String a (before_query s')
  end.

Fixpoint through_last_slash (s : string) : string :=
  match s with
  | EmptyString => EmptyString
  | String a s' =>
      let rest := through_last_slash s' in
      if decide (a = "/"%char) then String a rest
      else match rest with
           | EmptyString => EmptyString
           | _ => String a rest
           end
  end.

Definition urljoin (base ref : string) : string :=
  let base := remove_unsafe base in
  let ref := remove_unsafe ref in
  match ref with
  | String "/" _ => before_slash 2 base +:+ ref
  | _ => through_last_slash (before_query base) +:+ ref
  end.

(** Pages without markup: none of the BeautifulSoup queries finds its
    tag, and the only date understood is the one the server sends. *)
Definition soup_title_index_of (page : string) : bool :=
  if decide (page = "<title>Index of /</title>") then true else false.
Definition soup_generator_meta (page : string) : option (option string) :=
  match page with
  | String "g" (String ":" v) => Some (Some v)
  | _ => None
  end.
Definition soup_version_tag (page : string) : option string :=
  match page with
  | String "v" (String ":" v) => Some v
  | _ => None
  end.
Definition strptime_http_date (value : string) : option datetime :=
  if decide (value = "Thu, 01 Jan 1970 00:00:01 GMT") then Some 1000000
  else None.

Definition library : Library :=
  Build_Library urljoin soup_title_index_of soup_generator_meta
    soup_version_tag strptime_http_date.

Definition page (status : Z) (body : string) : Response :=
  {| status_code := status; text := body; headers := [] |}.

(** A target that is down: every exchange fails at the transport. *)
Definition net_down : network := λ _ _ _, Failed HttpxRequestError.

(** A target that answers 503 to everything. *)
Definition net_503 : network := λ _ _ _, Responded (page 503 "").

(** A deterministic site: the front-end path of [com_users] lists its
    directory and has a [readme.txt]; [com_shop] exists under both the
    front-end path, whose page names generator 1.0 and which carries a
    date, and the administrator path, whose page names generator 2.0
    and carries none; everything else is a 404. *)
Definition net_site : network := λ _ m u,
  if decide (u = "http://target/components/com_users/") then
    Responded (page 200 "<title>Index of /</title>")
  else if decide (u = "http://target/components/com_users/readme.txt") then
    Responded (page 200 "")
  else if decide (u = "http://target/components/com_shop/") then
    Responded {| status_code := 200; text := "g:1.0";
                 headers := [("last-modified",
                              "Thu, 01 Jan 1970 00:00:01 GMT")] |}
  else if decide (u = "http://target/administrator/components/com_shop/") then
    Responded (page 200 "g:2.0")
  else Responded (page 404 "").

(** What the scan of the site is expected to report for [com_users]. *)
Definition com_users : Component :=
  {| name := "com_users";
     paths := {["/components/com_users/"]};
     vulnerabilities :=
       [directory_listing_vuln "http://target/components/com_users/";
        exposed_documentation_vuln "http://target/components/com_users/"];
     version := None;
     last_modified := None |}.

Definition com_users_history : list event :=
  Eval vm_compute in
    (run net_site 0 (check_component (H:=library) config "com_users") []).2.

(** For [com_shop] the values of the administrator path are kept. *)
Definition com_shop : Component :=
  {| name := "com_shop";
     paths := {["/components/com_shop/";
                "/administrator/components/com_shop/"]};
     vulnerabilities := [];
     version := Some "2.0";
     last_modified := None |}.

Definition com_shop_history : list event :=
  Eval vm_compute in
    (run net_site 0 (check_component (H:=library) config "com_shop") []).2.

Definition vuln (u : string) : Vulnerability :=
  {| type := "Directory Listing"; description := "listing";
     severity := "Medium"; vuln_url := u |}.

Definition component (n : string) (vs : list Vulnerability) : Component :=
  {| name := n; paths := {["/components/" +:+ n +:+ "/"]};
     vulnerabilities := vs; version := None; last_modified := None |}.

(** A scanner that has recorded two components, with two and one
    vulnerabilities. *)
Definition scanned : Scanner :=
  {| self_components :=
       [component "com_a" [vuln "http://target/a"; vuln "http://target/b"];
        component "com_b" [vuln "http://target/c"]];
     self_start_time := Some 5000000 |}.

(** Five candidates scanned in batches of two, the tasks of a batch
    taking turns as the schedule says. *)
Definition five : list string :=
  ["com_users"; "com_ghost"; "com_shop"; "com_a"; "com_b"].

Definition turns : nat → list nat := λ _, [1; 0; 1; 1; 0]%nat.

Definition five_scanner : Scanner :=
  Eval vm_compute in
    (scan (H:=library) config net_site turns (Some five) 1000000
       Scanner_init []).1.2.

Definition five_history : list event :=
  Eval vm_compute in
    (scan (H:=library) config net_site turns (Some five) 1000000
       Scanner_init []).2.

(** The report of that scan, made two seconds after its start. *)
Definition five_report : ScanResult :=
  {| target_url := "http://target";
     scan_time := 1000000;
     duration := 2000000;
     components := [com_users; com_shop];
     total_vulnerabilities := 2;
     scan_config := config |}.

(** The same site behind a client that, as httpx does, refuses a URL
    with a control character by raising [InvalidURL], which is not a
    [RequestError]. *)
Definition has_control (u : string) : bool :=
  existsb (λ a, (Ascii.nat_of_ascii a <? 32)%nat
                || (Ascii.nat_of_ascii a =? 127)%nat)
    (list_ascii_of_string u).

Definition net_strict : network := λ h m u,
  if has_control u then Failed (PyException "InvalidURL")
  else net_site h m u.

(** A database whose first line has the control character U+0001
    inside the name, which [urljoin] keeps. *)
Definition com_ctl : string :=
  "com_a" +:+ String (Ascii.ascii_of_nat 1) "b".

Definition damaged : list string := [com_ctl; "com_users"; "com_shop"].

Definition in_order : nat → list nat := λ _, [].


(** The same scan when [com_users] completes two exchanges before the
    scan is resumed with the exception. *)
Definition first_then_second : nat → list nat := λ _, [0; 1; 1]%nat.

Definition damaged_scan_late : outcome () * Scanner * list event :=
  Eval vm_compute in
    scan (H:=library) config net_strict first_then_second (Some damaged)
      1000000 Scanner_init [].

End Mock.

(** ** Vocabulary of the statements about [check_component] *)
Section ProberVocabulary.

Context `{Library} (config : ScanConfig).

(** In the run from history [h] of the loop over [ps] entered with the
    locals [st0], the probe of the [i]-th path, [check_url] at line 146,
    returns [status]. *)
Definition loop_probed (net : network) (task : nat) (st0 : locals)
    (ps : list string) (h : list event) (i : nat) (status : option Z)
  : Prop :=
  ∃ path st h_i h',
    ps !! i = Some path ∧
    run net task (for_paths config st0 (take i ps)) h = (Ok st, h_i) ∧
    run net task (check_url config (urljoin (url config) path) 0) h_i
    = (Ok status, h').

(** In that run the [i]-th path is found, and lines 177 and 178 assign
    [v] to [version] and [lm] to [last_modified] in its iteration. *)
Definition loop_extracted (net : network) (task : nat) (st0 : locals)
    (ps : list string) (h : list event) (i : nat)
    (v : option string) (lm : option datetime) : Prop :=
  ∃ path st h_i h1 h2 h3 h4 h5 h6 listing readme manifest,
    let u := urljoin (url config) path in
    ps !! i = Some path ∧
    run net task (for_paths config st0 (take i ps)) h = (Ok st, h_i) ∧
    run net task (check_url config u 0) h_i = (Ok (Some 200), h1) ∧
    run net task (check_directory_listing u) h1 = (Ok listing, h2) ∧
    run net task (check_readme_files config u) h2 = (Ok readme, h3) ∧
    run net task (check_manifest_files config u) h3 = (Ok manifest, h4) ∧
    run net task (get_component_version config u) h4 = (Ok v, h5) ∧
    run net task (get_last_modified u) h5 = (Ok lm, h6).

(** The same for the run of [check_component component]. *)
Definition probed net task component h i status : Prop :=
  loop_probed net task locals_init (component_paths component) h i status.

Definition extracted net task component h i v lm : Prop :=
  loop_extracted net task locals_init (component_paths component) h i v lm.

End ProberVocabulary.

(** ** Vocabulary of the statements about the scheduler *)

#[global] Instance method_eq_dec : EqDecision method.
Proof. solve_decision. Defined.

(** What one task does at a suspension point, and how it is resumed. *)
Inductive io :=
| Io_request (m : method) (u : string) (r : netres)
| Io_sleep (secs : Z).

(** The task that an event of the history belongs to. *)
Definition ev_task (ev : event) : option nat :=
  match ev with
  | Ev_request t _ _ _ | Ev_sleep t _ => Some t
  | _ => None
  end.

(** The part of a history that is the doing of one task. *)
Definition proj (task : nat) (evs : list event) : list io :=
  omap (λ ev,
    match ev with
    | Ev_request t m u r =>
        if decide (t = task) then Some (Io_request m u r) else None
    | Ev_sleep t s => if decide (t = task) then Some (Io_sleep s) else None
    | _ => None
    end) evs.

(** The coroutine that is left of [c] once it has been resumed through
    [tr]; [None] when [tr] is not a way in which [c] can proceed. *)
Fixpoint after {A} (c : coro A) (tr : list io) {struct tr}
  : option (coro A) :=
  match tr with
  | [] => Some c
  | Io_request m u r :: tr' =>
      match c with
      | Await_request m' u' k =>
          if decide (m = m' ∧ u = u') then after (k r) tr' else None
      | _ => None
      end
  | Io_sleep s :: tr' =>
      match c with
      | Await_sleep s' k => if decide (s = s') then after k tr' else None
      | _ => None
      end
  end.

(** Every value that [c] can return satisfies [P]. *)
Fixpoint returns {A} (c : coro A) (P : A → Prop) : Prop :=
  match c with
  | Return a => P a
  | Raise _ => True
  | Await_request _ _ k => ∀ r, returns (k r) P
  | Await_sleep _ k => returns k P
  end.


(** The events [evs] are the doing of the tasks of [pool]. *)
Definition pool_events {A} (pool : list (nat * coro A)) (evs : list event)
  : Prop :=
  Forall (λ ev, ∃ t, ev_task ev = Some t ∧ t ∈ pool.*1) evs.

(** Through the events [evs] the tasks of [pool] come to the outcome [o]
    of waiting for them all: each task has returned its result, or one of
    them has raised the exception. *)
Definition pool_outcome {A} (pool : list (nat * coro A)) (evs : list event)
    (o : outcome (list A)) : Prop :=
  match o with
  | Ok results =>
      Forall2 (λ tc a, after tc.2 (proj tc.1 evs) = Some (Return a))
        pool results
  | Raised e => ∃ tc, tc ∈ pool ∧ after tc.2 (proj tc.1 evs) = Some (Raise e)
  end.

(** One batch of a scan: the index of its first candidate, its
    candidates, the events of its tasks and the results of [gather]. *)
Record batch_run := {
  batch_start : nat;
  batch_chunk : list string;
  batch_events : list event;
  batch_results : list (option Component)
}.

Section SchedulerVocabulary.

Context `{Library} (config : ScanConfig).

(** The events [evs] belong to the tasks of the candidates
    [start], ..., [start + length chunk - 1]. *)
Definition batch_only (start : nat) (chunk : list string)
    (evs : list event) : Prop :=
  Forall (λ ev, ∃ t, ev_task ev = Some t
                     ∧ (start ≤ t < start + length chunk)%nat) evs.

(** The batch has been joined: its events are those of its own tasks,
    and through them the task of every candidate of the batch has
    proceeded from the start of [check_component] to the result listed
    at the candidate's position. *)
Definition batch_joined (b : batch_run) : Prop :=
  batch_only (batch_start b) (batch_chunk b) (batch_events b) ∧
  length (batch_results b) = length (batch_chunk b) ∧
  ∀ j comp,
    batch_chunk b !! j = Some comp →
    ∃ r, batch_results b !! j = Some r ∧
         after (check_component config comp)
           (proj (batch_start b + j) (batch_events b))
         = Some (Return r).

(** What a joined batch adds to the history: the events of its tasks,
    then one progress increment for each of its candidates. *)
Definition batch_history (b : batch_run) : list event :=
  batch_events b ++ replicate (length (batch_chunk b)) Ev_advance.

(** The batch was cut short: through its events the task of one of its
    candidates has raised [e]. *)
Definition batch_aborted (start : nat) (chunk : list string)
    (evs : list event) (e : exn) : Prop :=
  batch_only start chunk evs ∧
  ∃ j comp,
    chunk !! j = Some comp ∧
    after (check_component config comp) (proj (start + j) evs)
    = Some (Raise e).

End SchedulerVocabulary.

Definition is_advance (ev : event) : bool :=
  match ev with Ev_advance => true | _ => false end.

(** The number of progress increments in a history. *)
Definition advances (evs : list event) : nat :=
  length (filter (λ ev, is_advance ev = true) evs).

(** The failures of the network are transport failures only: no exchange
    ends in an exception other than [httpx.RequestError]. *)
Definition transport_failures_only (net : network) : Prop :=
  ∀ h m u cls, net h m u ≠ Failed (PyException cls).

(** The coroutine [c] raises only where an exchange has ended in an
    exception other than [httpx.RequestError]. *)
Fixpoint guarded {A} (c : coro A) : Prop :=
  match c with
  | Return _ => True
  | Raise _ => False
  | Await_request _ _ k =>
      ∀ r, (∀ cls, r ≠ Failed (PyException cls)) → guarded (k r)
  | Await_sleep _ k => guarded k
  end.

(** ** Statements that are put to the test *)
Section Statements.

Context `{Library} (config : ScanConfig).


(** The report is a function of the configuration, the start time and
    the components alone: two calls on scanners that agree on them
    give the same result. *)
Definition report_determined_by_inputs : Prop :=
  ∀ self1 self2 end_time1 end_time2,
    self_components self1 = self_components self2 →
    self_start_time self1 = self_start_time self2 →
    generate_report config self1 end_time1
    = generate_report config self2 end_time2.

End Statements.

(** ** Vocabulary of the statements about the load on the target *)

Definition io_is_request (i : io) : bool :=
  match i with Io_request _ _ _ => true | _ => false end.

(** The number of HTTP exchanges in what a task does. *)
Definition io_requests (tr : list io) : nat :=
  length (filter (λ i, io_is_request i = true) tr).

(** The number of HTTP exchanges in a history. *)
Definition requests (evs : list event) : nat :=
  length (filter (λ ev, is_request ev = true) evs).

(** Through the events [evs] every task of [pool] has proceeded along
    one of the ways of its coroutine, to its end or not. *)
Definition in_progress {A} (pool : list (nat * coro A)) (evs : list event)
  : Prop :=
  ∀ tc, tc ∈ pool → is_Some (after tc.2 (proj tc.1 evs)).

(** On none of its ways does [c] make more than [n] requests. *)
Fixpoint requests_within {A} (n : nat) (c : coro A) : Prop :=
  match c with
  | Return _ | Raise _ => True
  | Await_request _ _ k =>
      match n with
      | O => False
      | S n' => ∀ r, requests_within n' (k r)
      end
  | Await_sleep _ k => requests_within n k
  end.

(** Every suspension of [c], on any of its ways, satisfies [P]. *)
Fixpoint suspensions {A} (P : io → Prop) (c : coro A) : Prop :=
  match c with
  | Return _ | Raise _ => True
  | Await_request m u k => ∀ r, P (Io_request m u r) ∧ suspensions P (k r)
  | Await_sleep s k => P (Io_sleep s) ∧ suspensions P k
  end.

Section BudgetVocabulary.

Context `{Library} (config : ScanConfig).

(** The attempts one call of [check_url] may make. *)
Definition attempts : nat := S (Z.to_nat (max_retries config)).

(** The requests that the checks of one candidate may make: for each of
    the three paths the probe, the fetch for the directory listing, four
    readme and two manifest probes, the page, the manifest probe and the
    manifest fetch for the version, and the HEAD request. *)
Definition request_budget : nat := 3 * (8 * attempts + 4).

(** What the checks of [component] may do at a suspension: sleep for
    one second; GET or HEAD the URL that [urljoin] makes of the target
    and one of the three paths of lines 133-137; or GET the URL that
    [urljoin] makes of such a URL and one of the six file names of the
    readme and manifest checks. Where the joined URL lies is for
    [urljoin] to say: it puts the file names under the two directory
    paths, but next to [index.php], at the root of the site, for the
    query-string path. *)
Definition allowed_io (component : string) (i : io) : Prop :=
  match i with
  | Io_sleep secs => secs = 1
  | Io_request m u _ =>
      ∃ p, p ∈ component_paths component ∧
           (u = urljoin (url config) p
            ∨ m = GET
              ∧ ∃ f, f ∈ readme_paths ++ manifest_paths
                     ∧ u = urljoin (urljoin (url config) p) f)
  end.

(** An event of a scan of the database [db] comes from a candidate when
    it is a progress call, or belongs to the task of a line of [db] and
    is allowed for that candidate. *)
Definition from_candidate (db : list string) (ev : event) : Prop :=
  match ev with
  | Ev_request t m u r =>
      ∃ comp, db !! t = Some comp ∧ allowed_io comp (Io_request m u r)
  | Ev_sleep t secs => (t < length db)%nat ∧ secs = 1
  | _ => True
  end.

End BudgetVocabulary.

(** ** Vocabulary of the statements about the database of candidates *)

(** [s] consists of whitespace only: taking whitespace off its front
    leaves nothing. *)
Fixpoint all_space_upto (n : nat) (s : string) : bool :=
  match s with
  | EmptyString => true
  | String _ _ =>
      match n with
      | O => false
      | S n' =>
          match drop_first py_whitespace s with
          | Some rest => all_space_upto n' rest
          | None => false
          end
      end
  end.

Definition all_space (s : string) : bool :=
  all_space_upto (String.length s) s.

(** [s] is made of characters of [ws], one after the other. *)
Definition made_of (ws : list string) (s : string) : Prop :=
  ∃ l, Forall (λ w, w ∈ ws) l ∧ s = foldr String.append "" l.

(** No string of [ws] is empty, and none begins with another. *)
Definition prefix_free (ws : list string) : bool :=
  forallb (λ w, negb (String.eqb w "")
                && forallb (λ w', match without_prefix w' w with
                                  | Some rest => String.eqb rest ""
                                  | None => true
                                  end) ws) ws.

(** ** Vocabulary of the statements about what a report lists *)
Section ReportVocabulary.

Context `{Library} (config : ScanConfig).

(** The three findings that the checks of lines 150-175 can record for a
    found path at URL [u]. *)
Definition findings (u : string) : list Vulnerability :=
  [directory_listing_vuln u; exposed_documentation_vuln u;
   exposed_manifest_vuln u].

(** [v] is one of the three findings for one of the paths of [c]. *)
Definition known_vulnerability (c : Component) (v : Vulnerability) : Prop :=
  ∃ p, p ∈ paths c ∧ v ∈ findings (urljoin (url config) p).

(** The findings recorded so far are findings for found paths. *)
Definition findings_known (st : locals) : Prop :=
  Forall (λ v, ∃ p, p ∈ found_paths st
                    ∧ v ∈ findings (urljoin (url config) p))
    (l_vulnerabilities st).

End ReportVocabulary.

(** ** Vocabulary of the statements about a target without state *)

(** A target whose answer depends on the request alone, and the network
    that it makes. *)
Definition server := method → string → netres.

Definition stateless (srv : server) : network := λ _ m u, srv m u.

(** The end of a coroutine all of whose exchanges [srv] answers. *)
Fixpoint eval {A} (srv : server) (c : coro A) : outcome A :=
  match c with
  | Return a => Ok a
  | Raise e => Raised e
  | Await_request m u k => eval srv (k (srv m u))
  | Await_sleep _ k => eval srv k
  end.

(** The exchange of the event has ended as [srv] answers. *)
Definition answered_by (srv : server) (ev : event) : Prop :=
  match ev with
  | Ev_request _ m u r => r = srv m u
  | _ => True
  end.

Definition io_answered_by (srv : server) (i : io) : Prop :=
  match i with
  | Io_request m u r => r = srv m u
  | _ => True
  end.

(** The history [h] extends [h0] by exchanges that [srv] answered. *)
Definition answered_since (srv : server) (h0 h : list event) : Prop :=
  ∃ evs, h = h0 ++ evs ∧ Forall (answered_by srv) evs.

Section StatelessVocabulary.

Context `{Library} (config : ScanConfig).

(** The candidates checked one after the other, in the order of the
    database. *)
Definition sequential_scan (srv : server) (db : list string)
  : list Component :=
  omap (λ comp,
          match eval srv (check_component config comp) with
          | Ok r => r
          | Raised _ => None
          end) db.

End StatelessVocabulary.

(** ** Vocabulary of the statements about where exceptions come from *)


(** ** The console: [display_results] (lines 283-342) *)

From stdpp Require Import pretty.

Local Open Scope Z_scope.

(** What [console.print] is given: a panel, a table with its title, its
    columns (header and style) and its rows, or a line of markup. *)
Inductive renderable :=
| Panel_fit (text border_style : string)
| Table (title : string) (columns : list (string * string))
    (rows : list (list string))
| Markup (text : string).

(** Conversions to text that [display_results] calls, taken as they
    are: [str] of the target URL and of an [int], [strftime] with the
    format of line 296, the [.2f] format of a duration, and the order in
    which a [set] is iterated. *)
Class Formatting := {
  str_url : string → string;
  str_int : Z → string;
  strftime : datetime → string;
  format_2f : Z → string;
  set_iter : gset string → list string
}.

Definition newline : string := String (Ascii.ascii_of_nat 10) "".

Section Display.

Context {fmt : Formatting}.

(** [x or "Unknown"] for an optional string: [None] and the empty string
    are false. *)
Definition or_unknown (x : option string) : string :=
  match x with
  | Some EmptyString | None => "Unknown"
  | Some s => s
  end.

(** The rows added by the loop of lines 311-317. *)
Definition component_rows (report : ScanResult) : list (list string) :=
  (λ component,
     [name component; or_unknown (version component);
      str_int (len (vulnerabilities component));
      String.concat newline (set_iter (paths component))])
  <$> components report.

(** The rows added by the loops of lines 330-338. *)
Definition vulnerability_rows (report : ScanResult) : list (list string) :=
  component ← components report;
  vuln ← vulnerabilities component;
  [[name component; type vuln; severity vuln; description vuln;
    vuln_url vuln]].

Definition summary_rows (report : ScanResult) : list (list string) :=
  [["Target URL"; str_url (target_url report)];
   ["Scan Time"; strftime (scan_time report)];
   ["Duration"; format_2f (duration report) +:+ " seconds"];
   ["Components Found"; str_int (len (components report))];
   ["Total Vulnerabilities"; str_int (total_vulnerabilities report)]].

Definition display_results (report : ScanResult) : list renderable :=
  [Panel_fit "[bold blue]Joomla Scanner Results[/bold blue]" "blue";
   Table "Scan Summary" [("Metric", "cyan"); ("Value", "green")]
     (summary_rows report)]
  ++ match components report with
     | [] => [Markup (newline +:+ "[bold red]No components found![/bold red]")]
     | _ =>
         [Table "Found Components"
            [("Component", "cyan"); ("Version", "green");
             ("Vulnerabilities", "red"); ("Paths", "yellow")]
            (component_rows report)]
         ++ (if decide (0 < total_vulnerabilities report) then
               [Table "Vulnerabilities"
                  [("Component", "cyan"); ("Type", "red");
                   ("Severity", "yellow"); ("Description", "white");
                   ("URL", "blue")]
                  (vulnerability_rows report)]
             else [])
     end.

End Display.

(** A console for the examples: decimal numbers, durations of whole
    seconds, a fixed date, sets in the order of their elements. *)
Module MockConsole.

Definition formatting : Formatting :=
  {| str_url := λ u, u;
     str_int := pretty;
     strftime := λ _, "1970-01-01 00:00:01";
     format_2f := λ d, pretty (d `div` 1000000) +:+ ".00";
     set_iter := elements |}.

End MockConsole.

(** * Properties *)

(** ** Running coroutines *)

Lemma run_bind {A B} net task (c : coro A) (f : A → coro B) h :
  run net task (c ≫= f) h =
  match run net task c h with
  | (Ok a, h1) => run net task (f a) h1
  | (Raised e, h1) => (Raised e, h1)
  end.
Proof.
  revert h. induction c as [a|e|m u k IH|s k IH]; intros h; simpl; auto.
Qed.

Lemma run_try_except {A} net task (c handler : coro A) h :
  run net task (try_except c handler) h =
  match run net task c h with
  | (Ok a, h1) => (Ok a, h1)
  | (Raised _, h1) => run net task handler h1
  end.
Proof.
  revert h. induction c as [a|e|m u k IH|s k IH]; intros h; simpl; auto.
Qed.

(** ** The probe client: [check_url] *)

Lemma failed_attempts_requests task u n :
  length (filter (λ ev, is_request ev = true) (failed_attempts task u n)) = n.
Proof.
  unfold failed_attempts. induction n as [|n IH]; simpl; auto.
Qed.

Lemma failed_attempts_sleeps task u n :
  filter (λ ev, is_sleep ev = true) (failed_attempts task u n)
  = replicate n (Ev_sleep task 1).
Proof.
  unfold failed_attempts. induction n as [|n IH]; simpl; auto.
  by rewrite <- IH.
Qed.

(** When every exchange with [u] fails at the transport level, a call
    entered with [retry_count] makes the [max_retries - retry_count]
    retries that are left, sleeping before each, and returns [None]. *)
Lemma check_url_all_fail config net task u :
  (∀ h, net h GET u = Failed HttpxRequestError) →
  ∀ (n : nat) retry_count h,
    retry_count + Z.of_nat n = max_retries config →
    run net task (check_url config u retry_count) h =
    (Ok None, h ++ failed_attempts task u n
                ++ [Ev_request task GET u (Failed HttpxRequestError)]).
Proof.
  intros Hnet n. induction n as [|n IH]; intros rc h Hrc.
  - rewrite check_url_equation_1. simpl. rewrite Hnet.
    destruct (Z_lt_dec rc (max_retries config)); [lia|]. done.
  - rewrite check_url_equation_1. simpl. rewrite Hnet.
    destruct (Z_lt_dec rc (max_retries config)); [|lia].
    simpl. rewrite IH by lia.
    unfold failed_attempts. simpl. by rewrite <- !app_assoc.
Qed.

(** A run of [check_url] is a number of failed attempts, each followed by
    a sleep, and one last attempt that decides the result. An attempt is
    followed by another one only when it failed at the transport level
    and retries were left. *)
Lemma check_url_run_shape config net task u :
  ∀ (n : nat) retry_count h,
    n = Z.to_nat (max_retries config - retry_count) →
    ∃ (k : nat) final,
      (k ≤ n)%nat ∧
      (final = Failed HttpxRequestError → k = n) ∧
      run net task (check_url config u retry_count) h =
      (attempt_result final,
       h ++ failed_attempts task u k ++ [Ev_request task GET u final]).
Proof.
  intros n. induction n as [|n IH]; intros rc h Hn.
  - exists 0%nat, (net h GET u). split; [lia|]. split; [done|].
    rewrite check_url_equation_1. simpl.
    destruct (net h GET u) as [resp|[|cls]]; simpl; auto.
    destruct (Z_lt_dec rc (max_retries config)); [lia|done].
  - rewrite check_url_equation_1. simpl.
    destruct (net h GET u) as [resp|[|cls]] eqn:Hr; simpl.
    + exists 0%nat, (Responded resp). split; [lia|]. split; [done|]. done.
    + destruct (Z_lt_dec rc (max_retries config)); [|lia].
      simpl.
      destruct (IH (rc + 1) (h ++ [Ev_request task GET u (Failed HttpxRequestError)]
                               ++ [Ev_sleep task 1]) ltac:(lia))
        as (k & final & Hk & Hlast & Hrun).
      rewrite <- app_assoc. simpl in *. rewrite Hrun.
      exists (S k), final. split; [lia|]. split; [intros ?; f_equal; auto|].
      unfold failed_attempts. simpl. by rewrite <- !app_assoc.
    + exists 0%nat, (Failed (PyException cls)).
      split; [lia|]. split; [done|]. done.
Qed.

(** C2. When every request for a URL fails at the transport level, the
    probe makes exactly [max_retries + 1] attempts, sleeps one second
    between two attempts, and then returns [None] instead of raising. *)
Theorem check_url_retry_bound config net task u h :
  0 ≤ max_retries config →
  (∀ h', net h' GET u = Failed HttpxRequestError) →
  ∃ evs,
    run net task (check_url config u 0) h = (Ok None, h ++ evs) ∧
    evs = failed_attempts task u (Z.to_nat (max_retries config))
          ++ [Ev_request task GET u (Failed HttpxRequestError)] ∧
    len (filter (λ ev, is_request ev = true) evs) = max_retries config + 1 ∧
    filter (λ ev, is_sleep ev = true) evs
    = replicate (Z.to_nat (max_retries config)) (Ev_sleep task 1).
Proof.
  intros Hmax Hnet. eexists. split; [|split; [reflexivity|]].
  - rewrite (check_url_all_fail config net task u Hnet
               (Z.to_nat (max_retries config))) by lia.
    reflexivity.
  - split.
    + unfold len. rewrite filter_app, length_app, failed_attempts_requests.
      simpl. lia.
    + rewrite filter_app, failed_attempts_sleeps. simpl. by rewrite app_nil_r.
Qed.

Lemma check_url_retry_bound_witness :
  ∃ evs,
    run Mock.net_down 0 (check_url Mock.config "http://target/x" 0) []
    = (Ok None, [] ++ evs) ∧
    evs = failed_attempts 0 "http://target/x" (Z.to_nat (max_retries Mock.config))
          ++ [Ev_request 0 GET "http://target/x" (Failed HttpxRequestError)] ∧
    len (filter (λ ev, is_request ev = true) evs) = max_retries Mock.config + 1 ∧
    filter (λ ev, is_sleep ev = true) evs
    = replicate (Z.to_nat (max_retries Mock.config)) (Ev_sleep 0 1).
Proof.
  apply check_url_retry_bound; [vm_compute; discriminate | reflexivity].
Defined.



(** ** The report aggregator: [generate_report] *)

Lemma py_sum_from acc xs : foldl Z.add acc xs = acc + foldr Z.add 0 xs.
Proof.
  revert acc. induction xs as [|x xs IH]; intros acc; simpl; [lia|].
  rewrite IH. lia.
Qed.

Lemma py_sum_lengths {A} (ls : list (list A)) :
  py_sum (len <$> ls) = len (mjoin ls).
Proof.
  unfold py_sum. rewrite py_sum_from.
  induction ls as [|l ls IH]; [done|].
  rewrite fmap_cons. simpl. unfold len in *.
  rewrite length_app, Nat2Z.inj_add. lia.
Qed.

(** C1. In every report produced, [total_vulnerabilities] is the sum of
    the lengths of the vulnerability lists of the components of the
    report, that is the number of vulnerabilities listed in it. *)
Theorem generate_report_total_vulnerabilities config self end_time report :
  generate_report config self end_time = Ok report →
  total_vulnerabilities report
  = foldr (λ c total, len (vulnerabilities c) + total) 0 (components report) ∧
  total_vulnerabilities report
  = len (mjoin (vulnerabilities <$> components report)).
Proof.
  unfold generate_report. destruct (self_start_time self); [|done].
  intros [= <-]. simpl. split.
  - unfold py_sum. by rewrite py_sum_from, foldr_fmap.
  - rewrite <- py_sum_lengths. by rewrite <- list_fmap_compose.
Qed.

Lemma generate_report_total_vulnerabilities_witness :
  ∃ report,
    generate_report Mock.config Mock.scanned 9000000 = Ok report ∧
    total_vulnerabilities report = 3 ∧
    total_vulnerabilities report
    = len (mjoin (vulnerabilities <$> components report)).
Proof.
  eexists. split; [reflexivity|]. split; [reflexivity|].
  apply (generate_report_total_vulnerabilities Mock.config Mock.scanned 9000000).
  reflexivity.
Defined.

(** ** The component prober: [check_component] *)
Section Prober.

Context `{Library} (config : ScanConfig) (net : network) (task : nat).

Lemma check_path_run st path h :
  run net task (check_path config st path) h =
  match run net task (check_url config (urljoin (url config) path) 0) h with
  | (Ok status, h1) =>
      if decide (status = Some 200)
      then run net task (found_path config st path (urljoin (url config) path)) h1
      else (Ok st, h1)
  | (Raised e, h1) => (Raised e, h1)
  end.
Proof.
  unfold check_path. rewrite run_bind.
  destruct (run net task _ h) as [[status|e] h1]; [|done].
  by destruct (decide (status = Some 200)).
Qed.

Lemma found_path_run st path u h st' h' :
  run net task (found_path config st path u) h = (Ok st', h') →
  ∃ h2 h3 h4 h5 listing readme manifest,
    run net task (check_directory_listing u) h = (Ok listing, h2) ∧
    run net task (check_readme_files config u) h2 = (Ok readme, h3) ∧
    run net task (check_manifest_files config u) h3 = (Ok manifest, h4) ∧
    run net task (get_component_version config u) h4
    = (Ok (l_version st'), h5) ∧
    run net task (get_last_modified u) h5 = (Ok (l_last_modified st'), h') ∧
    found_paths st' = {[path]} ∪ found_paths st.
Proof.
  unfold found_path. rewrite run_bind.
  destruct (run net task (check_directory_listing u) h)
    as [[listing|e] h2]; [|done].
  rewrite run_bind.
  destruct (run net task (check_readme_files config u) h2)
    as [[readme|e] h3] eqn:E3; [|done].
  rewrite run_bind.
  destruct (run net task (check_manifest_files config u) h3)
    as [[manifest|e] h4] eqn:E4; [|done].
  rewrite run_bind.
  destruct (run net task (get_component_version config u) h4)
    as [[v|e] h5] eqn:E5; [|done].
  rewrite run_bind.
  destruct (run net task (get_last_modified u) h5)
    as [[lm|e] h6] eqn:E6; [|done].
  simpl. intros [= <- <-]. simpl.
  by exists h2, h3, h4, h5, listing, readme, manifest.
Qed.

Lemma for_paths_snoc st ps path h :
  run net task (for_paths config st (ps ++ [path])) h =
  match run net task (for_paths config st ps) h with
  | (Ok st1, h1) => run net task (check_path config st1 path) h1
  | (Raised e, h1) => (Raised e, h1)
  end.
Proof.
  revert st h. induction ps as [|p ps IH]; intros st h; simpl.
  - rewrite run_bind.
    by destruct (run net task (check_path config st path) h) as [[st1|e] h1].
  - rewrite !run_bind.
    destruct (run net task (check_path config st p) h) as [[st1|e] h1];
      [apply IH|done].
Qed.

Lemma loop_probed_snoc_lt st0 ps path h i status :
  (i < length ps)%nat →
  loop_probed config net task st0 (ps ++ [path]) h i status
  ↔ loop_probed config net task st0 ps h i status.
Proof.
  intros Hi. unfold loop_probed.
  rewrite take_app_le by lia. by rewrite lookup_app_l by lia.
Qed.

Lemma loop_probed_snoc_last st0 ps path h status :
  loop_probed config net task st0 (ps ++ [path]) h (length ps) status
  ↔ ∃ st h_i h',
      run net task (for_paths config st0 ps) h = (Ok st, h_i) ∧
      run net task (check_url config (urljoin (url config) path) 0) h_i
      = (Ok status, h').
Proof.
  unfold loop_probed. rewrite take_app_length.
  rewrite list_lookup_middle by done. split.
  - intros (p & st & h_i & h' & [= <-] & ? & ?). eauto.
  - intros (st & h_i & h' & ? & ?). exists path, st, h_i, h'. eauto.
Qed.

Lemma loop_probed_bound st0 ps h i status :
  loop_probed config net task st0 ps h i status → (i < length ps)%nat.
Proof.
  intros (p & _ & _ & _ & Hp & _). by apply lookup_lt_Some in Hp.
Qed.

Lemma loop_extracted_snoc_lt st0 ps path h i v lm :
  (i < length ps)%nat →
  loop_extracted config net task st0 (ps ++ [path]) h i v lm
  ↔ loop_extracted config net task st0 ps h i v lm.
Proof.
  intros Hi. unfold loop_extracted.
  rewrite take_app_le by lia. by rewrite lookup_app_l by lia.
Qed.

(** What one iteration of the loop does to the locals. *)
Lemma check_path_cases st path h st' h' :
  run net task (check_path config st path) h = (Ok st', h') →
  (∃ status, status ≠ Some 200 ∧ st' = st ∧
     run net task (check_url config (urljoin (url config) path) 0) h
     = (Ok status, h'))
  ∨ (∃ h1,
       run net task (check_url config (urljoin (url config) path) 0) h
       = (Ok (Some 200), h1) ∧
       run net task (found_path config st path (urljoin (url config) path)) h1
       = (Ok st', h')).
Proof.
  rewrite check_path_run.
  destruct (run net task (check_url config _ 0) h) as [[status|e] h1];
    [|done].
  destruct (decide (status = Some 200)) as [->|Hne].
  - intros Hrun. right. by exists h1.
  - intros [= <- <-]. left. by exists status.
Qed.

(** The loop over the candidate paths: the paths found are those whose
    probe answered 200, and the version and date kept are those of the
    last of them. *)
Lemma for_paths_spec ps : ∀ st0 h st' h',
  run net task (for_paths config st0 ps) h = (Ok st', h') →
  (∀ p, p ∈ found_paths st' ↔
        p ∈ found_paths st0
        ∨ ∃ i, ps !! i = Some p
               ∧ loop_probed config net task st0 ps h i (Some 200)) ∧
  (((∀ i, ¬ loop_probed config net task st0 ps h i (Some 200))
    ∧ l_version st' = l_version st0
    ∧ l_last_modified st' = l_last_modified st0)
   ∨ ∃ i, loop_extracted config net task st0 ps h i
            (l_version st') (l_last_modified st')
          ∧ ∀ j, (i < j)%nat
                 → ¬ loop_probed config net task st0 ps h j (Some 200)).
Proof.
  induction ps as [|path ps IH] using rev_ind; intros st0 h st' h' Hrun.
  - simpl in Hrun. injection Hrun as <- <-. split.
    + intros p. split; [auto|]. intros [?|(i & Hi & _)]; [done|].
      by rewrite lookup_nil in Hi.
    + left. split; [|done]. intros i Hp.
      apply loop_probed_bound in Hp. simpl in Hp. lia.
  - rewrite for_paths_snoc in Hrun.
    destruct (run net task (for_paths config st0 ps) h)
      as [[st1|e] h1] eqn:Hps; [|done].
    destruct (IH _ _ _ _ Hps) as [Hfound Hlast].
    assert (Hsame : ∀ status,
      loop_probed config net task st0 (ps ++ [path]) h (length ps) status
      ↔ run net task (check_url config (urljoin (url config) path) 0) h1
        = (Ok status, (run net task
             (check_url config (urljoin (url config) path) 0) h1).2)).
    { intros status. rewrite loop_probed_snoc_last. split.
      - intros (st & h_i & h2 & Hst & Hs). rewrite Hps in Hst.
        injection Hst as <- <-. by rewrite Hs.
      - intros Hs. by exists st1, h1, (run net task
          (check_url config (urljoin (url config) path) 0) h1).2. }
    apply check_path_cases in Hrun
      as [(status & Hne & -> & Hurl)|(h2 & Hurl & Hrun)].
    + (* the path is not found: the locals are unchanged *)
      assert (Hnot : ¬ loop_probed config net task st0 (ps ++ [path]) h
                       (length ps) (Some 200)).
      { rewrite Hsame, Hurl. simpl. by intros [= ?]. }
      split.
      * intros p. rewrite Hfound. split.
        -- intros [?|(i & Hi & Hp)]; [by left|]. right. exists i.
           pose proof (loop_probed_bound _ _ _ _ _ Hp).
           split; [by rewrite lookup_app_l by lia|].
           by apply loop_probed_snoc_lt.
        -- intros [?|(i & Hi & Hp)]; [by left|]. right. exists i.
           pose proof (loop_probed_bound _ _ _ _ _ Hp) as Hb.
           rewrite length_app in Hb. simpl in Hb.
           destruct (decide (i = length ps)) as [->|]; [done|].
           split; [by rewrite lookup_app_l in Hi by lia|].
           apply loop_probed_snoc_lt in Hp; [done|lia].
      * destruct Hlast as [(Hnone & Hv & Hlm)|(i & Hex & Hlater)].
        -- left. split; [|done]. intros i Hp.
           pose proof (loop_probed_bound _ _ _ _ _ Hp) as Hb.
           rewrite length_app in Hb. simpl in Hb.
           destruct (decide (i = length ps)) as [->|]; [done|].
           apply loop_probed_snoc_lt in Hp; [|lia]. by apply (Hnone i).
        -- right. exists i.
           assert (i < length ps)%nat as Hi.
           { destruct Hex as (p & _ & _ & _ & _ & _ & _ & _ & _ & _ & _
                                & _ & Hp & _). by apply lookup_lt_Some in Hp. }
           split; [by apply loop_extracted_snoc_lt|].
           intros j Hj Hp.
           pose proof (loop_probed_bound _ _ _ _ _ Hp) as Hb.
           rewrite length_app in Hb. simpl in Hb.
           destruct (decide (j = length ps)) as [->|]; [done|].
           apply loop_probed_snoc_lt in Hp; [|lia]. by apply (Hlater j).
    + (* the path is found: it is added, and its extraction is kept *)
      apply found_path_run in Hrun
        as (h3 & h4 & h5 & h6 & listing & readme & manifest
            & H3 & H4 & H5 & H6 & H7 & Hadd).
      assert (Hyes : loop_probed config net task st0 (ps ++ [path]) h
                       (length ps) (Some 200)).
      { rewrite Hsame, Hurl. done. }
      split.
      * intros p. rewrite Hadd, elem_of_union, elem_of_singleton, Hfound.
        split.
        -- intros [->|[?|(i & Hi & Hp)]].
           ++ right. exists (length ps).
              split; [by apply list_lookup_middle|done].
           ++ by left.
           ++ right. exists i.
              pose proof (loop_probed_bound _ _ _ _ _ Hp).
              split; [by rewrite lookup_app_l by lia|].
              by apply loop_probed_snoc_lt.
        -- intros [?|(i & Hi & Hp)]; [by right; left|].
           pose proof (loop_probed_bound _ _ _ _ _ Hp) as Hb.
           rewrite length_app in Hb. simpl in Hb.
           destruct (decide (i = length ps)) as [->|].
           ++ rewrite list_lookup_middle in Hi by done.
              injection Hi as <-. by left.
           ++ right. right. exists i.
              split; [by rewrite lookup_app_l in Hi by lia|].
              apply loop_probed_snoc_lt in Hp; [done|lia].
      * right. exists (length ps). split.
        -- unfold loop_extracted. rewrite take_app_length.
           exists path, st1, h1, h2, h3, h4, h5, h6, h', listing, readme,
             manifest.
           simpl. by rewrite list_lookup_middle by done.
        -- intros j Hj Hp. apply loop_probed_bound in Hp.
           rewrite length_app in Hp. simpl in Hp. lia.
Qed.

Lemma for_paths_none_found ps : ∀ st0 h,
  (∀ i, (i < length ps)%nat →
        ∃ status, loop_probed config net task st0 ps h i status
                  ∧ status ≠ Some 200) →
  ∃ h', run net task (for_paths config st0 ps) h = (Ok st0, h').
Proof.
  induction ps as [|path ps IH] using rev_ind; intros st0 h Hall.
  - by exists h.
  - destruct (IH st0 h) as [h1 Hps].
    { intros i Hi. destruct (Hall i) as (status & Hp & Hne).
      { rewrite length_app. lia. }
      exists status. split; [|done]. by apply loop_probed_snoc_lt in Hp. }
    destruct (Hall (length ps)) as (status & Hp & Hne).
    { rewrite length_app. simpl. lia. }
    apply loop_probed_snoc_last in Hp as (st & h_i & h2 & Hst & Hurl).
    rewrite Hps in Hst. injection Hst as <- <-.
    exists h2. rewrite for_paths_snoc, Hps, check_path_run, Hurl.
    by destruct (decide (status = Some 200)).
Qed.

Lemma check_component_run component h :
  run net task (check_component config component) h =
  match run net task
          (for_paths config locals_init (component_paths component)) h with
  | (Ok st, h') =>
      (Ok (if decide (found_paths st = ∅) then None
           else Some {| name := component;
                        paths := found_paths st;
                        vulnerabilities := l_vulnerabilities st;
                        version := l_version st;
                        last_modified := l_last_modified st |}), h')
  | (Raised e, h') => (Raised e, h')
  end.
Proof.
  unfold check_component. rewrite run_bind.
  destruct (run net task (for_paths config _ _) h) as [[st|e] h']; [|done].
  by destruct (decide (found_paths st = ∅)).
Qed.

End Prober.

(** ** The event loop: [gather] *)
Section Gather.

Context {A : Type} (net : network).
Implicit Types (c : coro A) (pool : list (nat * coro A)).

Lemma proj_app task evs1 evs2 :
  proj task (evs1 ++ evs2) = proj task evs1 ++ proj task evs2.
Proof. apply omap_app. Qed.

Lemma proj_cons_request task m u r evs :
  proj task (Ev_request task m u r :: evs)
  = Io_request m u r :: proj task evs.
Proof. unfold proj. cbn [omap list_omap]. by rewrite decide_True. Qed.

Lemma proj_cons_sleep task s evs :
  proj task (Ev_sleep task s :: evs) = Io_sleep s :: proj task evs.
Proof. unfold proj. cbn [omap list_omap]. by rewrite decide_True. Qed.

Lemma proj_cons_other task ev evs :
  ev_task ev ≠ Some task → proj task (ev :: evs) = proj task evs.
Proof.
  intros Hev. unfold proj. cbn [omap list_omap].
  destruct ev as [t m u r|t s| |]; simpl in *; try done;
    destruct (decide (t = task)); congruence.
Qed.

(** Events of other tasks do not show in the projection. *)
Lemma proj_other task evs :
  Forall (λ ev, ev_task ev ≠ Some task) evs → proj task evs = [].
Proof.
  induction 1 as [|ev evs Hev _ IH]; [done|].
  by rewrite proj_cons_other.
Qed.

Lemma after_app c tr1 tr2 c1 :
  after c tr1 = Some c1 → after c (tr1 ++ tr2) = after c1 tr2.
Proof.
  revert c. induction tr1 as [|[m u r|s] tr1 IH]; intros c; simpl.
  - by intros [= ->].
  - destruct c as [| |m' u' k|]; try done.
    destruct (decide (m = m' ∧ u = u')); [apply IH|done].
  - destruct c as [| | |s' k]; try done.
    destruct (decide (s = s')); [apply IH|done].
Qed.

(** A coroutine run to its end: the history grows by events of its
    task, through which the coroutine proceeds to its result. *)
Lemma run_after task c : ∀ h o h',
  run net task c h = (o, h') →
  ∃ evs, h' = h ++ evs ∧
         Forall (λ ev, ev_task ev = Some task) evs ∧
         after c (proj task evs)
         = Some (match o with Ok a => Return a | Raised e => Raise e end).
Proof.
  induction c as [a|e|m u k IH|s k IH]; intros h o h'; simpl.
  - intros [= <- <-]. exists []. by rewrite app_nil_r.
  - intros [= <- <-]. exists []. by rewrite app_nil_r.
  - intros Hrun. apply IH in Hrun as (evs & -> & Hevs & Hafter).
    exists (Ev_request task m u (net h m u) :: evs).
    split; [by rewrite <- app_assoc|]. split; [by constructor|].
    rewrite proj_cons_request. simpl. by rewrite decide_True.
  - intros Hrun. apply IH in Hrun as (evs & -> & Hevs & Hafter).
    exists (Ev_sleep task s :: evs).
    split; [by rewrite <- app_assoc|]. split; [by constructor|].
    rewrite proj_cons_sleep. simpl. by rewrite decide_True.
Qed.

Lemma step_after task c h c' h' :
  step net task c h = (c', h') →
  ∃ evs, h' = h ++ evs ∧
         Forall (λ ev, ev_task ev = Some task) evs ∧
         after c (proj task evs) = Some c'.
Proof.
  destruct c as [a|e|m u k|s k]; simpl; intros [= <- <-].
  - exists []. by rewrite app_nil_r.
  - exists []. by rewrite app_nil_r.
  - exists [Ev_request task m u (net h m u)].
    split; [done|]. split; [by repeat constructor|].
    rewrite proj_cons_request. simpl. by rewrite decide_True.
  - exists [Ev_sleep task s].
    split; [done|]. split; [by repeat constructor|].
    rewrite proj_cons_sleep. simpl. by rewrite decide_True.
Qed.

(** Events of one task leave the projections of the others alone. *)
Lemma proj_app_other task t evs0 evs :
  Forall (λ ev, ev_task ev = Some task) evs0 → t ≠ task →
  proj t (evs0 ++ evs) = proj t evs.
Proof.
  intros Hevs Hne. rewrite proj_app, proj_other; [done|].
  eapply Forall_impl; [exact Hevs|]. simpl. intros ev -> [= ->]. done.
Qed.

Lemma proj_app_other_r task t evs0 evs :
  Forall (λ ev, ev_task ev = Some task) evs → t ≠ task →
  proj t (evs0 ++ evs) = proj t evs0.
Proof.
  intros Hevs Hne. rewrite proj_app, (proj_other _ evs), app_nil_r; [done|].
  eapply Forall_impl; [exact Hevs|]. simpl. intros ev -> [= ->]. done.
Qed.

Lemma pool_events_mono pool pool' evs :
  pool.*1 ⊆ pool'.*1 → pool_events pool evs → pool_events pool' evs.
Proof.
  intros Hsub Hevs. eapply Forall_impl; [exact Hevs|].
  intros ev (t & Ht & Hin). eauto.
Qed.

Lemma task_events_pool pool task c evs :
  (task, c) ∈ pool →
  Forall (λ ev, ev_task ev = Some task) evs → pool_events pool evs.
Proof.
  intros Hin Hevs. eapply Forall_impl; [exact Hevs|].
  intros ev Hev. exists task.
  split; [done|]. apply list_elem_of_fmap. by exists (task, c).
Qed.

(** Two entries of a pool without repeated identifiers that carry the
    same identifier are the same entry. *)
Lemma pool_lookup_inj pool i j t c1 c2 :
  NoDup pool.*1 →
  pool !! i = Some (t, c1) → pool !! j = Some (t, c2) → i = j.
Proof.
  intros Hnd Hi Hj. eapply NoDup_lookup; [exact Hnd| |].
  - by rewrite list_lookup_fmap, Hi.
  - by rewrite list_lookup_fmap, Hj.
Qed.

Lemma returned_proj_ext pool (results : list A) evs evs' :
  (∀ tc, tc ∈ pool → proj tc.1 evs' = proj tc.1 evs) →
  Forall2 (λ tc a, after tc.2 (proj tc.1 evs) = Some (Return a))
    pool results →
  Forall2 (λ tc a, after tc.2 (proj tc.1 evs') = Some (Return a))
    pool results.
Proof.
  intros Hext Hall. induction Hall as [|tc a pool results Hafter _ IH].
  - constructor.
  - constructor.
    + rewrite Hext; [done|left].
    + apply IH. intros tc' Hin. apply Hext. by right.
Qed.

Lemma run_all_spec pool : ∀ h o h',
  NoDup pool.*1 →
  run_all net pool h = (o, h') →
  ∃ evs, h' = h ++ evs ∧ pool_events pool evs ∧ pool_outcome pool evs o.
Proof.
  induction pool as [|[task c] pool IH]; intros h o h' Hnd; simpl.
  - intros [= <- <-]. exists []. rewrite app_nil_r.
    split; [done|]. split; [by constructor|by constructor].
  - apply NoDup_cons in Hnd as [Hfresh Hnd].
    destruct (run net task c h) as [[a|e] h1] eqn:Hrun.
    + apply run_after in Hrun as (evs1 & -> & Hevs1 & Hafter1).
      destruct (run_all net pool (h ++ evs1)) as [o2 h2] eqn:Hrest.
      apply IH in Hrest as (evs2 & -> & Hevs2 & Hout2); [|done].
      assert (Hleft : proj task (evs1 ++ evs2) = proj task evs1).
      { rewrite proj_app, (proj_other _ evs2), app_nil_r; [done|].
        eapply Forall_impl; [exact Hevs2|]. simpl.
        intros ev (t & -> & Hin) [= ->]. done. }
      assert (Hright : ∀ tc, tc ∈ pool →
                proj tc.1 (evs1 ++ evs2) = proj tc.1 evs2).
      { intros [t c2] Hin. apply (proj_app_other task); [done|].
        simpl. intros ->. apply Hfresh, list_elem_of_fmap.
        by exists (task, c2). }
      assert (Hevs : pool_events ((task, c) :: pool) (evs1 ++ evs2)).
      { apply Forall_app. split.
        - apply (task_events_pool _ task c); [left|done].
        - eapply pool_events_mono; [|exact Hevs2]. simpl.
          by apply list_subseteq_cons. }
      destruct o2 as [results|e]; intros [= <- <-].
      * exists (evs1 ++ evs2). split; [by rewrite app_assoc|].
        split; [done|]. simpl. constructor.
        -- simpl. by rewrite Hleft.
        -- by apply (returned_proj_ext _ _ evs2).
      * exists (evs1 ++ evs2). split; [by rewrite app_assoc|].
        split; [done|]. destruct Hout2 as (tc & Hin & Hafter2).
        exists tc. split; [by right|]. by rewrite Hright.
    + intros [= <- <-].
      apply run_after in Hrun as (evs1 & -> & Hevs1 & Hafter1).
      exists evs1. split; [done|].
      split; [apply (task_events_pool _ task c); [left|done]|].
      exists (task, c). split; [left|done].
Qed.

(** Resuming the task at position [j] of a pool: what the tasks of the
    new pool do through later events [evs'], the tasks of the old pool
    do through the events of the step followed by [evs']. *)
Lemma resumed_pool pool j task c c' evs0 evs' :
  NoDup pool.*1 →
  pool !! j = Some (task, c) →
  Forall (λ ev, ev_task ev = Some task) evs0 →
  after c (proj task evs0) = Some c' →
  ∀ i tc', <[j:=(task, c')]> pool !! i = Some tc' →
    ∃ tc, pool !! i = Some tc ∧
          ∀ c_end, after tc'.2 (proj tc'.1 evs') = Some c_end →
                   after tc.2 (proj tc.1 (evs0 ++ evs')) = Some c_end.
Proof.
  intros Hnd Hj Hevs0 Hafter0 i tc' Hi.
  destruct (decide (i = j)) as [->|Hne].
  - rewrite list_lookup_insert_eq in Hi by (by eapply lookup_lt_Some).
    injection Hi as <-. exists (task, c). split; [done|]. simpl.
    intros c_end Hend. rewrite proj_app.
    by rewrite (after_app _ _ _ _ Hafter0).
  - rewrite list_lookup_insert_ne in Hi by done.
    exists tc'. split; [done|]. intros c_end Hend.
    rewrite (proj_app_other task); [done..|].
    destruct tc' as [t c2]. simpl. intros ->.
    by apply Hne, (pool_lookup_inj pool i j task c2 c).
Qed.

(** A coroutine that has returned or raised does nothing more. *)
Lemma after_not_suspended c tr c' :
  suspended c = false → after c tr = Some c' → tr = [] ∧ c' = c.
Proof.
  intros Hc. destruct tr as [|[m u r|s] tr]; simpl.
  - by intros [= <-].
  - by destruct c.
  - by destruct c.
Qed.

Lemma resumed_in_progress pool j task c c' evs0 evs' :
  NoDup pool.*1 →
  pool !! j = Some (task, c) →
  Forall (λ ev, ev_task ev = Some task) evs0 →
  after c (proj task evs0) = Some c' →
  in_progress (<[j:=(task, c')]> pool) evs' →
  in_progress pool (evs0 ++ evs').
Proof.
  intros Hnd Hj Hevs0 Hafter0 Hprog.
  pose proof (resumed_pool pool j task c c' evs0 evs' Hnd Hj Hevs0 Hafter0)
    as Hres.
  intros tc Hin. apply list_elem_of_lookup in Hin as [i Hi].
  destruct (lookup_lt_is_Some_2 (<[j:=(task, c')]> pool) i) as [tc' Hi'].
  { rewrite length_insert. by eapply lookup_lt_Some. }
  destruct (Hres i tc' Hi') as (tc2 & Hi2 & Hend).
  rewrite Hi in Hi2. injection Hi2 as <-.
  destruct (Hprog tc') as [c_end Hc_end]; [by eapply list_elem_of_lookup_2|].
  exists c_end. by apply Hend.
Qed.

(** The tasks that go on after one of them has raised: the history
    grows by events of the tasks of the pool, through which each task
    proceeds along one of the ways of its coroutine. *)
Lemma linger_spec sched : ∀ pool h,
  NoDup pool.*1 →
  ∃ evs, linger net sched pool h = h ++ evs ∧
         pool_events pool evs ∧ in_progress pool evs.
Proof.
  assert (Hstay : ∀ pool h, ∃ evs,
            h = h ++ evs ∧ pool_events pool evs ∧ in_progress pool evs).
  { intros pool h. exists []. rewrite app_nil_r. split; [done|].
    split; [by constructor|]. by intros tc _. }
  induction sched as [|n sched IH]; intros pool h Hnd; simpl; [done|].
  destruct (ready pool !! _) as [j|]; [|done].
  destruct (pool !! j) as [[task c]|] eqn:Hj; [|done].
  destruct (step net task c h) as [c' h1] eqn:Hstep.
  apply step_after in Hstep as (evs0 & -> & Hevs0 & Hafter0).
  assert (Hin : (task, c) ∈ pool) by (by eapply list_elem_of_lookup_2).
  assert (Hids : (<[j:=(task, c')]> pool).*1 = pool.*1).
  { rewrite list_fmap_insert. apply list_insert_id.
    by rewrite list_lookup_fmap, Hj. }
  destruct (IH (<[j:=(task, c')]> pool) (h ++ evs0))
    as (evs' & -> & Hevs' & Hprog); [by rewrite Hids|].
  exists (evs0 ++ evs'). split; [by rewrite app_assoc|]. split.
  - apply Forall_app. split; [by apply (task_events_pool _ task c)|].
    unfold pool_events in *. by rewrite Hids in Hevs'.
  - by eapply resumed_in_progress.
Qed.

Lemma gather_loop_spec sched : ∀ pool h o h',
  NoDup pool.*1 →
  gather_loop net sched pool h = (o, h') →
  ∃ evs, h' = h ++ evs ∧ pool_events pool evs ∧ pool_outcome pool evs o.
Proof.
  induction sched as [|n sched IH]; intros pool h o h' Hnd; simpl.
  { by apply run_all_spec. }
  destruct (ready pool !! _) as [j|]; [|by apply run_all_spec].
  destruct (pool !! j) as [[task c]|] eqn:Hj; [|by apply run_all_spec].
  destruct (step net task c h) as [c' h1] eqn:Hstep.
  apply step_after in Hstep as (evs0 & -> & Hevs0 & Hafter0).
  assert (Hin : (task, c) ∈ pool) by (by eapply list_elem_of_lookup_2).
  assert (Hids : (<[j:=(task, c')]> pool).*1 = pool.*1).
  { rewrite list_fmap_insert. apply list_insert_id.
    by rewrite list_lookup_fmap, Hj. }
  assert (Hrec :
    gather_loop net sched (<[j:=(task, c')]> pool) (h ++ evs0) = (o, h') →
    ∃ evs, h' = h ++ evs ∧ pool_events pool evs ∧ pool_outcome pool evs o).
  { intros Hloop. apply IH in Hloop as (evs' & -> & Hevs' & Hout);
      [|by rewrite Hids].
    exists (evs0 ++ evs'). split; [by rewrite app_assoc|]. split.
    { apply Forall_app. split; [by apply (task_events_pool _ task c)|].
      unfold pool_events in *. by rewrite Hids in Hevs'. }
    pose proof (resumed_pool pool j task c c' evs0 evs' Hnd Hj Hevs0 Hafter0)
      as Hres.
    destruct o as [results|e]; simpl in *.
    - apply Forall2_same_length_lookup in Hout as [Hlen Hout].
      rewrite length_insert in Hlen.
      apply Forall2_same_length_lookup. split; [done|].
      intros i tc a Hi Ha.
      destruct (lookup_lt_is_Some_2 (<[j:=(task, c')]> pool) i) as [tc' Hi'].
      { rewrite length_insert. by eapply lookup_lt_Some. }
      destruct (Hres i tc' Hi') as (tc2 & Hi2 & Hend).
      rewrite Hi in Hi2. injection Hi2 as <-. apply Hend. by eapply Hout.
    - destruct Hout as (tc' & Hin' & Hraise).
      apply list_elem_of_lookup in Hin' as [i Hi'].
      destruct (Hres i tc' Hi') as (tc & Hi & Hend).
      exists tc. split; [by eapply list_elem_of_lookup_2|]. by apply Hend. }
  destruct c' as [a|e|m u k|s k]; try exact Hrec.
  destruct (linger_spec sched (<[j:=(task, Raise e)]> pool) (h ++ evs0))
    as (evs' & Hlinger & Hevs' & Hprog); [by rewrite Hids|].
  rewrite Hlinger. intros [= <- <-].
  exists (evs0 ++ evs'). split; [by rewrite app_assoc|]. split.
  { apply Forall_app. split; [by apply (task_events_pool _ task c)|].
    unfold pool_events in *. by rewrite Hids in Hevs'. }
  exists (task, c). split; [done|]. simpl.
  destruct (Hprog (task, Raise e)) as [c_end Hend].
  { apply (list_elem_of_lookup_2 _ j).
    apply list_lookup_insert_eq. by eapply lookup_lt_Some. }
  apply after_not_suspended in Hend as [Hnil _]; [|done]. simpl in Hnil.
  by rewrite proj_app, Hnil, app_nil_r.
Qed.

Lemma first_raised_Some pool e :
  first_raised pool = Some e → ∃ task, (task, Raise e) ∈ pool.
Proof.
  induction pool as [|[task c] pool IH]; [done|]. simpl.
  destruct c as [a|e'|m u k|s k].
  - intros He. destruct (IH He) as [t Ht]. exists t. by right.
  - intros [= ->]. exists task. left.
  - intros He. destruct (IH He) as [t Ht]. exists t. by right.
  - intros He. destruct (IH He) as [t Ht]. exists t. by right.
Qed.

(** Waiting for a pool of tasks: the history grows by events of these
    tasks only, through which each task proceeds to the result listed
    at its position, or one of them to the exception raised. *)
Lemma gather_spec sched pool h o h' :
  NoDup pool.*1 →
  gather net sched pool h = (o, h') →
  ∃ evs, h' = h ++ evs ∧ pool_events pool evs ∧ pool_outcome pool evs o.
Proof.
  intros Hnd. unfold gather.
  destruct (first_raised pool) as [e|] eqn:He; [|by apply gather_loop_spec].
  intros [= <- <-]. exists []. rewrite app_nil_r. split; [done|].
  split; [by constructor|].
  apply first_raised_Some in He as [task Hin]. by exists (task, Raise e).
Qed.

End Gather.

(** ** The scan scheduler: [scan] *)
Section Scheduler.

Context `{Library} (config : ScanConfig) (net : network)
  (sched : nat → list nat).

Lemma collect_spec results : ∀ self h,
  collect results self h =
  ({| self_components := self_components self ++ omap id results;
      self_start_time := self_start_time self |},
   h ++ replicate (length results) Ev_advance).
Proof.
  induction results as [|r results IH]; intros self h; simpl.
  - rewrite !app_nil_r. by destruct self.
  - rewrite IH. destruct r as [c|]; simpl.
    + by rewrite <- !app_assoc.
    + by rewrite <- !app_assoc.
Qed.

Lemma chunk_tasks_lookup i chunk j :
  chunk_tasks config i chunk !! j
  = (λ comp, ((Z.to_nat i + j)%nat, check_component config comp))
      <$> chunk !! j.
Proof. unfold chunk_tasks. by rewrite list_lookup_imap. Qed.

Lemma chunk_tasks_ids i chunk :
  (chunk_tasks config i chunk).*1 = seq (Z.to_nat i) (length chunk).
Proof.
  apply list_eq. intros j.
  rewrite list_lookup_fmap, chunk_tasks_lookup.
  destruct (chunk !! j) as [comp|] eqn:Hj; simpl.
  - apply lookup_lt_Some in Hj. by rewrite lookup_seq_lt.
  - apply lookup_ge_None in Hj. by rewrite lookup_seq_ge.
Qed.

Lemma chunk_tasks_events i chunk evs :
  pool_events (chunk_tasks config i chunk) evs →
  batch_only (Z.to_nat i) chunk evs.
Proof.
  intros Hevs. eapply Forall_impl; [exact Hevs|]. simpl.
  intros ev (t & Ht & Hin). exists t. split; [done|].
  rewrite chunk_tasks_ids in Hin. by apply elem_of_seq in Hin.
Qed.

Lemma chunk_tasks_joined i chunk evs results :
  pool_events (chunk_tasks config i chunk) evs →
  pool_outcome (chunk_tasks config i chunk) evs (Ok results) →
  batch_joined config
    {| batch_start := Z.to_nat i; batch_chunk := chunk;
       batch_events := evs; batch_results := results |}.
Proof.
  intros Hevs Hout. simpl in Hout. split; [by apply chunk_tasks_events|].
  simpl. pose proof (Forall2_length _ _ _ Hout) as Hlen.
  unfold chunk_tasks in Hlen. rewrite length_imap in Hlen.
  split; [done|]. intros j comp Hj.
  destruct (Forall2_lookup_l _ _ _ j
              (Z.to_nat i + j, check_component config comp)%nat Hout)
    as (r & Hr & Hafter).
  { by rewrite chunk_tasks_lookup, Hj. }
  by exists r.
Qed.

Lemma chunk_tasks_aborted i chunk evs e :
  pool_events (chunk_tasks config i chunk) evs →
  pool_outcome (chunk_tasks config i chunk) evs (Raised e) →
  batch_aborted config (Z.to_nat i) chunk evs e.
Proof.
  intros Hevs (tc & Hin & Hafter). split; [by apply chunk_tasks_events|].
  apply list_elem_of_lookup in Hin as [j Hj].
  rewrite chunk_tasks_lookup in Hj.
  destruct (chunk !! j) as [comp|] eqn:Hc; [|done].
  injection Hj as <-. by exists j, comp.
Qed.

(** The loop over the batches: the batches joined so far, in order,
    each followed by its progress increments; then either the end of
    the range, or a batch cut short by the exception that [gather]
    passes on. *)
Lemma scan_loop_spec db chunk_size starts : ∀ b self h o self' h',
  scan_loop config net sched b db chunk_size starts self h = (o, self', h') →
  ∃ runs tail,
    h' = h ++ mjoin (batch_history <$> runs) ++ tail ∧
    self_components self'
    = self_components self ++ omap id (mjoin (batch_results <$> runs)) ∧
    self_start_time self' = self_start_time self ∧
    Forall (batch_joined config) runs ∧
    Forall2 (λ i r, batch_start r = Z.to_nat i
                    ∧ batch_chunk r = py_slice db i (i + chunk_size))
      (take (length runs) starts) runs ∧
    match o with
    | Ok _ => length runs = length starts ∧ tail = []
    | Raised e =>
        ∃ i, starts !! length runs = Some i
             ∧ batch_aborted config (Z.to_nat i)
                 (py_slice db i (i + chunk_size)) tail e
    end.
Proof.
  induction starts as [|i starts IH]; intros b self h o self' h'; simpl.
  - intros [= <- <- <-]. exists [], []. simpl. rewrite !app_nil_r.
    split; [done|]. split; [done|]. split; [done|].
    split; [by constructor|]. split; [by constructor|done].
  - set (chunk := py_slice db i (i + chunk_size)).
    destruct (gather net (sched b) (chunk_tasks config i chunk) h)
      as [[results|e] h1] eqn:Hgather.
    + apply gather_spec in Hgather as (evs & -> & Hevs & Hout);
        [|rewrite chunk_tasks_ids; apply NoDup_seq].
      rewrite collect_spec.
      intros Hloop. apply IH in Hloop
        as (runs & tail & -> & Hcomps & Htime & Hjoined & Hstarts & Ho).
      exists ({| batch_start := Z.to_nat i; batch_chunk := chunk;
                 batch_events := evs; batch_results := results |} :: runs),
             tail.
      pose proof (chunk_tasks_joined _ _ _ _ Hevs Hout) as Hjoin.
      destruct Hjoin as (Honly & Hlen & Hres). simpl in Hlen.
      split.
      { rewrite fmap_cons. unfold batch_history.
        cbn [batch_events batch_chunk mjoin list_join].
        rewrite Hlen. by rewrite <- !app_assoc. }
      split.
      { rewrite Hcomps, fmap_cons.
        cbn [self_components batch_results mjoin list_join].
        by rewrite omap_app, app_assoc. }
      split; [done|].
      split; [constructor; [by split|done]|].
      split; [simpl; constructor; [done|done]|].
      destruct o as [[]|e]; simpl.
      * destruct Ho as [-> ->]. done.
      * done.
    + apply gather_spec in Hgather as (evs & -> & Hevs & Hout);
        [|rewrite chunk_tasks_ids; apply NoDup_seq].
      intros [= <- <- <-]. exists [], evs. simpl.
      split; [done|]. split; [by rewrite app_nil_r|]. split; [done|].
      split; [by constructor|]. split; [by constructor|].
      exists i. split; [done|]. by apply chunk_tasks_aborted.
Qed.

(** The range of line 242 for a positive chunk size. *)
Lemma py_range_chunks stop step :
  0 < step →
  py_range 0 stop step
  = Ok ((λ k : nat, Z.of_nat k * step)
          <$> seq 0 (Z.to_nat ((stop + step - 1) `div` step))).
Proof.
  intros Hstep. unfold py_range.
  rewrite decide_False by lia. rewrite decide_True by done.
  f_equal. replace (stop - 0 + step - 1) with (stop + step - 1) by lia.
  apply list_fmap_ext. intros _ k _. lia.
Qed.

Lemma range_covers (L t : Z) (k : nat) :
  0 ≤ L → 1 ≤ t →
  ((k < Z.to_nat ((L + t - 1) `div` t))%nat ↔ Z.of_nat k * t < L).
Proof.
  intros HL Ht.
  pose proof (Z.mul_div_le (L + t - 1) t ltac:(lia)) as Hle.
  pose proof (Z.mul_succ_div_gt (L + t - 1) t ltac:(lia)) as Hgt.
  assert (0 ≤ (L + t - 1) `div` t) by (apply Z.div_pos; lia).
  split; intros Hk; nia.
Qed.

(** The batches of a scan: those joined, in order and each followed by
    its progress increments, are the consecutive chunks of the
    database; the scan ends when they cover the database, or with the
    exception that cut the next batch short. *)
Lemma scan_spec fs now self h o self' h' :
  1 ≤ threads config →
  scan config net sched fs now self h = (o, self', h') →
  let db := load_components_db fs in
  let n := Z.to_nat (threads config) in
  ∃ runs tail,
    h' = h ++ [Ev_add_task (len db)]
           ++ mjoin (batch_history <$> runs) ++ tail ∧
    self_components self'
    = self_components self ++ omap id (mjoin (batch_results <$> runs)) ∧
    self_start_time self' = Some now ∧
    Forall (batch_joined config) runs ∧
    (∀ k b, runs !! k = Some b →
            batch_start b = (k * n)%nat
            ∧ batch_chunk b = take n (drop (k * n) db)
            ∧ (k * n < length db)%nat) ∧
    match o with
    | Ok _ => tail = [] ∧ (length db ≤ length runs * n)%nat
    | Raised e =>
        (length runs * n < length db)%nat
        ∧ batch_aborted config (length runs * n)
            (take n (drop (length runs * n) db)) tail e
    end.
Proof.
  intros Ht. unfold scan. rewrite py_range_chunks by lia.
  set (db := load_components_db fs). set (n := Z.to_nat (threads config)).
  set (N := Z.to_nat ((len db + threads config - 1) `div` threads config)).
  intros Hloop. apply scan_loop_spec in Hloop
    as (runs & tail & -> & Hcomps & Htime & Hjoined & Hstarts & Ho).
  assert (Hstart : ∀ k i,
    ((λ k : nat, Z.of_nat k * threads config) <$> seq 0 N) !! k = Some i →
    Z.to_nat i = (k * n)%nat
    ∧ py_slice db i (i + threads config) = take n (drop (k * n) db)
    ∧ (k * n < length db)%nat).
  { intros k i Hk. rewrite list_lookup_fmap in Hk.
    destruct (seq 0 N !! k) as [k'|] eqn:Hseq; [|done].
    apply lookup_seq in Hseq as [-> Hlt]. injection Hk as <-. simpl.
    assert (Z.to_nat (Z.of_nat k * threads config) = (k * n)%nat) as Hi.
    { unfold n. rewrite Z2Nat.inj_mul by lia. by rewrite Nat2Z.id. }
    split; [done|]. split.
    - unfold py_slice. rewrite Hi. do 2 f_equal. unfold n. lia.
    - apply (range_covers (len db) (threads config) k) in Hlt;
        unfold len in *; [|lia..].
      unfold n. nia. }
  exists runs, tail. simpl in Hcomps, Htime.
  split; [by rewrite <- !app_assoc|]. split; [done|]. split; [done|].
  split; [done|]. split.
  - intros k b Hb.
    destruct (Forall2_lookup_r _ _ _ k b Hstarts Hb) as (i & Hi & Hs & Hc).
    apply lookup_take_Some in Hi as [Hi _].
    destruct (Hstart k i Hi) as (H1 & H2 & H3).
    by rewrite Hs, Hc, H1, H2.
  - destruct o as [[]|e].
    + destruct Ho as [Hlen ->]. split; [done|].
      rewrite length_fmap, length_seq in Hlen. rewrite Hlen.
      destruct (decide (length db ≤ N * n)%nat) as [|Hgt]; [done|].
      exfalso.
      assert (N < N)%nat; [|lia].
      apply (range_covers (len db) (threads config) N);
        unfold len, n in *; [lia..|nia].
    + destruct Ho as (i & Hi & Habort).
      destruct (Hstart _ i Hi) as (H1 & H2 & H3).
      rewrite H1, H2 in Habort. done.
Qed.

End Scheduler.

(** ** The layout of the history of a scan *)
Section Layout.

Context `{Library} (config : ScanConfig).
Context (db : list string) (n : nat) (runs : list batch_run).
Hypothesis Hn : (0 < n)%nat.
Hypothesis Hjoined : Forall (batch_joined config) runs.
Hypothesis Hlayout : ∀ k b,
  runs !! k = Some b →
  batch_start b = (k * n)%nat
  ∧ batch_chunk b = take n (drop (k * n) db)
  ∧ (k * n < length db)%nat.

Lemma run_chunk_length k b :
  runs !! k = Some b →
  (0 < length (batch_chunk b) ≤ n)%nat
  ∧ ((k * n + n ≤ length db)%nat → length (batch_chunk b) = n).
Proof.
  intros Hb. destruct (Hlayout k b Hb) as (_ & -> & Hlt).
  rewrite length_take, length_drop. lia.
Qed.

Lemma run_events k b ev t :
  runs !! k = Some b → ev ∈ batch_history b → ev_task ev = Some t →
  ev ∈ batch_events b ∧ (k * n ≤ t < k * n + n)%nat.
Proof.
  intros Hb Hev Ht. unfold batch_history in Hev.
  apply elem_of_app in Hev as [Hev|Hev].
  - split; [done|].
    pose proof (Forall_lookup_1 _ _ _ _ Hjoined Hb) as (Honly & _).
    pose proof (proj1 (Forall_forall _ _) Honly ev Hev) as (t' & Ht' & Hr).
    rewrite Ht in Ht'. injection Ht' as <-.
    destruct (Hlayout k b Hb) as (Hs & _ & _).
    pose proof (run_chunk_length k b Hb). lia.
  - apply elem_of_replicate_inv in Hev as ->. done.
Qed.

(** The batches before the [k]-th involve candidates below [k * n]. *)
Lemma history_before k ev t :
  ev ∈ mjoin (batch_history <$> take k runs) → ev_task ev = Some t →
  (t < k * n)%nat.
Proof.
  intros Hev Ht. apply list_elem_of_join in Hev as (l & Hev & Hl).
  apply list_elem_of_fmap in Hl as (b & -> & Hb).
  apply elem_of_take in Hb as (k' & Hb & Hlt).
  pose proof (run_events k' b ev t Hb Hev Ht) as [_ Hr]. nia.
Qed.

(** The batches from the [k]-th on involve candidates from [k * n]. *)
Lemma history_after k ev t :
  ev ∈ mjoin (batch_history <$> drop k runs) → ev_task ev = Some t →
  (k * n ≤ t)%nat.
Proof.
  intros Hev Ht. apply list_elem_of_join in Hev as (l & Hev & Hl).
  apply list_elem_of_fmap in Hl as (b & -> & Hb).
  apply list_elem_of_lookup in Hb as (i & Hb). rewrite lookup_drop in Hb.
  pose proof (run_events _ b ev t Hb Hev Ht) as [_ Hr]. nia.
Qed.

Lemma history_split k b :
  runs !! k = Some b →
  mjoin (batch_history <$> runs)
  = mjoin (batch_history <$> take k runs)
    ++ batch_history b ++ mjoin (batch_history <$> drop (S k) runs).
Proof.
  intros Hb. rewrite <- (take_drop_middle runs k b Hb) at 1.
  by rewrite fmap_app, join_app, fmap_cons.
Qed.

(** The chunks of the first [k] batches are the first [k * n]
    candidates. *)
Lemma chunks_take k :
  (k ≤ length runs)%nat →
  mjoin (batch_chunk <$> take k runs) = take (k * n) db.
Proof.
  induction k as [|k IH]; intros Hk; [done|].
  destruct (lookup_lt_is_Some_2 runs k) as [b Hb]; [lia|].
  rewrite (take_S_r _ _ _ Hb), fmap_app, join_app, IH by lia.
  simpl. rewrite app_nil_r.
  destruct (Hlayout k b Hb) as (_ & -> & _).
  rewrite take_take_drop. f_equal. lia.
Qed.

Lemma advances_app evs1 evs2 :
  advances (evs1 ++ evs2) = (advances evs1 + advances evs2)%nat.
Proof. unfold advances. by rewrite filter_app, length_app. Qed.

Lemma advances_replicate m : advances (replicate m Ev_advance) = m.
Proof.
  unfold advances. induction m as [|m IH]; simpl; auto.
Qed.

Lemma advances_tasks evs :
  Forall (λ ev, is_Some (ev_task ev)) evs → advances evs = 0%nat.
Proof.
  unfold advances. induction 1 as [|ev evs Hev _ IH]; [done|].
  rewrite filter_cons_False; [done|].
  destruct ev; simpl; try done. by destruct Hev.
Qed.

Lemma run_advances k b :
  runs !! k = Some b →
  advances (batch_history b) = length (batch_chunk b).
Proof.
  intros Hb. unfold batch_history.
  rewrite advances_app, advances_replicate, advances_tasks; [done|].
  pose proof (Forall_lookup_1 _ _ _ _ Hjoined Hb) as (Honly & _).
  eapply Forall_impl; [exact Honly|]. intros ev (t & -> & _). eauto.
Qed.

(** The first [k] batches emit one increment for each of the first
    [k * n] candidates. *)
Lemma advances_take k :
  (k ≤ length runs)%nat →
  advances (mjoin (batch_history <$> take k runs))
  = length (take (k * n) db).
Proof.
  induction k as [|k IH]; intros Hk; [done|].
  destruct (lookup_lt_is_Some_2 runs k) as [b Hb]; [lia|].
  rewrite (take_S_r _ _ _ Hb), fmap_app, join_app, advances_app, IH by lia.
  simpl. rewrite app_nil_r, (run_advances k b Hb).
  destruct (Hlayout k b Hb) as (_ & -> & _).
  rewrite <- length_app, take_take_drop. do 2 f_equal. lia.
Qed.

(** The candidate at position [j] belongs to the batch [j / n], at
    position [j mod n]. *)
Lemma candidate_batch j b :
  runs !! (j / n)%nat = Some b →
  batch_chunk b !! (j mod n)%nat = db !! j
  ∧ (batch_start b + j mod n)%nat = j.
Proof.
  intros Hb. destruct (Hlayout _ b Hb) as (-> & -> & _).
  pose proof (Nat.div_mod_eq j n) as Hj.
  pose proof (Nat.mod_upper_bound j n ltac:(lia)) as Hm.
  rewrite lookup_take, decide_True by done. rewrite lookup_drop.
  clear Hb. revert Hj Hm.
  generalize (j / n)%nat (j mod n)%nat. intros q r Hj Hm.
  split; [f_equal; lia|lia].
Qed.

(** What the task of candidate [j] does in the whole scan, it does in
    the events of its batch. *)
Lemma proj_candidate j b :
  runs !! (j / n)%nat = Some b →
  proj j (mjoin (batch_history <$> runs)) = proj j (batch_events b).
Proof.
  intros Hb. rewrite (history_split _ b Hb).
  pose proof (Nat.div_mod_eq j n) as Hj.
  pose proof (Nat.mod_upper_bound j n ltac:(lia)) as Hm.
  unfold batch_history at 2. rewrite !proj_app.
  rewrite (proj_other j (mjoin (batch_history <$> take _ runs))).
  2:{ apply Forall_forall. intros ev Hev Ht.
      pose proof (history_before _ ev j Hev Ht). nia. }
  rewrite (proj_other j (replicate _ _)).
  2:{ apply Forall_forall. intros ev Hev.
      by apply elem_of_replicate_inv in Hev as ->. }
  rewrite (proj_other j (mjoin (batch_history <$> drop _ runs))).
  2:{ apply Forall_forall. intros ev Hev Ht.
      pose proof (history_after _ ev j Hev Ht). nia. }
  by rewrite !app_nil_r.
Qed.

(** Every candidate of a batch that was joined has been processed from
    the start of [check_component] to a result, exactly once. *)
Lemma candidate_processed j comp :
  db !! j = Some comp → (j / n < length runs)%nat →
  ∃ b r, runs !! (j / n)%nat = Some b ∧
         batch_results b !! (j mod n)%nat = Some r ∧
         after (check_component config comp)
           (proj j (mjoin (batch_history <$> runs)))
         = Some (Return r).
Proof.
  intros Hj Hk. destruct (lookup_lt_is_Some_2 runs _ Hk) as [b Hb].
  destruct (candidate_batch j b Hb) as [Hc Hs]. rewrite Hj in Hc.
  pose proof (Forall_lookup_1 _ _ _ _ Hjoined Hb) as (_ & _ & Hres).
  destruct (Hres _ _ Hc) as (r & Hr & Hafter).
  exists b, r. rewrite Hs in Hafter. by rewrite (proj_candidate j b Hb).
Qed.

End Layout.

(** ** What the coroutines can return and raise *)
Section Leaves.

Context `{Library} (config : ScanConfig).

Lemma returns_mono {A} (c : coro A) (P Q : A → Prop) :
  (∀ a, P a → Q a) → returns c P → returns c Q.
Proof.
  intros HPQ. induction c as [a|e|m u k IH|s k IH]; simpl; auto.
Qed.

Lemma returns_bind {A B} (c : coro A) (f : A → coro B) (P : B → Prop) :
  (∀ a, returns (f a) P) → returns (c ≫= f) P.
Proof.
  intros Hf. induction c as [a|e|m u k IH|s k IH]; simpl; auto.
Qed.



(** Where a coroutine ends after some events, it ends in one of its
    leaves. *)
Lemma after_returns {A} (c : coro A) (P : A → Prop) tr a :
  returns c P → after c tr = Some (Return a) → P a.
Proof.
  revert c. induction tr as [|[m u r|s] tr IH]; intros c Hc; simpl.
  - intros [= ->]. done.
  - destruct c as [| |m' u' k|]; try done.
    destruct (decide (m = m' ∧ u = u')); [|done]. apply IH, Hc.
  - destruct c as [| | |s' k]; try done.
    destruct (decide (s = s')); [|done]. apply IH, Hc.
Qed.


(** A component that is returned carries the name of its candidate and
    at least one path. *)
Lemma check_component_returns component :
  returns (check_component config component)
    (λ r, ∀ c, r = Some c → name c = component ∧ paths c ≠ ∅).
Proof.
  unfold check_component. apply returns_bind. intros st.
  destruct (decide (found_paths st = ∅)); simpl; [done|].
  by intros c [= <-].
Qed.






End Leaves.

(** ** Scans that come to their end *)
Section Guarded.

Context `{Library} (config : ScanConfig) (net : network).
Hypothesis Hnet : transport_failures_only net.

Lemma guarded_bind {A B} (c : coro A) (f : A → coro B) :
  guarded c → (∀ a, guarded (f a)) → guarded (c ≫= f).
Proof.
  intros Hc Hf. induction c as [a|e|m u k IH|s k IH]; simpl in *; auto.
Qed.

Lemma guarded_try_except {A} (c handler : coro A) :
  guarded handler → guarded (try_except c handler).
Proof.
  intros Hh. induction c as [a|e|m u k IH|s k IH]; simpl; auto.
Qed.

Lemma check_url_guarded u : ∀ (n : nat) retry_count,
  n = Z.to_nat (max_retries config - retry_count) →
  guarded (check_url config u retry_count).
Proof.
  intros n. induction n as [|n IH]; intros rc Hn;
    rewrite check_url_equation_1; simpl; intros [resp|[|cls]] Hr; simpl;
    try done.
  - destruct (Z_lt_dec rc (max_retries config)); [lia|done].
  - by destruct (Hr cls).
  - destruct (Z_lt_dec rc (max_retries config)); [|done].
    simpl. apply IH. lia.
  - by destruct (Hr cls).
Qed.

Lemma any_file_200_guarded u files : guarded (any_file_200 config u files).
Proof.
  induction files as [|path files IH]; simpl; [done|].
  apply guarded_bind; [by eapply check_url_guarded|].
  intros status. by destruct (decide (status = Some 200)).
Qed.

Lemma check_component_guarded component :
  guarded (check_component config component).
Proof.
  assert (Hpath : ∀ st path, guarded (check_path config st path)).
  { intros st path. unfold check_path.
    apply guarded_bind; [by eapply check_url_guarded|]. intros status.
    destruct (decide (status = Some 200)); [|done].
    unfold found_path.
    apply guarded_bind; [by apply guarded_try_except|]. intros listing.
    apply guarded_bind; [apply any_file_200_guarded|]. intros readme.
    apply guarded_bind; [apply any_file_200_guarded|]. intros manifest.
    apply guarded_bind; [by apply guarded_try_except|]. intros v.
    apply guarded_bind; [by apply guarded_try_except|]. intros lm.
    done. }
  unfold check_component. apply guarded_bind.
  - generalize locals_init.
    induction (component_paths component) as [|path ps IH]; intros st;
      simpl; [done|].
    apply guarded_bind; [apply Hpath|]. apply IH.
  - intros st. by destruct (decide (found_paths st = ∅)).
Qed.

(** On such a network a guarded coroutine returns. *)
Lemma guarded_run {A} task (c : coro A) : ∀ h,
  guarded c → ∃ a h', run net task c h = (Ok a, h').
Proof.
  induction c as [a|e|m u k IH|s k IH]; intros h Hc; simpl in *.
  - by exists a, h.
  - done.
  - apply IH, Hc, Hnet.
  - by apply IH.
Qed.

Lemma step_guarded {A} task (c c' : coro A) h h' :
  guarded c → step net task c h = (c', h') → guarded c'.
Proof.
  destruct c as [a|e|m u k|s k]; simpl; intros Hc [= <- <-]; try done.
  apply Hc, Hnet.
Qed.

Lemma run_all_guarded {A} (pool : list (nat * coro A)) : ∀ h,
  Forall (λ tc, guarded tc.2) pool →
  ∃ results h', run_all net pool h = (Ok results, h').
Proof.
  induction pool as [|[task c] pool IH]; intros h Hpool; simpl.
  - by exists [], h.
  - apply Forall_cons in Hpool as [Hc Hpool]. simpl in Hc.
    destruct (guarded_run task c h Hc) as (a & h1 & ->).
    destruct (IH h1 Hpool) as (results & h2 & ->).
    by exists (a :: results), h2.
Qed.

Lemma gather_loop_guarded {A} sched : ∀ (pool : list (nat * coro A)) h,
  Forall (λ tc, guarded tc.2) pool →
  ∃ results h', gather_loop net sched pool h = (Ok results, h').
Proof.
  induction sched as [|n sched IH]; intros pool h Hpool; simpl.
  { by apply run_all_guarded. }
  destruct (ready pool !! _) as [j|]; [|by apply run_all_guarded].
  destruct (pool !! j) as [[task c]|] eqn:Hj; [|by apply run_all_guarded].
  destruct (step net task c h) as [c' h1] eqn:Hstep.
  assert (guarded c') as Hc'.
  { eapply step_guarded; [|exact Hstep].
    by apply (Forall_lookup_1 _ _ _ _ Hpool Hj). }
  assert (Forall (λ tc, guarded tc.2) (<[j:=(task, c')]> pool)) as Hpool'.
  { by apply Forall_insert. }
  destruct c' as [a|e|m u k|s k]; try (by apply IH). done.
Qed.

Lemma gather_guarded {A} sched (pool : list (nat * coro A)) h :
  Forall (λ tc, guarded tc.2) pool →
  ∃ results h', gather net sched pool h = (Ok results, h').
Proof.
  intros Hpool. unfold gather.
  replace (first_raised pool) with (@None exn);
    [by apply gather_loop_guarded|].
  induction Hpool as [|[task c] pool Hc _ IH]; [done|]. simpl.
  by destruct c.
Qed.

Lemma scan_loop_guarded sched db chunk_size starts : ∀ b self h,
  ∃ self' h',
    scan_loop config net sched b db chunk_size starts self h
    = (Ok (), self', h').
Proof.
  induction starts as [|i starts IH]; intros b self h; simpl.
  - by exists self, h.
  - destruct (gather_guarded (sched b)
                (chunk_tasks config i (py_slice db i (i + chunk_size))) h)
      as (results & h1 & ->).
    { apply Forall_forall. intros [task c] Hin.
      apply list_elem_of_lookup in Hin as [j Hj].
      unfold chunk_tasks in Hj. rewrite list_lookup_imap in Hj.
      destruct (_ !! j) as [comp|]; [|done]. injection Hj as _ <-.
      apply check_component_guarded. }
    destruct (collect results self h1) as [self1 h2]. apply IH.
Qed.

(** On a network whose failures are transport failures only, a scan
    with a valid batch size comes to its end. *)
Lemma scan_completes sched fs now self h :
  threads config ≠ 0 →
  ∃ self' h', scan config net sched fs now self h = (Ok (), self', h').
Proof.
  intros Ht. unfold scan, py_range. rewrite decide_False by done.
  apply scan_loop_guarded.
Qed.

End Guarded.

(** ** What [check_component] returns *)
Section ProberClaims.

Context `{Library} (config : ScanConfig) (net : network) (task : nat).

(** C4. [check_component] returns a [Component] exactly when the probe
    of at least one of the three candidate paths answers 200; the
    component then carries the candidate's name and the paths found,
    which are not empty. When each of the three probes answers
    something else, the call returns [None]. On a network whose failures
    are transport failures only, the call always returns. *)
Theorem check_component_found_iff component h :
  (∀ r h',
     run net task (check_component config component) h = (Ok r, h') →
     (is_Some r ↔ ∃ i, probed config net task component h i (Some 200)) ∧
     (∀ c, r = Some c →
           name c = component ∧ paths c ≠ ∅ ∧
           ∀ p, p ∈ paths c ↔
                ∃ i, component_paths component !! i = Some p
                     ∧ probed config net task component h i (Some 200))) ∧
  ((∀ i, (i < 3)%nat →
         ∃ status, probed config net task component h i status
                   ∧ status ≠ Some 200) →
   ∃ h', run net task (check_component config component) h = (Ok None, h')) ∧
  (transport_failures_only net →
   ∃ r h', run net task (check_component config component) h = (Ok r, h')).
Proof.
  split; [|split].
  - intros r h'. rewrite check_component_run.
    destruct (run net task (for_paths config _ _) h)
      as [[st|e] h1] eqn:Hloop; [|done].
    apply for_paths_spec in Hloop as [Hfound _].
    assert (Hin : ∀ p, p ∈ found_paths st ↔
              ∃ i, component_paths component !! i = Some p
                   ∧ probed config net task component h i (Some 200)).
    { intros p. rewrite Hfound. split; [|by right].
      intros [Hp|?]; [|done]. by apply not_elem_of_empty in Hp. }
    intros [= <- <-]. destruct (decide (found_paths st = ∅)) as [He|Hne].
    + split; [|done]. split; [by intros [? ?]|].
      intros (i & path & st_i & h_i & h2 & Hi & Hp).
      assert (path ∈ found_paths st) as Hpath.
      { apply Hin. exists i. split; [done|]. by exists path, st_i, h_i, h2. }
      rewrite He in Hpath. by apply not_elem_of_empty in Hpath.
    + split.
      * split; [|by eauto]. intros _.
        apply set_choose_L in Hne as [p Hp]. apply Hin in Hp as (i & _ & Hp).
        by exists i.
      * intros c [= <-]. simpl. done.
  - intros Hall.
    destruct (for_paths_none_found config net task
                (component_paths component) locals_init h)
      as [h' Hloop]; [done|].
    exists h'. by rewrite check_component_run, Hloop.
  - intros Hnet. apply (guarded_run net Hnet).
    apply check_component_guarded.
Qed.

(** C9. The version and the last-modified date of a [Component] are
    those that lines 177 and 178 extracted in the iteration of the last
    path found, in the order front-end, administrator, query string:
    whatever an earlier found path gave has been overwritten. *)
Theorem check_component_last_found_path_wins component h c h' :
  run net task (check_component config component) h = (Ok (Some c), h') →
  ∃ i,
    extracted config net task component h i (version c) (last_modified c)
    ∧ ∀ j, (i < j)%nat
           → ¬ probed config net task component h j (Some 200).
Proof.
  rewrite check_component_run.
  destruct (run net task (for_paths config _ _) h)
    as [[st|e] h1] eqn:Hloop; [|done].
  apply for_paths_spec in Hloop as [Hfound Hlast].
  destruct (decide (found_paths st = ∅)) as [He|Hne]; [done|].
  intros [= <- <-]. simpl.
  destruct Hlast as [(Hnone & _)|Hlast]; [|done].
  apply set_choose_L in Hne as [p Hp].
  apply Hfound in Hp as [Hp|(i & _ & Hp)].
  - by apply not_elem_of_empty in Hp.
  - by destruct (Hnone i).
Qed.

End ProberClaims.

Lemma check_component_found_iff_witness :
  (is_Some (Some Mock.com_users)
   ↔ ∃ i, probed (H:=Mock.library) Mock.config Mock.net_site 0 "com_users" []
            i (Some 200)) ∧
  (∀ c, Some Mock.com_users = Some c →
        name c = "com_users" ∧ paths c ≠ ∅ ∧
        ∀ p, p ∈ paths c ↔
             ∃ i, component_paths "com_users" !! i = Some p
                  ∧ probed (H:=Mock.library) Mock.config Mock.net_site 0
                      "com_users" [] i (Some 200)).
Proof.
  apply (proj1 (check_component_found_iff (H:=Mock.library) Mock.config
                  Mock.net_site 0 "com_users" [])
           (Some Mock.com_users) Mock.com_users_history).
  vm_compute. reflexivity.
Defined.

Lemma check_component_last_found_path_wins_witness :
  ∃ i,
    extracted (H:=Mock.library) Mock.config Mock.net_site 0 "com_shop" [] i
      (Some "2.0") None
    ∧ ∀ j, (i < j)%nat
           → ¬ probed (H:=Mock.library) Mock.config Mock.net_site 0
                 "com_shop" [] j (Some 200).
Proof.
  apply (check_component_last_found_path_wins (H:=Mock.library) Mock.config
           Mock.net_site 0 "com_shop" [] Mock.com_shop Mock.com_shop_history).
  vm_compute. reflexivity.
Defined.


(** ** The scan as a whole *)
Section Scan.

Context `{Library} (config : ScanConfig) (net : network)
  (sched : nat → list nat).

(** C5. The scheduler cuts the candidates into consecutive batches of
    [threads] candidates, the last one possibly smaller; the batches
    run one after the other, each joined (every task of the batch run
    to its result) before the next one starts, so that every candidate
    is processed exactly once. Five candidates in batches of two make
    three batches, of sizes 2, 2 and 1 in this order. The scan comes to
    its end whenever the failures of the network are transport failures
    only. *)
Theorem scan_batches_in_sequence fs now self h :
  1 ≤ threads config →
  let db := load_components_db fs in
  let n := Z.to_nat (threads config) in
  (transport_failures_only net →
   ∃ self' h', scan config net sched fs now self h = (Ok (), self', h')) ∧
  ∀ self' h',
  scan config net sched fs now self h = (Ok (), self', h') →
  ∃ runs : list batch_run,
    mjoin (batch_chunk <$> runs) = db ∧
    (∀ k b, runs !! k = Some b →
            batch_start b = (k * n)%nat
            ∧ batch_chunk b = take n (drop (k * n) db)
            ∧ (0 < length (batch_chunk b) ≤ n)%nat
            ∧ ((S k < length runs)%nat → length (batch_chunk b) = n)) ∧
    h' = h ++ [Ev_add_task (len db)] ++ mjoin (batch_history <$> runs) ∧
    Forall (batch_joined config) runs ∧
    (∀ j comp,
       db !! j = Some comp →
       ∃ r, after (check_component config comp)
              (proj j (mjoin (batch_history <$> runs)))
            = Some (Return r)) ∧
    (length db = 5%nat → threads config = 2 →
     length <$> (batch_chunk <$> runs) = [2; 2; 1]%nat).
Proof.
  intros Ht db n. split.
  { intros Hnet. apply scan_completes; [done|lia]. }
  intros self' h' Hscan.
  destruct (scan_spec config net sched fs now self h _ _ _ Ht Hscan)
    as (runs & tail & Hh & _ & _ & Hjoined & Hlayout & -> & Hcover).
  fold db in Hh, Hlayout, Hcover. fold n in Hlayout, Hcover.
  assert (Hn : (0 < n)%nat) by (unfold n; lia).
  assert (Hsizes : ∀ k b, runs !! k = Some b →
            (0 < length (batch_chunk b) ≤ n)%nat
            ∧ ((S k < length runs)%nat → length (batch_chunk b) = n)).
  { intros k b Hb.
    destruct (run_chunk_length db n runs Hn Hlayout k b Hb) as [Hlen Hfull].
    split; [done|]. intros Hk. apply Hfull.
    destruct (lookup_lt_is_Some_2 runs (S k) Hk) as [b' Hb'].
    destruct (Hlayout _ _ Hb') as (_ & _ & Hlt). lia. }
  exists runs. split.
  { rewrite <- (take_ge runs (length runs)) at 1 by done.
    rewrite (chunks_take db n runs Hn Hlayout) by done.
    by apply take_ge. }
  split.
  { intros k b Hb. destruct (Hlayout k b Hb) as (Hs & Hc & _).
    destruct (Hsizes k b Hb). done. }
  split; [by rewrite app_nil_r in Hh|]. split; [done|]. split.
  { intros j comp Hj.
    destruct (candidate_processed config db n runs Hn Hjoined Hlayout j comp)
      as (b & r & _ & _ & Hafter); [done| |by exists r].
    apply lookup_lt_Some in Hj.
    apply Nat.Div0.div_lt_upper_bound. lia. }
  intros Hfive Htwo.
  assert (n = 2%nat) as Hn2 by (unfold n; lia).
  rewrite Hfive, Hn2 in Hcover.
  assert (length runs = 3%nat) as Hruns.
  { destruct (decide (length runs ≤ 3)%nat); [lia|].
    destruct (lookup_lt_is_Some_2 runs 3) as [b Hb]; [lia|].
    destruct (Hlayout _ _ Hb) as (_ & _ & Hlt). lia. }
  destruct runs as [|b0 [|b1 [|b2 [|]]]]; try done.
  destruct (Hlayout 0%nat b0 eq_refl) as (_ & Hc0 & _).
  destruct (Hlayout 1%nat b1 eq_refl) as (_ & Hc1 & _).
  destruct (Hlayout 2%nat b2 eq_refl) as (_ & Hc2 & _).
  cbn [fmap list_fmap]. rewrite Hc0, Hc1, Hc2.
  rewrite !length_take, !length_drop, Hfive, Hn2. done.
Qed.

End Scan.

Lemma scan_batches_in_sequence_witness :
  ∃ runs : list batch_run,
    mjoin (batch_chunk <$> runs) = Mock.five ∧
    length <$> (batch_chunk <$> runs) = [2; 2; 1]%nat ∧
    Mock.five_history
    = [Ev_add_task 5] ++ mjoin (batch_history <$> runs).
Proof.
  pose proof (scan_batches_in_sequence (H:=Mock.library) Mock.config
                Mock.net_site Mock.turns (Some Mock.five) 1000000
                Scanner_init []) as Hscan.
  destruct Hscan as [_ Hscan]; [vm_compute; discriminate|].
  destruct (Hscan Mock.five_scanner Mock.five_history)
    as (runs & Hdb & _ & Hh & _ & _ & Hsizes); [vm_compute; reflexivity|].
  exists runs. split; [exact Hdb|]. split; [|exact Hh].
  apply Hsizes; reflexivity.
Defined.

(** ** Progress reporting *)
Section Progress.

Context `{Library} (config : ScanConfig) (net : network)
  (sched : nat → list nat).

(** C7. Every candidate, found or not, gets one progress increment. The
    results of a batch are known to the scheduler when the batch is
    joined; the increment of candidate [j] comes right then, after the
    events of its batch, through which its task has returned its
    result, with nothing between but the increments of the candidates
    before it in the batch; it is the increment number [j], and every
    event of a task after it belongs to a candidate of a later
    batch. The scan comes to its end whenever the failures of the
    network are transport failures only. *)
Theorem scan_progress_increments fs now self h :
  1 ≤ threads config →
  let db := load_components_db fs in
  let n := Z.to_nat (threads config) in
  (transport_failures_only net →
   ∃ self' h', scan config net sched fs now self h = (Ok (), self', h')) ∧
  ∀ self' h',
  scan config net sched fs now self h = (Ok (), self', h') →
  ∃ new,
    h' = h ++ new ∧
    advances new = length db ∧
    ∀ j comp,
      db !! j = Some comp →
      ∃ before evs post r,
        new = before ++ evs ++ replicate (j `mod` n) Ev_advance
              ++ Ev_advance :: post ∧
        advances (before ++ evs ++ replicate (j `mod` n) Ev_advance) = j ∧
        batch_only (j `div` n * n) (take n (drop (j `div` n * n) db)) evs ∧
        proj j before = [] ∧
        after (check_component config comp) (proj j evs)
        = Some (Return r) ∧
        (∀ ev t, ev ∈ post → ev_task ev = Some t →
                 (j `div` n * n + n ≤ t)%nat).
Proof.
  intros Ht db n. split.
  { intros Hnet. apply scan_completes; [done|lia]. }
  intros self' h' Hscan.
  destruct (scan_spec config net sched fs now self h _ _ _ Ht Hscan)
    as (runs & tail & Hh & _ & _ & Hjoined & Hlayout & -> & Hcover).
  fold db in Hh, Hlayout, Hcover. fold n in Hlayout, Hcover.
  assert (Hn : (0 < n)%nat) by (unfold n; lia).
  rewrite app_nil_r in Hh.
  exists ([Ev_add_task (len db)] ++ mjoin (batch_history <$> runs)).
  split; [done|]. split.
  { rewrite advances_app.
    rewrite <- (take_ge runs (length runs)) by done.
    rewrite (advances_take config db n runs Hn Hjoined Hlayout) by done.
    rewrite take_ge by done. done. }
  intros j comp Hj.
  pose proof (lookup_lt_Some _ _ _ Hj) as Hjlt.
  pose proof (Nat.div_mod_eq j n) as Hdm.
  pose proof (Nat.mod_upper_bound j n ltac:(lia)) as Hm.
  assert (Hk : (j `div` n < length runs)%nat).
  { apply Nat.Div0.div_lt_upper_bound. lia. }
  destruct (lookup_lt_is_Some_2 runs _ Hk) as [b Hb].
  destruct (candidate_batch db n runs Hn Hlayout j b Hb) as [Hc Hs].
  rewrite Hj in Hc.
  pose proof (lookup_lt_Some _ _ _ Hc) as Hclt.
  pose proof (Forall_lookup_1 _ _ _ _ Hjoined Hb) as (Honly & _ & Hres).
  destruct (Hres _ _ Hc) as (r & _ & Hafter). rewrite Hs in Hafter.
  destruct (Hlayout _ _ Hb) as (Hstart & Hchunk & _).
  exists ([Ev_add_task (len db)]
          ++ mjoin (batch_history <$> take (j `div` n) runs)),
    (batch_events b),
    (replicate (length (batch_chunk b) - S (j `mod` n)) Ev_advance
     ++ mjoin (batch_history <$> drop (S (j `div` n)) runs)),
    r.
  split.
  { rewrite (history_split runs _ b Hb). unfold batch_history at 2.
    replace (length (batch_chunk b))
      with (j `mod` n + S (length (batch_chunk b) - S (j `mod` n)))%nat
      at 1 by lia.
    rewrite replicate_add. simpl. by rewrite <- !app_assoc. }
  split.
  { rewrite !advances_app, advances_replicate.
    rewrite (advances_take config db n runs Hn Hjoined Hlayout) by lia.
    rewrite (advances_tasks (batch_events b)).
    2:{ eapply Forall_impl; [exact Honly|]. intros ev (t & -> & _). eauto. }
    rewrite length_take. simpl.
    revert Hdm Hm Hjlt. generalize (j `div` n)%nat (j `mod` n)%nat. lia. }
  split; [by rewrite <- Hchunk, <- Hstart|].
  split.
  { apply proj_other. apply Forall_app. split; [by repeat constructor|].
    apply Forall_forall. intros ev Hev Hjt.
    pose proof (history_before config db n runs Hn Hjoined Hlayout
                  _ ev j Hev Hjt).
    revert Hdm Hm. generalize (j `div` n)%nat (j `mod` n)%nat. lia. }
  split; [done|].
  intros ev t Hev Hevt. apply elem_of_app in Hev as [Hev|Hev].
  - by apply elem_of_replicate_inv in Hev as ->.
  - pose proof (history_after config db n runs Hn Hjoined Hlayout
                  _ ev t Hev Hevt). lia.
Qed.

End Progress.

Lemma scan_progress_increments_witness :
  ∃ new, Mock.five_history = [] ++ new ∧ advances new = 5%nat.
Proof.
  pose proof (scan_progress_increments (H:=Mock.library) Mock.config
                Mock.net_site Mock.turns (Some Mock.five) 1000000
                Scanner_init []) as Hscan.
  destruct Hscan as [_ Hscan]; [vm_compute; discriminate|].
  destruct (Hscan Mock.five_scanner Mock.five_history)
    as (new & Hh & Hcount & _); [vm_compute; reflexivity|].
  exists new. split; [exact Hh|exact Hcount].
Defined.

(** ** The order of the components in the report *)
Section Order.

Context `{Library} (config : ScanConfig) (net : network)
  (sched : nat → list nat).

Lemma found_sublist (db : list string) (results : list (option Component)) :
  Forall2 (λ cand r, ∀ c, r = Some c → name c = cand) db results →
  name <$> omap id results `sublist_of` db.
Proof.
  induction 1 as [|cand r db results Hr _ IH]; [constructor|].
  destruct r as [c|]; simpl.
  - rewrite (Hr c eq_refl). by constructor.
  - by constructor.
Qed.

Lemma batch_results_named b :
  batch_joined config b →
  Forall2 (λ cand r, ∀ c, r = Some c → name c = cand)
    (batch_chunk b) (batch_results b).
Proof.
  intros (_ & Hlen & Hres). apply Forall2_same_length_lookup_2; [done|].
  intros j comp r Hcomp Hr c ->.
  destruct (Hres j comp Hcomp) as (r' & Hr' & Hafter).
  rewrite Hr in Hr'. injection Hr' as <-.
  by apply (after_returns _ _ _ _ (check_component_returns config comp)
              Hafter c).
Qed.

Lemma scan_results_named runs :
  Forall (batch_joined config) runs →
  Forall2 (λ cand r, ∀ c, r = Some c → name c = cand)
    (mjoin (batch_chunk <$> runs)) (mjoin (batch_results <$> runs)).
Proof.
  induction 1 as [|b runs Hb _ IH]; [constructor|].
  rewrite !fmap_cons. simpl. apply Forall2_app; [|done].
  by apply batch_results_named.
Qed.

Lemma py_range_negative stop step :
  step < 0 → 0 ≤ stop → py_range 0 stop step = Ok [].
Proof.
  intros Hstep Hstop. unfold py_range.
  rewrite decide_False by lia. rewrite decide_False by lia.
  replace (Z.to_nat _) with 0%nat; [done|].
  assert ((0 - stop - step - 1) `div` (- step) ≤ 0); [|lia].
  destruct (decide (0 - stop - step - 1 < 0)).
  - pose proof (Z.div_lt_upper_bound (0 - stop - step - 1) (- step) 0
                  ltac:(lia) ltac:(lia)). lia.
  - rewrite Z.div_small by lia. done.
Qed.

(** C10. The components of the report stand in the order of their
    candidates: they are the components among the results of the
    candidates, taken in the order of the database, each under the name
    of its candidate. *)
Theorem report_preserves_candidate_order fs now end_time report h :
  run_scanner config net sched fs now end_time = (Ok report, h) →
  let db := load_components_db fs in
  ∃ results : list (option Component),
    Forall2 (λ cand r, ∀ c, r = Some c → name c = cand) db results ∧
    components report = omap id results ∧
    name <$> components report `sublist_of` db.
Proof.
  intros Hrun db. unfold run_scanner in Hrun.
  destruct (scan config net sched fs now Scanner_init [])
    as [[[[]|e] scanner] h1] eqn:Hscan; [|done].
  injection Hrun as Hreport <-. unfold generate_report in Hreport.
  destruct (self_start_time scanner) as [start|]; [|done].
  injection Hreport as <-. simpl.
  assert (∃ results : list (option Component),
            Forall2 (λ cand r, ∀ c, r = Some c → name c = cand) db results
            ∧ self_components scanner = omap id results)
    as (results & Hnamed & ->).
  { destruct (decide (1 ≤ threads config)) as [Ht|Ht].
    - destruct (scan_spec config net sched fs now _ _ _ _ _ Ht Hscan)
        as (runs & tail & _ & Hcomps & _ & Hjoined & Hlayout & _ & Hcover).
      fold db in Hlayout, Hcover.
      assert (Hn : (0 < Z.to_nat (threads config))%nat) by lia.
      exists (mjoin (batch_results <$> runs)). split; [|done].
      pose proof (scan_results_named runs Hjoined) as Hnamed.
      rewrite <- (take_ge runs (length runs)) in Hnamed at 1 by done.
      rewrite (chunks_take db _ runs Hn Hlayout) in Hnamed by done.
      by rewrite take_ge in Hnamed.
    - unfold scan in Hscan.
      destruct (decide (threads config = 0)) as [H0|H0].
      + rewrite H0 in Hscan. unfold py_range in Hscan.
        by rewrite decide_True in Hscan.
      + rewrite py_range_negative in Hscan by (unfold len; lia).
        simpl in Hscan. injection Hscan as <- _.
        exists (replicate (length db) None). simpl. split.
        * clear. induction db as [|cand db' IH]; simpl; by constructor.
        * clear. induction (length db) as [|m IH]; simpl; auto. }
  exists results. split; [done|]. split; [done|].
  by apply found_sublist.
Qed.

End Order.

Lemma report_preserves_candidate_order_witness :
  ∃ results : list (option Component),
    Forall2 (λ cand r, ∀ c, r = Some c → name c = cand) Mock.five results ∧
    components Mock.five_report = omap id results ∧
    ["com_users"; "com_shop"] `sublist_of` Mock.five.
Proof.
  apply (report_preserves_candidate_order (H:=Mock.library) Mock.config
           Mock.net_site Mock.turns (Some Mock.five) 1000000 3000000
           Mock.five_report Mock.five_history).
  vm_compute. reflexivity.
Defined.

(** ** Exceptions during the checks of a candidate *)
Section Failures.

Context `{Library} (config : ScanConfig) (net : network)
  (sched : nat → list nat).

Lemma batch_only_proj start chunk evs j :
  batch_only start chunk evs →
  (j < start ∨ start + length chunk ≤ j)%nat →
  proj j evs = [].
Proof.
  intros Honly Hj. apply proj_other.
  eapply Forall_impl; [exact Honly|]. simpl.
  intros ev (t & -> & Ht) [= ->]. lia.
Qed.


End Failures.



(** However far the other task of the batch gets before the scan is
    resumed with the exception, what it does is lost and the next batch
    is not started: here [com_users] completes two exchanges after the
    damaged name has raised. *)
Lemma siblings_go_on_example :
  Mock.damaged_scan_late.1.1 = Raised (PyException "InvalidURL") ∧
  self_components Mock.damaged_scan_late.1.2 = [] ∧
  advances Mock.damaged_scan_late.2 = 0%nat ∧
  length (proj 0 Mock.damaged_scan_late.2) = 1%nat ∧
  length (proj 1 Mock.damaged_scan_late.2) = 2%nat ∧
  proj 2 Mock.damaged_scan_late.2 = [].
Proof. vm_compute. done. Qed.

(** ** The report and the clock *)

(** C8, as the code has it. [generate_report] makes no request and adds
    nothing to the history of the scan; its result is determined by the
    configuration, the start time, the components and the reading of the
    clock at the call: two calls that agree on the first three agree on
    every field but [duration], which is the reading of the clock less
    the start time, and give the same result at the same reading. *)
Theorem generate_report_determined_up_to_clock `{Library} config
    self1 self2 end_time1 end_time2 :
  self_components self1 = self_components self2 →
  self_start_time self1 = self_start_time self2 →
  (end_time1 = end_time2 →
   generate_report config self1 end_time1
   = generate_report config self2 end_time2) ∧
  (∀ r1 r2,
     generate_report config self1 end_time1 = Ok r1 →
     generate_report config self2 end_time2 = Ok r2 →
     target_url r1 = target_url r2 ∧ scan_time r1 = scan_time r2 ∧
     components r1 = components r2 ∧
     total_vulnerabilities r1 = total_vulnerabilities r2 ∧
     scan_config r1 = scan_config r2 ∧
     duration r1 = end_time1 - scan_time r1 ∧
     duration r2 = end_time2 - scan_time r2) ∧
  (∀ net sched fs now,
     (run_scanner config net sched fs now end_time1).2
     = (scan config net sched fs now Scanner_init []).2).
Proof.
  intros Hc Hs. split; [|split].
  - intros ->. unfold generate_report. by rewrite Hc, Hs.
  - intros r1 r2. unfold generate_report. rewrite Hc, Hs.
    destruct (self_start_time self2); [|done].
    intros [= <-] [= <-]. simpl. done.
  - intros net sched fs now. unfold run_scanner.
    by destruct (scan config net sched fs now Scanner_init [])
      as [[[[]|e] scanner] h].
Qed.

Lemma generate_report_determined_up_to_clock_witness :
  generate_report Mock.config Mock.scanned 9000000
  = generate_report Mock.config Mock.scanned 9000000.
Proof.
  exact (proj1 (generate_report_determined_up_to_clock (H:=Mock.library)
                  Mock.config Mock.scanned Mock.scanned 9000000 9000000
                  eq_refl eq_refl) eq_refl).
Defined.

(** Two reports of the same scanner made half a second apart differ. *)
Lemma report_not_determined_by_inputs :
  ¬ report_determined_by_inputs Mock.config.
Proof.
  intros Hdet.
  specialize (Hdet Mock.scanned Mock.scanned 9000000 9500000 eq_refl eq_refl).
  vm_compute in Hdet. discriminate Hdet.
Qed.

(** The mock site only ever answers: the scans of the examples come to
    their end whatever the interleaving. *)
Lemma net_site_transport_failures_only :
  transport_failures_only Mock.net_site.
Proof.
  intros h m u cls. unfold Mock.net_site.
  repeat (destruct (decide _); [done|]). done.
Qed.

(** ** The load on the target *)
Section Budget.

Context `{Library} (config : ScanConfig).

Lemma requests_within_mono {A} (c : coro A) : ∀ n m,
  (n ≤ m)%nat → requests_within n c → requests_within m c.
Proof.
  induction c as [a|e|mt u k IH|s k IH]; intros n m Hnm; simpl; auto.
  - destruct n as [|n]; [done|]. destruct m as [|m]; [lia|].
    intros Hk r. apply (IH r n m); [lia|apply Hk].
  - apply IH, Hnm.
Qed.

Lemma requests_within_bind {A B} (c : coro A) (f : A → coro B) : ∀ n m,
  requests_within n c → (∀ a, requests_within m (f a)) →
  requests_within (n + m) (c ≫= f).
Proof.
  induction c as [a|e|mt u k IH|s k IH]; intros n m Hc Hf; simpl in *.
  - apply (requests_within_mono _ m); [lia|apply Hf].
  - done.
  - destruct n as [|n]; [done|]. simpl. intros r. by apply IH.
  - by apply IH.
Qed.

Lemma requests_within_try_except {A} (c handler : coro A) : ∀ n,
  requests_within n c → requests_within 0 handler →
  requests_within n (try_except c handler).
Proof.
  induction c as [a|e|mt u k IH|s k IH]; intros n Hc Hh; simpl in *.
  - done.
  - apply (requests_within_mono _ 0); [lia|done].
  - destruct n as [|n]; [done|]. intros r. by apply IH.
  - by apply IH.
Qed.

Lemma io_requests_cons_request m u r tr :
  io_requests (Io_request m u r :: tr) = S (io_requests tr).
Proof. unfold io_requests. by rewrite filter_cons_True. Qed.

Lemma io_requests_cons_sleep s tr :
  io_requests (Io_sleep s :: tr) = io_requests tr.
Proof. unfold io_requests. by rewrite filter_cons_False. Qed.

(** A coroutine within a budget stays within it however far it gets. *)
Lemma after_requests_within {A} tr : ∀ (c c' : coro A) n,
  requests_within n c → after c tr = Some c' → (io_requests tr ≤ n)%nat.
Proof.
  induction tr as [|[m u r|s] tr IH]; intros c c' n Hc; simpl.
  - intros _. unfold io_requests. simpl. lia.
  - destruct c as [| |m' u' k|]; try done.
    destruct (decide (m = m' ∧ u = u')); [|done].
    simpl in Hc. destruct n as [|n]; [done|].
    intros Hafter. rewrite io_requests_cons_request.
    pose proof (IH _ _ n (Hc r) Hafter). lia.
  - destruct c as [| | |s' k]; try done.
    destruct (decide (s = s')); [|done].
    simpl in Hc. intros Hafter. rewrite io_requests_cons_sleep.
    exact (IH _ _ n Hc Hafter).
Qed.

Lemma suspensions_bind {A B} (P : io → Prop) (c : coro A) (f : A → coro B) :
  suspensions P c → (∀ a, suspensions P (f a)) → suspensions P (c ≫= f).
Proof.
  intros Hc Hf. induction c as [a|e|m u k IH|s k IH]; simpl in *; auto.
  - intros r. destruct (Hc r). split; [done|]. by apply IH.
  - destruct Hc. split; [done|]. by apply IH.
Qed.

Lemma suspensions_try_except {A} (P : io → Prop) (c handler : coro A) :
  suspensions P c → suspensions P handler →
  suspensions P (try_except c handler).
Proof.
  intros Hc Hh. induction c as [a|e|m u k IH|s k IH]; simpl in *; auto.
  - intros r. destruct (Hc r). split; [done|]. by apply IH.
  - destruct Hc. split; [done|]. by apply IH.
Qed.

Lemma after_suspensions {A} (P : io → Prop) tr : ∀ (c c' : coro A),
  suspensions P c → after c tr = Some c' → Forall P tr.
Proof.
  induction tr as [|[m u r|s] tr IH]; intros c c' Hc; simpl.
  - intros _. constructor.
  - destruct c as [| |m' u' k|]; try done.
    destruct (decide (m = m' ∧ u = u')) as [[-> ->]|]; [|done].
    simpl in Hc. destruct (Hc r) as [HP Hk].
    intros Hafter. constructor; [done|]. by eapply IH.
  - destruct c as [| | |s' k]; try done.
    destruct (decide (s = s')) as [->|]; [|done].
    simpl in Hc. destruct Hc as [HP Hk].
    intros Hafter. constructor; [done|]. by eapply IH.
Qed.

(** *** [check_url] *)

Lemma check_url_requests_within u : ∀ (n : nat) retry_count,
  n = Z.to_nat (max_retries config - retry_count) →
  requests_within (S n) (check_url config u retry_count).
Proof.
  intros n. induction n as [|n IH]; intros rc Hn;
    rewrite check_url_equation_1; simpl; intros [resp|[|cls]]; simpl;
    try done.
  - destruct (Z_lt_dec rc (max_retries config)); [lia|done].
  - destruct (Z_lt_dec rc (max_retries config)); [|done].
    simpl. apply (IH (rc + 1)). lia.
Qed.

Lemma check_url_attempts u :
  requests_within (attempts config) (check_url config u 0).
Proof.
  unfold attempts. apply check_url_requests_within. f_equal. lia.
Qed.

Lemma check_url_suspensions (P : io → Prop) u :
  (∀ r, P (Io_request GET u r)) → P (Io_sleep 1) →
  ∀ (n : nat) retry_count,
    n = Z.to_nat (max_retries config - retry_count) →
    suspensions P (check_url config u retry_count).
Proof.
  intros Hget Hsleep n. induction n as [|n IH]; intros rc Hn;
    rewrite check_url_equation_1; simpl; intros r; (split; [done|]);
    destruct r as [resp|[|cls]]; simpl; try done.
  - destruct (Z_lt_dec rc (max_retries config)); [lia|done].
  - destruct (Z_lt_dec rc (max_retries config)); [|done].
    simpl. split; [done|]. apply (IH (rc + 1)). lia.
Qed.

(** Whatever the network does, one call of [check_url] makes at most
    [max_retries + 1] requests (a single one when [max_retries] is not
    positive), all of them GETs of its URL, and sleeps at most
    [max_retries] times, one second each; it gives up with [None] only
    when it has used all of these attempts. *)
Theorem check_url_bounded net task u h :
  ∃ o evs,
    run net task (check_url config u 0) h = (o, h ++ evs) ∧
    (1 ≤ len (filter (λ ev, is_request ev = true) evs)
       ≤ Z.max 0 (max_retries config) + 1) ∧
    len (filter (λ ev, is_sleep ev = true) evs)
    ≤ Z.max 0 (max_retries config) ∧
    Forall (λ ev, (∃ r, ev = Ev_request task GET u r) ∨ ev = Ev_sleep task 1)
      evs ∧
    (o = Ok None →
     len (filter (λ ev, is_request ev = true) evs)
     = Z.max 0 (max_retries config) + 1).
Proof.
  destruct (check_url_run_shape config net task u _ 0 h eq_refl)
    as (k & final & Hk & Hlast & Hrun).
  eexists _, _. split; [exact Hrun|].
  unfold len. rewrite !filter_app, !length_app.
  rewrite failed_attempts_requests, failed_attempts_sleeps, length_replicate.
  rewrite filter_cons_True, filter_cons_False by done. simpl.
  split; [lia|]. split; [lia|]. split.
  - apply Forall_app. split.
    + unfold failed_attempts. clear. induction k as [|k IH]; simpl.
      * constructor.
      * constructor; [left; eauto|]. constructor; [by right|done].
    + constructor; [left; eauto|constructor].
  - intros Ho. rewrite Hlast; [lia|].
    destruct final as [resp|[|cls]]; simpl in Ho; done.
Qed.

(** *** [check_component] *)

Lemma any_file_200_requests_within u files :
  requests_within (length files * attempts config)
    (any_file_200 config u files).
Proof.
  induction files as [|path files IH]; [done|].
  cbn [any_file_200 length].
  change (S (length files) * attempts config)%nat
    with (attempts config + length files * attempts config)%nat.
  apply requests_within_bind; [apply check_url_attempts|].
  intros status. by destruct (decide (status = Some 200)).
Qed.

Lemma session_request_within m u : requests_within 1 (session_request m u).
Proof. simpl. by intros [resp|e]. Qed.

Lemma check_path_requests_within st path :
  requests_within (8 * attempts config + 4) (check_path config st path).
Proof.
  set (a := attempts config). unfold check_path.
  replace (8 * a + 4)%nat
    with (a + (1 + (4 * a + (2 * a + ((1 + (a + 1)) + (1 + 0))))))%nat
    by lia.
  apply requests_within_bind; [apply check_url_attempts|]. intros status.
  destruct (decide (status = Some 200)); [|done]. unfold found_path.
  apply requests_within_bind.
  { apply requests_within_try_except; [|done].
    apply (requests_within_bind _ _ 1 0); [apply session_request_within|done]. }
  intros listing. apply requests_within_bind.
  { apply (any_file_200_requests_within _ readme_paths). }
  intros readme. apply requests_within_bind.
  { apply (any_file_200_requests_within _ manifest_paths). }
  intros manifest. apply requests_within_bind.
  { apply requests_within_try_except; [|done].
    apply requests_within_bind; [apply session_request_within|].
    intros response. destruct (soup_generator_meta _); [done|].
    apply requests_within_bind; [apply check_url_attempts|]. intros status'.
    destruct (decide (status' = Some 200)); [|done].
    apply (requests_within_bind _ _ 1 0); [apply session_request_within|].
    intros resp. by destruct (soup_version_tag _). }
  intros v. apply requests_within_bind; [|done].
  apply requests_within_try_except; [|done].
  apply (requests_within_bind _ _ 1 0); [apply session_request_within|].
  intros response. destruct (headers_get _ _); [|done].
  by destruct (strptime_http_date _).
Qed.

Lemma check_component_requests_within component :
  requests_within (request_budget config) (check_component config component).
Proof.
  unfold request_budget, check_component, component_paths.
  set (b := (8 * attempts config + 4)%nat).
  replace (3 * b)%nat with ((b + (b + (b + 0))) + 0)%nat by lia.
  apply requests_within_bind.
  - cbn [for_paths].
    repeat (apply requests_within_bind;
            [apply check_path_requests_within|intros ?]).
    exact I.
  - intros st. by destruct (decide (found_paths st = ∅)).
Qed.

Lemma check_component_budget_after component tr c' :
  after (check_component config component) tr = Some c' →
  (io_requests tr ≤ request_budget config)%nat.
Proof.
  apply after_requests_within, check_component_requests_within.
Qed.

Lemma any_file_200_suspensions (P : io → Prop) u files :
  (∀ f r, f ∈ files → P (Io_request GET (urljoin u f) r)) →
  P (Io_sleep 1) →
  suspensions P (any_file_200 config u files).
Proof.
  intros Hget Hsleep. induction files as [|path files IH]; simpl; [done|].
  apply suspensions_bind.
  - eapply check_url_suspensions; [|done..].
    intros r. apply Hget. left.
  - intros status. destruct (decide (status = Some 200)); [done|].
    apply IH. intros f r Hf. apply Hget. by right.
Qed.

Lemma session_request_suspensions (P : io → Prop) m u :
  (∀ r, P (Io_request m u r)) → suspensions P (session_request m u).
Proof. intros HP. simpl. intros r. split; [done|]. by destruct r. Qed.

Lemma check_component_suspensions component :
  suspensions (allowed_io config component)
    (check_component config component).
Proof.
  set (P := allowed_io config component).
  assert (Hsleep : P (Io_sleep 1)) by done.
  assert (Hpath : ∀ st path, path ∈ component_paths component →
            suspensions P (check_path config st path)).
  { intros st path Hin. unfold check_path.
    assert (Hu : ∀ m r, P (Io_request m (urljoin (url config) path) r)).
    { intros m r. exists path. split; [done|by left]. }
    assert (Hfile : ∀ f r, f ∈ readme_paths ++ manifest_paths →
              P (Io_request GET (urljoin (urljoin (url config) path) f) r)).
    { intros f r Hf. exists path. split; [done|]. right. split; [done|].
      by exists f. }
    apply suspensions_bind; [by eapply check_url_suspensions|].
    intros status. destruct (decide (status = Some 200)); [|done].
    unfold found_path. apply suspensions_bind.
    { apply suspensions_try_except; [|done].
      apply suspensions_bind; [by apply session_request_suspensions|done]. }
    intros listing. apply suspensions_bind.
    { apply any_file_200_suspensions; [|done].
      intros f r Hf. apply Hfile, elem_of_app. by left. }
    intros readme. apply suspensions_bind.
    { apply any_file_200_suspensions; [|done].
      intros f r Hf. apply Hfile, elem_of_app. by right. }
    intros manifest. apply suspensions_bind.
    { apply suspensions_try_except; [|done].
      apply suspensions_bind; [by apply session_request_suspensions|].
      intros response. destruct (soup_generator_meta _); [done|].
      assert (Hm : ∀ r, P (Io_request GET
                (urljoin (urljoin (url config) path) "manifest.xml") r)).
      { intros r. apply Hfile. apply elem_of_app. right.
        apply list_elem_of_further, list_elem_of_here. }
      apply suspensions_bind; [by eapply check_url_suspensions|].
      intros status'. destruct (decide (status' = Some 200)); [|done].
      apply suspensions_bind; [by apply session_request_suspensions|].
      intros resp. by destruct (soup_version_tag _). }
    intros v. apply suspensions_bind; [|done].
    apply suspensions_try_except; [|done].
    apply suspensions_bind.
    { by apply session_request_suspensions. }
    intros response. destruct (headers_get _ _); [|done].
    by destruct (strptime_http_date _). }
  unfold check_component. apply suspensions_bind.
  - assert (Hall : ∀ p, p ∈ component_paths component
                        → p ∈ component_paths component) by done.
    revert Hall. generalize locals_init.
    generalize (component_paths component) at 1 3.
    intros ps. induction ps as [|path ps IH]; intros st Hall; simpl; [done|].
    apply suspensions_bind; [apply Hpath, Hall; left|].
    intros st'. apply IH. intros p Hp. apply Hall. by right.
  - intros st. by destruct (decide (found_paths st = ∅)).
Qed.

Lemma check_component_allowed_after component tr c' :
  after (check_component config component) tr = Some c' →
  Forall (allowed_io config component) tr.
Proof.
  apply after_suspensions, check_component_suspensions.
Qed.

End Budget.

(** ** Tasks in progress *)
Section Progress.

Context {A : Type} (net : network).
Implicit Types (c : coro A) (pool : list (nat * coro A)).

Lemma in_progress_other pool task c evs :
  NoDup ((task, c) :: pool).*1 →
  Forall (λ ev, ev_task ev = Some task) evs →
  ∀ tc, tc ∈ pool → proj tc.1 evs = [].
Proof.
  intros Hnd Hevs [t c2] Hin. simpl. apply proj_other.
  eapply Forall_impl; [exact Hevs|]. simpl. intros ev -> [= ->].
  apply NoDup_cons in Hnd as [Hfresh _]. apply Hfresh.
  apply list_elem_of_fmap. by exists (t, c2).
Qed.

Lemma run_all_progress pool : ∀ h o h',
  NoDup pool.*1 →
  run_all net pool h = (o, h') →
  ∃ evs, h' = h ++ evs ∧ in_progress pool evs.
Proof.
  induction pool as [|[task c] pool IH]; intros h o h' Hnd; simpl.
  - intros [= <- <-]. exists []. rewrite app_nil_r. split; [done|].
    by intros tc Hin%elem_of_nil.
  - pose proof Hnd as Hnd'. apply NoDup_cons in Hnd' as [Hfresh Hnd'].
    destruct (run net task c h) as [[a|e] h1] eqn:Hrun.
    + apply run_after in Hrun as (evs1 & -> & Hevs1 & Hafter1).
      destruct (run_all net pool (h ++ evs1)) as [o2 h2] eqn:Hrest.
      pose proof Hrest as Hspec.
      apply run_all_spec in Hspec as (evs2' & Hh2 & Hevs2 & _); [|done].
      apply IH in Hrest as (evs2 & -> & Hprog); [|done].
      apply app_inv_head in Hh2 as <-.
      assert (Hprog' : in_progress ((task, c) :: pool) (evs1 ++ evs2)).
      { intros tc Hin. apply elem_of_cons in Hin as [->|Hin]; simpl.
        - rewrite proj_app, (proj_other _ evs2), app_nil_r; [by rewrite Hafter1|].
          eapply Forall_impl; [exact Hevs2|]. simpl.
          intros ev (t & -> & Hin) [= ->]. done.
        - rewrite proj_app, (in_progress_other pool task c evs1 Hnd Hevs1 tc Hin).
          by apply Hprog. }
      destruct o2 as [results|e]; intros [= <- <-];
        exists (evs1 ++ evs2); by rewrite app_assoc.
    + intros [= <- <-].
      apply run_after in Hrun as (evs1 & -> & Hevs1 & Hafter1).
      exists evs1. split; [done|].
      intros tc Hin. apply elem_of_cons in Hin as [->|Hin]; simpl.
      * by rewrite Hafter1.
      * by rewrite (in_progress_other pool task c evs1 Hnd Hevs1 tc Hin).
Qed.

Lemma gather_loop_progress sched : ∀ pool h o h',
  NoDup pool.*1 →
  gather_loop net sched pool h = (o, h') →
  ∃ evs, h' = h ++ evs ∧ in_progress pool evs.
Proof.
  induction sched as [|n sched IH]; intros pool h o h' Hnd; simpl.
  { by apply run_all_progress. }
  destruct (ready pool !! _) as [j|]; [|by apply run_all_progress].
  destruct (pool !! j) as [[task c]|] eqn:Hj; [|by apply run_all_progress].
  destruct (step net task c h) as [c' h1] eqn:Hstep.
  apply step_after in Hstep as (evs0 & -> & Hevs0 & Hafter0).
  assert (Hids : (<[j:=(task, c')]> pool).*1 = pool.*1).
  { rewrite list_fmap_insert. apply list_insert_id.
    by rewrite list_lookup_fmap, Hj. }
  assert (Hrec :
    gather_loop net sched (<[j:=(task, c')]> pool) (h ++ evs0) = (o, h') →
    ∃ evs, h' = h ++ evs ∧ in_progress pool evs).
  { intros Hloop. apply IH in Hloop as (evs' & -> & Hprog);
      [|by rewrite Hids].
    exists (evs0 ++ evs'). split; [by rewrite app_assoc|].
    by eapply resumed_in_progress. }
  destruct c' as [a|e|m u k|s k]; try exact Hrec.
  destruct (linger_spec net sched (<[j:=(task, Raise e)]> pool) (h ++ evs0))
    as (evs' & Hlinger & _ & Hprog); [by rewrite Hids|].
  rewrite Hlinger. intros [= <- <-].
  exists (evs0 ++ evs'). split; [by rewrite app_assoc|].
  by eapply resumed_in_progress.
Qed.

(** Waiting for a pool of tasks, whether it ends with the results or
    with an exception, leaves every task of the pool somewhere on one of
    the ways of its coroutine. *)
Lemma gather_progress sched pool h o h' :
  NoDup pool.*1 →
  gather net sched pool h = (o, h') →
  ∃ evs, h' = h ++ evs ∧ pool_events pool evs ∧ in_progress pool evs.
Proof.
  intros Hnd Hgather.
  destruct (gather_spec net sched pool h o h' Hnd Hgather)
    as (evs & -> & Hevs & _).
  exists evs. split; [done|]. split; [done|].
  unfold gather in Hgather.
  destruct (first_raised pool) as [e|].
  - injection Hgather as _ Hh.
    assert (evs = []) as ->.
    { apply (app_inv_head h). by rewrite app_nil_r. }
    intros tc _. done.
  - apply gather_loop_progress in Hgather as (evs' & Hh & Hprog); [|done].
    by apply app_inv_head in Hh as <-.
Qed.

End Progress.

(** ** The load of a scan on the target *)
Section ScanLoad.

Context `{Library} (config : ScanConfig) (net : network)
  (sched : nat → list nat).

(** The tasks of a scan, whatever its end: the events belong to the
    tasks of candidates of the database, and each of these tasks is
    somewhere on a way of [check_component] for its candidate. *)
Lemma scan_loop_progress db (n : nat) starts : ∀ k0 b self h o self' h',
  (0 < n)%nat →
  (∀ k i, starts !! k = Some i → i = Z.of_nat ((k0 + k) * n)) →
  scan_loop config net sched b db (Z.of_nat n) starts self h = (o, self', h') →
  ∃ evs, h' = h ++ evs ∧
    Forall (λ ev, ∀ t, ev_task ev = Some t → (k0 * n ≤ t < length db)%nat)
      evs ∧
    ∀ j comp, db !! j = Some comp →
      is_Some (after (check_component config comp) (proj j evs)).
Proof.
  induction starts as [|i starts IH]; intros k0 b self h o self' h' Hn Hstarts;
    simpl.
  - intros [= <- <- <-]. exists []. rewrite app_nil_r.
    split; [done|]. split; [constructor|]. by intros j comp _.
  - pose proof (Hstarts 0%nat i eq_refl) as Hi.
    rewrite Nat.add_0_r in Hi.
    set (chunk := py_slice db i (i + Z.of_nat n)).
    assert (Hchunk : chunk = take n (drop (k0 * n) db)).
    { unfold chunk, py_slice. subst i. f_equal; [lia|f_equal; lia]. }
    assert (Hstart : Z.to_nat i = (k0 * n)%nat) by lia.
    assert (Hlen : (length chunk ≤ n ∧ (length chunk = 0 ∨
                      k0 * n + length chunk ≤ length db))%nat).
    { rewrite Hchunk, length_take, length_drop. lia. }
    destruct (gather net (sched b) (chunk_tasks config i chunk) h)
      as [o1 h1] eqn:Hgather.
    apply gather_progress in Hgather as (evs1 & -> & Hevs1 & Hprog1);
      [|rewrite chunk_tasks_ids; apply NoDup_seq].
    apply chunk_tasks_events in Hevs1. rewrite Hstart in Hevs1.
    assert (Hrange1 : Forall (λ ev, ∀ t, ev_task ev = Some t →
                        (k0 * n ≤ t < length db)%nat) evs1).
    { eapply Forall_impl; [exact Hevs1|]. simpl.
      intros ev (t & -> & Ht) t' [= <-]. lia. }
    assert (Hhere : ∀ j comp, db !! j = Some comp →
              is_Some (after (check_component config comp) (proj j evs1))).
    { intros j comp Hj.
      destruct (decide (k0 * n ≤ j < k0 * n + length chunk)%nat) as [Hin|Hout].
      - apply (Hprog1 (j, check_component config comp)).
        apply (list_elem_of_lookup_2 _ (j - k0 * n)%nat).
        rewrite chunk_tasks_lookup, Hchunk.
        rewrite lookup_take, decide_True by lia.
        rewrite lookup_drop.
        replace (k0 * n + (j - k0 * n))%nat with j by lia.
        rewrite Hj. simpl. do 2 f_equal. lia.
      - rewrite (batch_only_proj _ _ _ j Hevs1) by lia. done. }
    destruct o1 as [results|e].
    + rewrite collect_spec. intros Hloop.
      apply (IH (S k0)) in Hloop as (evs2 & -> & Hrange2 & Hprog2); [|done|].
      2:{ intros k i' Hk. rewrite (Hstarts (S k) i' Hk). f_equal. lia. }
      exists (evs1 ++ replicate (length results) Ev_advance ++ evs2).
      split; [by rewrite <- !app_assoc|]. split.
      * apply Forall_app. split; [done|]. apply Forall_app. split.
        -- apply Forall_forall. intros ev Hev.
           by apply elem_of_replicate_inv in Hev as ->.
        -- eapply Forall_impl; [exact Hrange2|]. simpl.
           intros ev Hev t Ht. specialize (Hev t Ht). lia.
      * intros j comp Hj. rewrite !proj_app.
        rewrite (proj_other j (replicate _ _)).
        2:{ apply Forall_forall. intros ev Hev.
            by apply elem_of_replicate_inv in Hev as ->. }
        destruct (decide (j < S k0 * n)%nat) as [Hlt|Hge].
        -- rewrite (proj_other j evs2), !app_nil_r; [by apply Hhere|].
           eapply Forall_impl; [exact Hrange2|]. simpl.
           intros ev Hev Ht. specialize (Hev j Ht). lia.
        -- rewrite (batch_only_proj _ _ _ j Hevs1) by lia.
           by apply Hprog2.
    + intros [= <- <- <-]. by exists evs1.
Qed.

Lemma scan_progress fs now self h :
  let db := load_components_db fs in
  ∃ evs,
    (scan config net sched fs now self h).2
    = h ++ Ev_add_task (len db) :: evs ∧
    Forall (λ ev, ∀ t, ev_task ev = Some t → (t < length db)%nat) evs ∧
    ∀ j comp, db !! j = Some comp →
      is_Some (after (check_component config comp) (proj j evs)).
Proof.
  intros db. unfold scan. fold db.
  assert (Hnone : ∃ evs,
    h ++ [Ev_add_task (len db)] = h ++ Ev_add_task (len db) :: evs ∧
    Forall (λ ev, ∀ t, ev_task ev = Some t → (t < length db)%nat) evs ∧
    ∀ j comp, db !! j = Some comp →
      is_Some (after (check_component config comp) (proj j evs))).
  { exists []. split; [done|]. split; [constructor|]. by intros j comp _. }
  destruct (decide (1 ≤ threads config)) as [Ht|Ht].
  - rewrite py_range_chunks by lia.
    set (n := Z.to_nat (threads config)).
    replace (threads config) with (Z.of_nat n) by (unfold n; lia).
    destruct (scan_loop _ _ _ _ _ _ _ _ _) as [[o self'] h'] eqn:Hloop.
    apply (scan_loop_progress db n _ 0%nat) in Hloop
      as (evs & -> & Hrange & Hprog); [|unfold n; lia|].
    + exists evs. simpl. split; [by rewrite <- app_assoc|]. split; [|done].
      eapply Forall_impl; [exact Hrange|]. simpl.
      intros ev Hev t Ht'. specialize (Hev t Ht'). lia.
    + intros k i Hk. rewrite list_lookup_fmap in Hk.
      destruct (seq 0 _ !! k) as [k'|] eqn:Hseq; [|done].
      apply lookup_seq in Hseq as [-> _]. injection Hk as <-. lia.
  - destruct (decide (threads config = 0)) as [H0|H0].
    + rewrite H0. unfold py_range. rewrite decide_True by done. exact Hnone.
    + rewrite py_range_negative by (unfold len; lia). exact Hnone.
Qed.

Lemma sum_list_le (f g : nat → nat) l :
  (∀ j, f j ≤ g j)%nat →
  (sum_list (f <$> l) ≤ sum_list (g <$> l))%nat.
Proof.
  intros Hfg. induction l as [|j l IH]; csimpl; [done|].
  specialize (Hfg j). lia.
Qed.

Lemma sum_list_lt (f g : nat → nat) l t :
  (∀ j, f j ≤ g j)%nat → t ∈ l → (S (f t) ≤ g t)%nat →
  (S (sum_list (f <$> l)) ≤ sum_list (g <$> l))%nat.
Proof.
  intros Hfg Hin Ht. induction l as [|j l IH]; [by apply elem_of_nil in Hin|].
  csimpl. apply elem_of_cons in Hin as [<-|Hin].
  - pose proof (sum_list_le f g l Hfg). lia.
  - specialize (IH Hin). specialize (Hfg j). lia.
Qed.

Lemma sum_list_bound (f : nat → nat) l b :
  (∀ j, f j ≤ b)%nat → (sum_list (f <$> l) ≤ length l * b)%nat.
Proof.
  intros Hf. induction l as [|j l IH]; csimpl; [done|].
  specialize (Hf j). lia.
Qed.

Lemma io_requests_proj_cons j ev evs :
  (io_requests (proj j evs) ≤ io_requests (proj j (ev :: evs)))%nat.
Proof.
  unfold proj. cbn [omap list_omap].
  destruct ev as [t m u r|t s| |]; try done.
  - destruct (decide (t = j)); [|done].
    rewrite io_requests_cons_request. lia.
  - destruct (decide (t = j)); [|done].
    by rewrite io_requests_cons_sleep.
Qed.

(** The requests of a history are those of its tasks. *)
Lemma requests_by_task (N : nat) evs :
  Forall (λ ev, ∀ t, ev_task ev = Some t → (t < N)%nat) evs →
  (requests evs ≤ sum_list ((λ j, io_requests (proj j evs)) <$> seq 0 N))%nat.
Proof.
  unfold requests. induction 1 as [|ev evs Hev _ IH]; [simpl; lia|].
  destruct (decide (is_request ev = true)) as [Hreq|Hreq].
  - rewrite filter_cons_True by done. cbn [length].
    destruct ev as [t m u r| | |]; try done.
    etrans; [apply le_n_S, IH|].
    apply (sum_list_lt _ _ _ t).
    + intros j. apply io_requests_proj_cons.
    + apply elem_of_seq. specialize (Hev t eq_refl). lia.
    + by rewrite proj_cons_request, io_requests_cons_request.
  - rewrite filter_cons_False by done.
    etrans; [apply IH|]. apply sum_list_le.
    intros j. apply io_requests_proj_cons.
Qed.

(** Whatever the target answers, however the tasks of a batch take
    turns and whether the scan comes to its end or is aborted: the task
    of each candidate makes at most [3 * (8 * (max_retries + 1) + 4)]
    requests, so that the whole scan makes at most that many for each
    line of the database. *)
Theorem scan_request_budget fs now self h :
  let db := load_components_db fs in
  ∃ evs,
    (scan config net sched fs now self h).2
    = h ++ Ev_add_task (len db) :: evs ∧
    (∀ j, (io_requests (proj j evs) ≤ request_budget config)%nat) ∧
    (requests evs ≤ length db * request_budget config)%nat.
Proof.
  intros db. destruct (scan_progress fs now self h)
    as (evs & Hscan & Hrange & Hprog). fold db in Hscan, Hrange, Hprog.
  exists evs. split; [done|].
  assert (Hone : ∀ j, (io_requests (proj j evs) ≤ request_budget config)%nat).
  { intros j. destruct (db !! j) as [comp|] eqn:Hj.
    - destruct (Hprog j comp Hj) as [c' Hc'].
      by eapply check_component_budget_after.
    - rewrite proj_other; [unfold io_requests; simpl; lia|].
      apply lookup_ge_None in Hj.
      eapply Forall_impl; [exact Hrange|]. simpl.
      intros ev Hev Ht. specialize (Hev j Ht). lia. }
  split; [done|].
  etrans; [by apply (requests_by_task (length db))|].
  etrans; [by apply sum_list_bound|]. by rewrite length_seq.
Qed.

Lemma proj_elem_of_request t m u r evs :
  Ev_request t m u r ∈ evs → Io_request m u r ∈ proj t evs.
Proof.
  intros Hin. unfold proj. apply list_elem_of_omap.
  exists (Ev_request t m u r). split; [done|]. by rewrite decide_True.
Qed.

Lemma proj_elem_of_sleep t s evs :
  Ev_sleep t s ∈ evs → Io_sleep s ∈ proj t evs.
Proof.
  intros Hin. unfold proj. apply list_elem_of_omap.
  exists (Ev_sleep t s). split; [done|]. by rewrite decide_True.
Qed.

(** Where the requests of a scan go. Every request in the history of a
    scan, whatever the target answers and whether the scan comes to its
    end or not, is made by the task of a line of the database, and its
    URL is what [urljoin] makes of the target and one of the three paths
    of that candidate, asked for with GET or HEAD, or what [urljoin]
    makes of such a URL and one of the six readme and manifest file
    names, asked for with GET; every sleep lasts one second. For the
    query-string path [urljoin] resolves the file names at the root of
    the site, so that these URLs are the same for every candidate. *)
Theorem scan_requests_join_candidate_paths fs now self h :
  let db := load_components_db fs in
  ∃ evs,
    (scan config net sched fs now self h).2
    = h ++ Ev_add_task (len db) :: evs ∧
    Forall (from_candidate config db) evs.
Proof.
  intros db. destruct (scan_progress fs now self h)
    as (evs & Hscan & Hrange & Hprog). fold db in Hscan, Hrange, Hprog.
  exists evs. split; [done|].
  apply Forall_forall. intros ev Hev.
  pose proof (proj1 (Forall_forall _ _) Hrange ev Hev) as Ht.
  destruct ev as [t m u r|t s| |]; unfold from_candidate; try done.
  - specialize (Ht t eq_refl).
    destruct (lookup_lt_is_Some_2 db t Ht) as [comp Hcomp].
    exists comp. split; [done|].
    destruct (Hprog t comp Hcomp) as [c' Hc'].
    pose proof (check_component_allowed_after config comp _ _ Hc') as Hall.
    exact (proj1 (Forall_forall _ _) Hall (Io_request m u r)
             (proj_elem_of_request t m u r evs Hev)).
  - specialize (Ht t eq_refl). split; [done|].
    destruct (lookup_lt_is_Some_2 db t Ht) as [comp Hcomp].
    destruct (Hprog t comp Hcomp) as [c' Hc'].
    pose proof (check_component_allowed_after config comp _ _ Hc') as Hall.
    exact (proj1 (Forall_forall _ _) Hall (Io_sleep s)
             (proj_elem_of_sleep t s evs Hev)).
Qed.

End ScanLoad.

(** The file names of the query-string path are resolved at the root of
    the site. *)
Lemma urljoin_query_path_example :
  urljoin (Library:=Mock.library)
    (urljoin (Library:=Mock.library) "http://target"
       "/index.php?option=com_users") "README.txt"
  = "http://target/README.txt".
Proof. reflexivity. Qed.

(** ** The database of candidates: [load_components_db] *)
Section Database.

Lemma string_app_cons a (s1 s2 : string) :
  String a s1 +:+ s2 = String a (s1 +:+ s2).
Proof. reflexivity. Qed.

Lemma string_app_nil_r (s : string) : s +:+ "" = s.
Proof. induction s as [|a s IH]; [done|]. by rewrite string_app_cons, IH. Qed.

Lemma string_app_assoc (s1 s2 s3 : string) :
  (s1 +:+ s2) +:+ s3 = s1 +:+ (s2 +:+ s3).
Proof.
  induction s1 as [|a s1 IH]; [done|]. by rewrite !string_app_cons, IH.
Qed.

Lemma string_length_app (s1 s2 : string) :
  String.length (s1 +:+ s2) = (String.length s1 + String.length s2)%nat.
Proof.
  induction s1 as [|a s1 IH]; [done|].
  rewrite string_app_cons. simpl. by rewrite IH.
Qed.

Lemma rev_app_spec (s1 s2 : string) :
  String.rev_app s1 s2 = String.rev s1 +:+ s2.
Proof.
  unfold String.rev. revert s2.
  induction s1 as [|a s1 IH]; intros s2; simpl; [done|].
  rewrite (IH (String a s2)), (IH (String a "")).
  by rewrite string_app_assoc, string_app_cons.
Qed.

Lemma string_rev_cons a (s : string) :
  String.rev (String a s) = String.rev s +:+ String a "".
Proof. unfold String.rev at 1. simpl. apply rev_app_spec. Qed.

Lemma string_rev_app (s1 s2 : string) :
  String.rev (s1 +:+ s2) = String.rev s2 +:+ String.rev s1.
Proof.
  induction s1 as [|a s1 IH].
  - by rewrite string_app_nil_r.
  - by rewrite string_app_cons, !string_rev_cons, IH, string_app_assoc.
Qed.

Lemma string_rev_involutive (s : string) : String.rev (String.rev s) = s.
Proof.
  induction s as [|a s IH]; [done|].
  by rewrite string_rev_cons, string_rev_app, IH.
Qed.

Lemma string_length_rev (s : string) :
  String.length (String.rev s) = String.length s.
Proof.
  induction s as [|a s IH]; [done|].
  rewrite string_rev_cons, string_length_app, IH. simpl. lia.
Qed.

(** *** Prefixes *)

Lemma without_prefix_Some w : ∀ s r, without_prefix w s = Some r → s = w +:+ r.
Proof.
  induction w as [|a w IH]; intros s r; simpl.
  - by intros [= ->].
  - destruct s as [|b s]; [done|].
    destruct (decide (a = b)) as [->|]; [|done].
    intros Hs. by rewrite (IH _ _ Hs).
Qed.

Lemma without_prefix_app w r : without_prefix w (w +:+ r) = Some r.
Proof.
  induction w as [|a w IH]; [done|].
  rewrite string_app_cons. simpl. by rewrite decide_True.
Qed.

(** Two prefixes of one string: one begins with the other. *)
Lemma without_prefix_comparable w0 : ∀ w r r0,
  without_prefix w0 (w +:+ r) = Some r0 →
  is_Some (without_prefix w0 w) ∨ is_Some (without_prefix w w0).
Proof.
  induction w0 as [|a w0 IH]; intros w r r0.
  - intros _. left. by eexists.
  - destruct w as [|b w]; [intros _; right; by eexists|].
    rewrite string_app_cons. simpl.
    destruct (decide (a = b)) as [->|]; [|done].
    rewrite decide_True by done. apply IH.
Qed.

Lemma drop_first_Some ws s r :
  drop_first ws s = Some r → ∃ w, w ∈ ws ∧ s = w +:+ r.
Proof.
  induction ws as [|w ws IH]; simpl; [done|].
  destruct (without_prefix w s) as [rest|] eqn:Hw.
  - intros [= ->]. exists w. split; [left|]. by apply without_prefix_Some.
  - intros Hrest. destruct (IH Hrest) as (w' & Hin & Hs).
    exists w'. split; [by right|done].
Qed.

Lemma drop_first_None ws s :
  drop_first ws s = None → ∀ w r, w ∈ ws → s ≠ w +:+ r.
Proof.
  induction ws as [|w0 ws IH]; simpl; intros Hnone w r Hin.
  - by apply elem_of_nil in Hin.
  - destruct (without_prefix w0 s) as [rest|] eqn:Hw; [done|].
    apply elem_of_cons in Hin as [->|Hin]; [|by apply IH].
    intros ->. by rewrite without_prefix_app in Hw.
Qed.

Lemma prefix_free_spec ws :
  prefix_free ws = true →
  (∀ w, w ∈ ws → w ≠ "") ∧
  (∀ w w' rest, w ∈ ws → w' ∈ ws →
                without_prefix w' w = Some rest → w = w').
Proof.
  unfold prefix_free. rewrite forallb_forall. intros Hfree. split.
  - intros w Hin ->. apply list_elem_of_In, Hfree in Hin. done.
  - intros w w' rest Hin Hin' Hrest.
    apply list_elem_of_In, Hfree, andb_true_iff in Hin as [_ Hall].
    rewrite forallb_forall in Hall.
    apply list_elem_of_In, Hall in Hin'. rewrite Hrest in Hin'.
    apply String.eqb_eq in Hin'. subst rest.
    apply without_prefix_Some in Hrest. by rewrite string_app_nil_r in Hrest.
Qed.

(** A string that begins with a character of [ws] loses exactly that
    character. *)
Lemma drop_first_app ws w r :
  prefix_free ws = true → w ∈ ws → drop_first ws (w +:+ r) = Some r.
Proof.
  intros [_ Hfree]%prefix_free_spec Hin.
  assert (Hsub : ∀ ws', (∀ w0, w0 ∈ ws' → w0 ∈ ws) → w ∈ ws' →
            drop_first ws' (w +:+ r) = Some r); [|by apply Hsub].
  induction ws' as [|w0 ws' IH]; intros Hws' Hin';
    [by apply elem_of_nil in Hin'|].
  simpl. destruct (without_prefix w0 (w +:+ r)) as [r0|] eqn:Hw0.
  - assert (w0 = w) as ->.
    { destruct (without_prefix_comparable _ _ _ _ Hw0) as [[t Ht]|[t Ht]].
      - symmetry. eapply Hfree; [done|apply Hws'; left|exact Ht].
      - eapply Hfree; [apply Hws'; left|done|exact Ht]. }
    rewrite without_prefix_app in Hw0. done.
  - apply elem_of_cons in Hin' as [->|Hin'].
    + by rewrite without_prefix_app in Hw0.
    + apply IH; [|done]. intros w1 Hw1. apply Hws'. by right.
Qed.

Lemma drop_first_nil ws :
  (∀ w, w ∈ ws → w ≠ "") → drop_first ws "" = None.
Proof.
  induction ws as [|w ws IH]; intros Hne; [done|]. simpl.
  destruct w as [|a w]; [by destruct (Hne ""); [left|]|].
  apply IH. intros w' Hw'. apply Hne. by right.
Qed.

(** *** Runs of whitespace *)

Lemma made_of_nil ws : made_of ws "".
Proof. by exists []. Qed.

Lemma made_of_cons ws w s : w ∈ ws → made_of ws s → made_of ws (w +:+ s).
Proof.
  intros Hw (l & Hl & ->). exists (w :: l). split; [by constructor|done].
Qed.

Lemma made_of_app ws s1 s2 :
  made_of ws s1 → made_of ws s2 → made_of ws (s1 +:+ s2).
Proof.
  intros (l1 & Hl1 & ->) Hs2. induction Hl1 as [|w l1 Hw _ IH]; [done|].
  simpl. rewrite string_app_assoc. by apply made_of_cons.
Qed.

Lemma made_of_rev ws s :
  made_of (String.rev <$> ws) s → made_of ws (String.rev s).
Proof.
  intros (l & Hl & ->). induction Hl as [|w l Hw _ IH]; [apply made_of_nil|].
  simpl. rewrite string_rev_app. apply made_of_app; [done|].
  apply list_elem_of_fmap in Hw as (w' & -> & Hw').
  rewrite string_rev_involutive, <- (string_app_nil_r w').
  apply made_of_cons; [done|apply made_of_nil].
Qed.

(** [strip_front] takes a run of characters of [ws] off the front and
    stops where the string begins with none of them. *)
Lemma strip_front_spec ws :
  (∀ w, w ∈ ws → w ≠ "") →
  ∀ n s, (String.length s ≤ n)%nat →
    ∃ pre, s = pre +:+ strip_front ws n s ∧ made_of ws pre ∧
           drop_first ws (strip_front ws n s) = None.
Proof.
  intros Hne n. induction n as [|n IH]; intros s Hlen.
  - destruct s; [|simpl in Hlen; lia]. exists "". simpl.
    split; [done|]. split; [apply made_of_nil|by apply drop_first_nil].
  - simpl. destruct (drop_first ws s) as [rest|] eqn:Hdrop.
    + apply drop_first_Some in Hdrop as (w & Hw & ->).
      assert (0 < String.length w)%nat.
      { specialize (Hne w Hw). destruct w; [done|simpl; lia]. }
      rewrite string_length_app in Hlen.
      destruct (IH rest) as (pre & Hrest & Hpre & Hstop); [lia|].
      exists (w +:+ pre). split; [|split; [by apply made_of_cons|done]].
      by rewrite string_app_assoc, <- Hrest.
    + exists "". split; [done|]. split; [apply made_of_nil|done].
Qed.

Lemma py_whitespace_prefix_free : prefix_free py_whitespace = true.
Proof. vm_compute. reflexivity. Qed.

Lemma py_whitespace_rev_prefix_free :
  prefix_free (String.rev <$> py_whitespace) = true.
Proof. vm_compute. reflexivity. Qed.

Lemma all_space_upto_made_of s :
  made_of py_whitespace s →
  ∀ n, (String.length s ≤ n)%nat → all_space_upto n s = true.
Proof.
  pose proof (prefix_free_spec _ py_whitespace_prefix_free) as [Hne _].
  intros (l & Hl & ->). induction Hl as [|w l Hw _ IH]; intros n Hlen;
    [by destruct n|].
  cbn [foldr] in *. rewrite string_length_app in Hlen.
  pose proof (drop_first_app py_whitespace w (foldr String.append "" l)
                py_whitespace_prefix_free Hw) as Hdrop.
  specialize (Hne w Hw). destruct w as [|a w]; [done|].
  rewrite string_app_cons in *. simpl in Hlen.
  destruct n as [|n]; [lia|]. cbn [all_space_upto]. rewrite Hdrop.
  apply IH. lia.
Qed.

Lemma all_space_made_of s : made_of py_whitespace s → all_space s = true.
Proof. intros Hs. by apply all_space_upto_made_of. Qed.

Lemma all_space_upto_strip_front n : ∀ s,
  all_space_upto n s = true → strip_front py_whitespace n s = "".
Proof.
  induction n as [|n IH]; intros s.
  - destruct s; [done|]. simpl. done.
  - destruct s as [|a s]; [done|]. cbn [all_space_upto strip_front].
    destruct (drop_first py_whitespace (String a s)); [apply IH|done].
Qed.

(** [lstrip] takes the whitespace off the front. *)
Lemma lstrip_spec (s : string) :
  ∃ pre, s = pre +:+ lstrip s ∧ made_of py_whitespace pre ∧
         drop_first py_whitespace (lstrip s) = None.
Proof.
  apply strip_front_spec; [|done].
  apply (prefix_free_spec _ py_whitespace_prefix_free).
Qed.

(** [rstrip] takes the whitespace off the end. *)
Lemma rstrip_spec (s : string) :
  ∃ suf, s = rstrip s +:+ suf ∧ made_of py_whitespace suf ∧
         ∀ w r, w ∈ py_whitespace → rstrip s ≠ r +:+ w.
Proof.
  unfold rstrip.
  destruct (strip_front_spec (String.rev <$> py_whitespace)
              (proj1 (prefix_free_spec _ py_whitespace_rev_prefix_free))
              (String.length s) (String.rev s))
    as (pre & Hs & Hpre & Hstop); [by rewrite string_length_rev|].
  set (m := strip_front _ _ _) in *.
  exists (String.rev pre). split; [|split].
  - by rewrite <- string_rev_app, <- Hs, string_rev_involutive.
  - by apply made_of_rev.
  - intros w r Hw Hm.
    apply (drop_first_None _ _ Hstop (String.rev w) (String.rev r)).
    + apply list_elem_of_fmap. by exists w.
    + by rewrite <- string_rev_app, <- Hm, string_rev_involutive.
Qed.

(** [strip] takes the whitespace off both ends and nothing else. *)
Lemma strip_made_of (s : string) :
  ∃ pre suf,
    s = pre +:+ strip s +:+ suf ∧
    made_of py_whitespace pre ∧ made_of py_whitespace suf ∧
    (∀ w r, w ∈ py_whitespace → strip s ≠ w +:+ r) ∧
    (∀ w r, w ∈ py_whitespace → strip s ≠ r +:+ w).
Proof.
  unfold strip.
  destruct (lstrip_spec s) as (pre & Hs & Hpre & Hfirst).
  destruct (rstrip_spec (lstrip s)) as (suf & Ht & Hsuf & Hlast).
  exists pre, suf. split; [by rewrite <- Ht|]. split; [done|].
  split; [done|]. split; [|done].
  intros w r Hw Hname.
  apply (drop_first_None _ _ Hfirst w (r +:+ suf) Hw).
  by rewrite Ht, Hname, string_app_assoc at 1.
Qed.

Lemma strip_spec (s : string) :
  ∃ pre suf,
    s = pre +:+ strip s +:+ suf ∧
    all_space pre = true ∧ all_space suf = true ∧
    (∀ w r, w ∈ py_whitespace → strip s ≠ w +:+ r) ∧
    (∀ w r, w ∈ py_whitespace → strip s ≠ r +:+ w).
Proof.
  destruct (strip_made_of s) as (pre & suf & Hs & Hpre & Hsuf & Hf & Hl).
  exists pre, suf. split; [done|].
  split; [by apply all_space_made_of|].
  split; [by apply all_space_made_of|done].
Qed.

(** Every candidate is a line of the file with the whitespace taken off
    its two ends, whitespace being what [str.isspace] holds of, the
    no-break space and the other spaces of Unicode included: the
    candidate is not empty, neither begins nor ends with a whitespace
    character, and the line is the candidate between two runs of
    whitespace. A file that does not exist gives no candidate. *)
Theorem load_components_db_names fs candidate :
  candidate ∈ load_components_db fs →
  candidate ≠ "" ∧
  (∀ w r, w ∈ py_whitespace → candidate ≠ w +:+ r) ∧
  (∀ w r, w ∈ py_whitespace → candidate ≠ r +:+ w) ∧
  ∃ lines line pre suf,
    fs = Some lines ∧ line ∈ lines ∧
    line = pre +:+ candidate +:+ suf ∧
    all_space pre = true ∧ all_space suf = true.
Proof.
  destruct fs as [lines|]; simpl; [|by intros ?%elem_of_nil].
  intros Hin. apply list_elem_of_fmap in Hin as (line & -> & Hin).
  apply list_elem_of_filter in Hin as [Hne Hin].
  destruct (strip_spec line) as (pre & suf & Hline & Hpre & Hsuf & Hf & Hl).
  split; [done|]. split; [done|]. split; [done|].
  by exists lines, line, pre, suf.
Qed.

(** The lines of whitespace are the ones left out. *)
Lemma strip_blank l : strip l = "" ↔ all_space l = true.
Proof.
  split.
  - intros Hs.
    destruct (strip_made_of l) as (pre & suf & Hl & Hpre & Hsuf & _).
    rewrite Hs in Hl. rewrite Hl. apply all_space_made_of.
    by apply made_of_app.
  - intros Hall. unfold strip.
    assert (lstrip l = "") as ->; [by apply all_space_upto_strip_front|].
    done.
Qed.

Lemma load_components_db_blank lines :
  load_components_db (Some lines) = [] ↔ Forall (λ l, all_space l = true) lines.
Proof.
  simpl. split.
  - intros Hnil. apply Forall_forall. intros l Hl. apply strip_blank.
    destruct (decide (strip l = "")) as [|Hne]; [done|]. exfalso.
    apply fmap_nil_inv in Hnil.
    assert (l ∈ filter (λ line, strip line ≠ "") lines) as Hin
      by (by apply list_elem_of_filter).
    rewrite Hnil in Hin. by apply elem_of_nil in Hin.
  - intros Hall. induction Hall as [|l lines Hl _ IH]; [done|].
    rewrite filter_cons_False; [done|]. intros Hne. by apply Hne, strip_blank.
Qed.

End Database.

(** A line with a no-break space before the name and an em space and a
    line feed after it. *)
Lemma load_components_db_names_witness :
  let line := utf8_encode 0xA0 +:+ "com_users" +:+ utf8_encode 0x2003
              +:+ utf8_encode 0xA in
  "com_users" ≠ "" ∧
  (∀ w r, w ∈ py_whitespace → "com_users" ≠ w +:+ r) ∧
  (∀ w r, w ∈ py_whitespace → "com_users" ≠ r +:+ w) ∧
  ∃ lines line' pre suf,
    Some ["  "; line] = Some lines ∧ line' ∈ lines ∧
    line' = pre +:+ "com_users" +:+ suf ∧
    all_space pre = true ∧ all_space suf = true.
Proof.
  intros line.
  apply (load_components_db_names (Some ["  "; line]) "com_users").
  vm_compute. left.
Defined.

(** ** The exposure checks of a found path *)
Section Checks.

Context `{Library} (config : ScanConfig) (net : network) (task : nat).

Lemma any_file_200_run_cons u f files h :
  run net task (any_file_200 config u (f :: files)) h =
  match run net task (check_url config (urljoin u f) 0) h with
  | (Ok status, h1) =>
      if decide (status = Some 200) then (Ok true, h1)
      else run net task (any_file_200 config u files) h1
  | (Raised e, h1) => (Raised e, h1)
  end.
Proof.
  cbn [any_file_200]. rewrite run_bind.
  destruct (run net task (check_url config _ 0) h) as [[status|e] h1]; [|done].
  by destruct (decide (status = Some 200)).
Qed.

(** The loop of [check_readme_files] and [check_manifest_files] stops at
    the first file whose probe answers 200: it returns [True] right
    after that probe, every file before it having been probed with
    another result and no file after it being probed at all; it returns
    [False] only after every file has been probed, in order, with a
    result other than 200. *)
Theorem any_file_200_stops_at_first_hit u files : ∀ h b h',
  run net task (any_file_200 config u files) h = (Ok b, h') →
  if b then
    ∃ i f h_i,
      files !! i = Some f ∧
      run net task (any_file_200 config u (take i files)) h = (Ok false, h_i) ∧
      run net task (check_url config (urljoin u f) 0) h_i
      = (Ok (Some 200), h')
  else
    ∀ i f, files !! i = Some f →
      ∃ h_i h_i' status,
        run net task (any_file_200 config u (take i files)) h
        = (Ok false, h_i) ∧
        run net task (check_url config (urljoin u f) 0) h_i
        = (Ok status, h_i') ∧
        status ≠ Some 200 ∧
        run net task (any_file_200 config u (drop (S i) files)) h_i'
        = (Ok false, h').
Proof.
  induction files as [|f0 files IH]; intros h b h'.
  - simpl. intros [= <- <-]. by intros i f Hi.
  - rewrite any_file_200_run_cons.
    destruct (run net task (check_url config (urljoin u f0) 0) h)
      as [[status|e] h1] eqn:Hprobe; [|done].
    destruct (decide (status = Some 200)) as [->|Hne].
    + intros [= <- <-]. exists 0%nat, f0, h. by rewrite take_0.
    + intros Hrest. pose proof (IH _ _ _ Hrest) as Hfiles.
      destruct b.
      * destruct Hfiles as (i & f & h_i & Hf & Hbefore & Hhit).
        exists (S i), f, h_i. split; [done|]. split; [|done].
        cbn [take]. rewrite any_file_200_run_cons, Hprobe.
        by rewrite decide_False.
      * intros [|i] f Hf.
        -- injection Hf as <-. exists h, h1, status. by rewrite take_0.
        -- destruct (Hfiles i f Hf)
             as (h_i & h_i' & status' & Hbefore & Hthis & Hne' & Hafter).
           exists h_i, h_i', status'. split; [|done].
           cbn [take]. rewrite any_file_200_run_cons, Hprobe.
           by rewrite decide_False.
Qed.

(** Where [get_component_version] takes the version from. The page of
    the path is fetched once. A failure of that exchange, of whatever
    kind, gives [None]. A generator meta tag on the page decides the
    result, [None] when it has no content, and nothing else is fetched.
    Without that tag [manifest.xml] is probed with [check_url]; only
    after a 200 it is fetched, a second time, and the text of its
    version tag is the result; any exception on the way gives [None]. *)
Theorem get_component_version_sources u h :
  let first := Ev_request task GET u (net h GET u) in
  let manifest_url := urljoin u "manifest.xml" in
  (∀ e, net h GET u = Failed e →
     run net task (get_component_version config u) h
     = (Ok None, h ++ [first])) ∧
  (∀ response content,
     net h GET u = Responded response →
     soup_generator_meta (text response) = Some content →
     run net task (get_component_version config u) h
     = (Ok content, h ++ [first])) ∧
  (∀ response o h2,
     net h GET u = Responded response →
     soup_generator_meta (text response) = None →
     run net task (check_url config manifest_url 0) (h ++ [first]) = (o, h2) →
     run net task (get_component_version config u) h
     = match o with
       | Ok status =>
           if decide (status = Some 200) then
             let r := net h2 GET manifest_url in
             (Ok match r with
                 | Responded manifest_response =>
                     soup_version_tag (text manifest_response)
                 | Failed _ => None
                 end,
              h2 ++ [Ev_request task GET manifest_url r])
           else (Ok None, h2)
       | Raised _ => (Ok None, h2)
       end).
Proof.
  intros first manifest_url. unfold get_component_version.
  rewrite run_try_except, run_bind. simpl. fold first.
  split; [|split].
  - intros e ->. done.
  - intros response content -> Hmeta. simpl. by rewrite Hmeta.
  - intros response o h2 -> Hmeta Hprobe. simpl. rewrite Hmeta.
    rewrite run_bind. fold manifest_url. rewrite Hprobe.
    destruct o as [status|e]; [|done].
    destruct (decide (status = Some 200)) as [->|Hne]; [|done].
    simpl.
    destruct (net h2 GET manifest_url) as [resp|e]; simpl; [|done].
    by destruct (soup_version_tag (text resp)).
Qed.

(** A candidate none of whose three paths answers 200 costs three
    requests: when the target answers each probe, with whatever other
    status, [check_component] returns [None] after one GET per path and
    nothing else. *)
Theorem check_component_absent component h :
  (∀ h' p, p ∈ component_paths component →
     ∃ response, net h' GET (urljoin (url config) p) = Responded response
                 ∧ status_code response ≠ 200) →
  ∃ evs,
    run net task (check_component config component) h = (Ok None, h ++ evs) ∧
    Forall2 (λ ev p, ∃ response,
               ev = Ev_request task GET (urljoin (url config) p)
                      (Responded response)
               ∧ status_code response ≠ 200)
      evs (component_paths component).
Proof.
  intros Hnet. rewrite check_component_run.
  assert (Hloop : ∀ ps h0,
    (∀ p, p ∈ ps → p ∈ component_paths component) →
    ∃ evs,
      run net task (for_paths config locals_init ps) h0
      = (Ok locals_init, h0 ++ evs) ∧
      Forall2 (λ ev p, ∃ response,
                 ev = Ev_request task GET (urljoin (url config) p)
                        (Responded response)
                 ∧ status_code response ≠ 200) evs ps).
  { induction ps as [|p ps IH]; intros h0 Hps.
    - exists []. simpl. rewrite app_nil_r. split; [done|constructor].
    - destruct (Hnet h0 p) as (response & Hr & Hne); [apply Hps; left|].
      destruct (IH (h0 ++ [Ev_request task GET (urljoin (url config) p)
                             (Responded response)])) as (evs & Hrun & Hevs).
      { intros p' Hp'. apply Hps. by right. }
      exists (Ev_request task GET (urljoin (url config) p)
                (Responded response) :: evs).
      split; [|constructor; [by exists response|done]].
      cbn [for_paths]. rewrite run_bind, check_path_run.
      rewrite check_url_equation_1. simpl. rewrite Hr. simpl.
      rewrite decide_False by (intros [= ?]; done).
      rewrite Hrun. by rewrite <- app_assoc. }
  destruct (Hloop (component_paths component) h) as (evs & -> & Hevs); [done|].
  exists evs. split; [|done]. by rewrite decide_True.
Qed.

End Checks.

Lemma any_file_200_stops_at_first_hit_witness :
  ∃ i f h_i,
    readme_paths !! i = Some f ∧
    run Mock.net_site 0
      (any_file_200 (H:=Mock.library) Mock.config
         "http://target/components/com_users/" (take i readme_paths)) []
    = (Ok false, h_i) ∧
    run Mock.net_site 0
      (check_url Mock.config
         (urljoin (Library:=Mock.library)
            "http://target/components/com_users/" f) 0) h_i
    = (Ok (Some 200),
       [Ev_request 0 GET "http://target/components/com_users/README.txt"
          (Responded (Mock.page 404 ""));
        Ev_request 0 GET "http://target/components/com_users/readme.txt"
          (Responded (Mock.page 200 ""))]).
Proof.
  apply (any_file_200_stops_at_first_hit (H:=Mock.library) Mock.config
           Mock.net_site 0 "http://target/components/com_users/"
           readme_paths [] true).
  vm_compute. reflexivity.
Defined.

Lemma get_component_version_sources_witness :
  run Mock.net_site 0
    (get_component_version (H:=Mock.library) Mock.config
       "http://target/components/com_shop/") []
  = (Ok (Some "1.0"),
     [Ev_request 0 GET "http://target/components/com_shop/"
        (Mock.net_site [] GET "http://target/components/com_shop/")]).
Proof.
  refine (proj1 (proj2 (get_component_version_sources (H:=Mock.library)
                          Mock.config Mock.net_site 0
                          "http://target/components/com_shop/" []))
            _ (Some "1.0") eq_refl eq_refl).
Defined.

Lemma check_component_absent_witness :
  ∃ evs,
    run Mock.net_503 0
      (check_component (H:=Mock.library) Mock.config "com_ghost") []
    = (Ok None, [] ++ evs) ∧
    Forall2 (λ ev p, ∃ response,
               ev = Ev_request 0 GET (Mock.urljoin "http://target" p)
                      (Responded response)
               ∧ status_code response ≠ 200)
      evs (component_paths "com_ghost").
Proof.
  apply (check_component_absent (H:=Mock.library) Mock.config Mock.net_503 0
           "com_ghost" []).
  intros h' p _. exists (Mock.page 503 ""). split; [reflexivity|].
  vm_compute. discriminate.
Defined.

(** ** What a scan records *)
Section Recorded.

Context `{Library} (config : ScanConfig).

Lemma returns_bind_strong {A B} (c : coro A) (f : A → coro B)
    (Q : A → Prop) (P : B → Prop) :
  returns c Q → (∀ a, Q a → returns (f a) P) → returns (c ≫= f) P.
Proof.
  intros Hc Hf. induction c as [a|e|m u k IH|s k IH]; simpl in *; auto.
Qed.

Lemma append_if_findings flag v vs u :
  v ∈ findings u →
  ∃ new, append_if flag v vs = vs ++ new ∧ (length new ≤ 1)%nat
         ∧ Forall (λ v', v' ∈ findings u) new.
Proof.
  intros Hv. destruct flag; simpl.
  - exists [v]. split; [done|]. split; [simpl; lia|]. by constructor.
  - exists []. rewrite app_nil_r. split; [done|]. split; [simpl; lia|].
    constructor.
Qed.

(** The checks of a found path add findings for its URL only, at most
    three of them. *)
Lemma found_path_returns st path u :
  returns (found_path config st path u)
    (λ st', found_paths st' = {[path]} ∪ found_paths st ∧
            ∃ new, l_vulnerabilities st' = l_vulnerabilities st ++ new
                   ∧ (length new ≤ 3)%nat
                   ∧ Forall (λ v, v ∈ findings u) new).
Proof.
  unfold found_path.
  apply returns_bind. intros listing.
  apply returns_bind. intros readme.
  apply returns_bind. intros manifest.
  apply returns_bind. intros v.
  apply returns_bind. intros lm. simpl. split; [done|].
  destruct (append_if_findings listing (directory_listing_vuln u)
              (l_vulnerabilities st) u) as (n1 & -> & Hl1 & Hn1).
  { apply list_elem_of_here. }
  destruct (append_if_findings readme (exposed_documentation_vuln u)
              (l_vulnerabilities st ++ n1) u) as (n2 & -> & Hl2 & Hn2).
  { apply list_elem_of_further, list_elem_of_here. }
  destruct (append_if_findings manifest (exposed_manifest_vuln u)
              ((l_vulnerabilities st ++ n1) ++ n2) u) as (n3 & -> & Hl3 & Hn3).
  { do 2 apply list_elem_of_further. apply list_elem_of_here. }
  exists (n1 ++ n2 ++ n3). rewrite <- !app_assoc. split; [done|].
  split; [rewrite !length_app; lia|].
  by repeat (apply Forall_app; split).
Qed.

Lemma check_path_returns st path :
  findings_known config st →
  returns (check_path config st path)
    (λ st', findings_known config st' ∧
            (length (l_vulnerabilities st')
             ≤ length (l_vulnerabilities st) + 3)%nat).
Proof.
  intros Hst. unfold check_path. apply returns_bind. intros status.
  destruct (decide (status = Some 200)); [|simpl; split; [done|lia]].
  eapply returns_mono; [|apply found_path_returns].
  intros st' (Hpaths & new & Hvs & Hlen & Hnew). split.
  - unfold findings_known. rewrite Hvs, Hpaths. apply Forall_app. split.
    + eapply Forall_impl; [exact Hst|]. simpl.
      intros v (p & Hp & Hv). exists p. split; [|done].
      apply elem_of_union. by right.
    + eapply Forall_impl; [exact Hnew|]. simpl.
      intros v Hv. exists path. split; [|done].
      apply elem_of_union. left. by apply elem_of_singleton.
  - rewrite Hvs, length_app. lia.
Qed.

Lemma for_paths_returns ps : ∀ st,
  findings_known config st →
  returns (for_paths config st ps)
    (λ st', findings_known config st' ∧
            (length (l_vulnerabilities st')
             ≤ length (l_vulnerabilities st) + 3 * length ps)%nat).
Proof.
  induction ps as [|path ps IH]; intros st Hst.
  - simpl. split; [done|lia].
  - cbn [for_paths].
    eapply returns_bind_strong; [by apply check_path_returns|].
    intros st1 [Hst1 Hlen1]. eapply returns_mono; [|by apply IH].
    simpl. intros st' [Hst' Hlen']. split; [done|]. lia.
Qed.

(** Every finding of a component that [check_component] returns is one
    of the three findings for one of its paths, and there are at most
    three for each of the three candidate paths. *)
Lemma check_component_findings component :
  returns (check_component config component)
    (λ r, ∀ c, r = Some c →
          Forall (known_vulnerability config c) (vulnerabilities c)
          ∧ (length (vulnerabilities c) ≤ 9)%nat).
Proof.
  unfold check_component.
  eapply returns_bind_strong.
  { apply (for_paths_returns (component_paths component) locals_init).
    constructor. }
  intros st [Hst Hlen].
  destruct (decide (found_paths st = ∅)); simpl; [done|].
  intros c [= <-]. simpl. split; [done|]. simpl in Hlen. lia.
Qed.

End Recorded.

Section ScanRecords.

Context `{Library} (config : ScanConfig) (net : network)
  (sched : nat → list nat).

(** The components that a scan adds are results of [check_component]
    for lines of the database. *)
Lemma scan_loop_found db chunk_size starts b self h o self' h' :
  scan_loop config net sched b db chunk_size starts self h = (o, self', h') →
  ∃ found evs,
    self_components self' = self_components self ++ found ∧
    h' = h ++ evs ∧
    self_start_time self' = self_start_time self ∧
    Forall (λ c, ∃ comp tr, comp ∈ db ∧
                 after (check_component config comp) tr
                 = Some (Return (Some c))) found.
Proof.
  intros Hloop. apply scan_loop_spec in Hloop
    as (runs & tail & -> & Hcomps & Htime & Hjoined & Hstarts & _).
  exists (omap id (mjoin (batch_results <$> runs))), (mjoin (batch_history <$> runs) ++ tail).
  split; [done|]. split; [done|]. split; [done|].
  apply Forall_forall. intros c Hc.
  apply list_elem_of_omap in Hc as (r & Hr & Hid). simpl in Hid. subst r.
  apply list_elem_of_join in Hr as (results & Hc & Hres).
  apply list_elem_of_fmap in Hres as (bt & -> & Hbt).
  apply list_elem_of_lookup in Hbt as [k Hk].
  pose proof (Forall_lookup_1 _ _ _ _ Hjoined Hk) as (_ & Hlen & Hres).
  apply list_elem_of_lookup in Hc as [j Hj].
  destruct (lookup_lt_is_Some_2 (batch_chunk bt) j) as [comp Hcomp].
  { rewrite <- Hlen. by eapply lookup_lt_Some. }
  destruct (Hres j comp Hcomp) as (r & Hr & Hafter).
  rewrite Hj in Hr. injection Hr as <-.
  exists comp, (proj (batch_start bt + j) (batch_events bt)).
  split; [|done].
  destruct (Forall2_lookup_r _ _ _ k bt Hstarts Hk) as (i & _ & _ & Hchunk).
  rewrite Hchunk in Hcomp. unfold py_slice in Hcomp.
  apply list_elem_of_lookup_2 in Hcomp.
  apply elem_of_take in Hcomp as (x & Hcomp & _).
  rewrite lookup_drop in Hcomp. by eapply list_elem_of_lookup_2.
Qed.

Lemma scan_found fs now self h o self' h' :
  scan config net sched fs now self h = (o, self', h') →
  ∃ found evs,
    self_components self' = self_components self ++ found ∧
    h' = h ++ evs ∧
    self_start_time self' = Some now ∧
    Forall (λ c, ∃ comp tr, comp ∈ load_components_db fs ∧
                 after (check_component config comp) tr
                 = Some (Return (Some c))) found.
Proof.
  unfold scan. destruct (py_range _ _ _) as [starts|e].
  - intros Hloop. apply scan_loop_found in Hloop
      as (found & evs & Hcomps & -> & Htime & Hfound).
    exists found, (Ev_add_task (len (load_components_db fs)) :: evs).
    split; [done|]. split; [by rewrite <- app_assoc|]. done.
  - intros [= <- <- <-]. exists [], [Ev_add_task (len (load_components_db fs))].
    simpl. rewrite app_nil_r. split; [done|]. split; [done|].
    split; [done|constructor].
Qed.

(** A scan only ever adds to what the scanner holds, whether it comes to
    its end or is aborted: the components recorded before are kept, in
    place, and those added are named after lines of the database; the
    history is extended; and the start time is set, so that
    [generate_report] then succeeds and reports all of these components,
    with the start of this last scan as [scan_time]. *)
Theorem scan_accumulates fs now self h o self' h' :
  scan config net sched fs now self h = (o, self', h') →
  ∃ found evs,
    self_components self' = self_components self ++ found ∧
    Forall (λ c, name c ∈ load_components_db fs) found ∧
    h' = h ++ evs ∧
    ∀ end_time, ∃ report,
      generate_report config self' end_time = Ok report ∧
      components report = self_components self ++ found ∧
      scan_time report = now ∧
      duration report = end_time - now.
Proof.
  intros Hscan. apply scan_found in Hscan
    as (found & evs & Hcomps & -> & Htime & Hfound).
  exists found, evs. split; [done|]. split; [|split; [done|]].
  - eapply Forall_impl; [exact Hfound|]. simpl.
    intros c (comp & tr & Hin & Hafter).
    pose proof (after_returns _ _ _ _
                  (check_component_returns config comp) Hafter c eq_refl)
      as [-> _]. done.
  - intros end_time. unfold generate_report. rewrite Htime.
    eexists. split; [done|]. simpl. by rewrite Hcomps.
Qed.

Lemma py_sum_bound {A} (f : A → Z) (l : list A) (b : Z) :
  Forall (λ a, f a ≤ b) l → py_sum (f <$> l) ≤ b * len l.
Proof.
  intros Hall. unfold py_sum. rewrite py_sum_from, foldr_fmap.
  unfold len. induction Hall as [|a l Ha _ IH]; simpl; [lia|].
  rewrite Nat2Z.inj_succ. lia.
Qed.

(** What a report can list. Each component of the report of a scan is
    named after a line of the database, and each of its vulnerabilities
    is one of the three findings of the scanner (a directory listing, of
    severity Medium; exposed documentation or an exposed manifest, of
    severity Low) for the URL of one of the component's paths; a
    component has at most nine of them, and the total of the report is
    at most nine for each component. *)
Theorem report_vulnerabilities_known fs now end_time report h :
  run_scanner config net sched fs now end_time = (Ok report, h) →
  Forall (λ c, name c ∈ load_components_db fs ∧
               Forall (known_vulnerability config c) (vulnerabilities c) ∧
               Forall (λ v, severity v = "Medium" ∨ severity v = "Low")
                 (vulnerabilities c) ∧
               (length (vulnerabilities c) ≤ 9)%nat)
    (components report) ∧
  total_vulnerabilities report ≤ 9 * len (components report).
Proof.
  unfold run_scanner.
  destruct (scan config net sched fs now Scanner_init [])
    as [[[[]|e] scanner] h1] eqn:Hscan; [|done].
  intros [= Hreport <-].
  apply scan_found in Hscan as (found & evs & Hcomps & _ & Htime & Hfound).
  unfold generate_report in Hreport. rewrite Htime in Hreport.
  injection Hreport as <-. simpl in *. rewrite Hcomps.
  assert (Hall : Forall (λ c, name c ∈ load_components_db fs ∧
               Forall (known_vulnerability config c) (vulnerabilities c) ∧
               Forall (λ v, severity v = "Medium" ∨ severity v = "Low")
                 (vulnerabilities c) ∧
               (length (vulnerabilities c) ≤ 9)%nat) found).
  { eapply Forall_impl; [exact Hfound|]. simpl.
    intros c (comp & tr & Hin & Hafter).
    pose proof (after_returns _ _ _ _
                  (check_component_returns config comp) Hafter c eq_refl)
      as [-> _].
    pose proof (after_returns _ _ _ _
                  (check_component_findings config comp) Hafter c eq_refl)
      as [Hknown Hlen].
    split; [done|]. split; [done|]. split; [|done].
    eapply Forall_impl; [exact Hknown|]. simpl.
    intros v (p & _ & Hv). unfold findings in Hv.
    apply elem_of_cons in Hv as [->|Hv]; [by left|].
    apply elem_of_cons in Hv as [->|Hv]; [by right|].
    apply elem_of_cons in Hv as [->|Hv]; [by right|].
    by apply elem_of_nil in Hv. }
  split; [done|].
  apply py_sum_bound. eapply Forall_impl; [exact Hall|]. simpl.
  intros c (_ & _ & _ & Hlen). unfold len. lia.
Qed.

End ScanRecords.

Lemma scan_accumulates_witness :
  ∃ found evs,
    self_components Mock.five_scanner = [] ++ found ∧
    Forall (λ c, name c ∈ load_components_db (Some Mock.five)) found ∧
    Mock.five_history = [] ++ evs ∧
    ∀ end_time, ∃ report,
      generate_report Mock.config Mock.five_scanner end_time = Ok report ∧
      components report = [] ++ found ∧
      scan_time report = 1000000 ∧
      duration report = end_time - 1000000.
Proof.
  apply (scan_accumulates (H:=Mock.library) Mock.config Mock.net_site
           Mock.turns (Some Mock.five) 1000000 Scanner_init [] (Ok ())).
  vm_compute. reflexivity.
Defined.

Lemma report_vulnerabilities_known_witness :
  Forall (λ c, name c ∈ load_components_db (Some Mock.five) ∧
               Forall (known_vulnerability (H:=Mock.library) Mock.config c)
                 (vulnerabilities c) ∧
               Forall (λ v, severity v = "Medium" ∨ severity v = "Low")
                 (vulnerabilities c) ∧
               (length (vulnerabilities c) ≤ 9)%nat)
    (components Mock.five_report) ∧
  total_vulnerabilities Mock.five_report ≤ 9 * len (components Mock.five_report).
Proof.
  apply (report_vulnerabilities_known (H:=Mock.library) Mock.config
           Mock.net_site Mock.turns (Some Mock.five) 1000000 3000000
           Mock.five_report Mock.five_history).
  vm_compute. reflexivity.
Defined.

(** ** Scanning a target without state *)
Section Answered.

Context {A : Type} (srv : server) (h0 : list event).
Implicit Types (c : coro A) (pool : list (nat * coro A)).

Lemma answered_since_refl : answered_since srv h0 h0.
Proof. exists []. by rewrite app_nil_r. Qed.

Lemma answered_since_snoc h ev :
  answered_since srv h0 h → answered_by srv ev →
  answered_since srv h0 (h ++ [ev]).
Proof.
  intros (evs & -> & Hevs) Hev. exists (evs ++ [ev]).
  split; [by rewrite app_assoc|]. apply Forall_app. split; [done|].
  by constructor.
Qed.

Lemma run_answered task c : ∀ h,
  answered_since srv h0 h →
  answered_since srv h0 (run (stateless srv) task c h).2.
Proof.
  induction c as [a|e|m u k IH|s k IH]; intros h Hh; simpl; auto.
  - apply IH. by apply answered_since_snoc.
  - apply IH. by apply answered_since_snoc.
Qed.

Lemma step_answered task c h :
  answered_since srv h0 h →
  answered_since srv h0 (step (stateless srv) task c h).2.
Proof.
  intros Hh. destruct c as [a|e|m u k|s k]; simpl; auto.
  - by apply answered_since_snoc.
  - by apply answered_since_snoc.
Qed.

Lemma run_all_answered pool : ∀ h,
  answered_since srv h0 h →
  answered_since srv h0 (run_all (stateless srv) pool h).2.
Proof.
  induction pool as [|[task c] pool IH]; intros h Hh; simpl; [done|].
  pose proof (run_answered task c h Hh) as H1.
  destruct (run (stateless srv) task c h) as [[a|e] h1]; [|done].
  pose proof (IH h1 H1) as H2.
  by destruct (run_all (stateless srv) pool h1) as [[results|e] h2].
Qed.

Lemma linger_answered sched : ∀ pool h,
  answered_since srv h0 h →
  answered_since srv h0 (linger (stateless srv) sched pool h).
Proof.
  induction sched as [|n sched IH]; intros pool h Hh; simpl; [done|].
  destruct (ready pool !! _) as [j|]; [|done].
  destruct (pool !! j) as [[task c]|]; [|done].
  pose proof (step_answered task c h Hh) as H1.
  destruct (step (stateless srv) task c h) as [c' h1]. by apply IH.
Qed.

Lemma gather_loop_answered sched : ∀ pool h,
  answered_since srv h0 h →
  answered_since srv h0 (gather_loop (stateless srv) sched pool h).2.
Proof.
  induction sched as [|n sched IH]; intros pool h Hh; simpl.
  { by apply run_all_answered. }
  destruct (ready pool !! _) as [j|]; [|by apply run_all_answered].
  destruct (pool !! j) as [[task c]|]; [|by apply run_all_answered].
  pose proof (step_answered task c h Hh) as H1.
  destruct (step (stateless srv) task c h) as [c' h1].
  destruct c' as [a|e|m u k|s k]; try (by apply IH).
  by apply linger_answered.
Qed.

Lemma gather_answered sched pool h :
  answered_since srv h0 h →
  answered_since srv h0 (gather (stateless srv) sched pool h).2.
Proof.
  intros Hh. unfold gather. destruct (first_raised pool); [done|].
  by apply gather_loop_answered.
Qed.

Lemma proj_answered task evs :
  Forall (answered_by srv) evs → Forall (io_answered_by srv) (proj task evs).
Proof.
  induction 1 as [|ev evs Hev _ IH]; [constructor|].
  unfold proj. cbn [omap list_omap].
  destruct ev as [t m u r|t s| |]; try done;
    destruct (decide (t = task)); try done; by constructor.
Qed.

(** A coroutine that has come somewhere through exchanges answered by
    [srv] ends as it does when [srv] answers all of its exchanges. *)
Lemma after_eval tr : ∀ c c',
  Forall (io_answered_by srv) tr → after c tr = Some c' →
  eval srv c = eval srv c'.
Proof.
  induction tr as [|[m u r|s] tr IH]; intros c c' Htr; simpl.
  - by intros [= ->].
  - destruct c as [| |m' u' k|]; try done.
    destruct (decide (m = m' ∧ u = u')) as [[-> ->]|]; [|done].
    apply Forall_cons in Htr as [Hr Htr]. simpl in Hr. subst r.
    intros Hafter. simpl. by apply IH.
  - destruct c as [| | |s' k]; try done.
    destruct (decide (s = s')); [|done].
    apply Forall_cons in Htr as [_ Htr].
    intros Hafter. simpl. by apply IH.
Qed.

End Answered.

Section Stateless.

Context `{Library} (config : ScanConfig) (srv : server).

Lemma scan_loop_answered sched h0 db chunk_size starts : ∀ b self h,
  answered_since srv h0 h →
  answered_since srv h0
    (scan_loop config (stateless srv) sched b db chunk_size starts self h).2.
Proof.
  induction starts as [|i starts IH]; intros b self h Hh; simpl; [done|].
  pose proof (gather_answered srv h0 (sched b)
                (chunk_tasks config i (py_slice db i (i + chunk_size))) h Hh)
    as H1.
  destruct (gather _ _ _ h) as [[results|e] h1]; [|done].
  rewrite collect_spec. apply IH. simpl in H1.
  destruct H1 as (evs & -> & Hevs).
  exists (evs ++ replicate (length results) Ev_advance).
  split; [by rewrite app_assoc|]. apply Forall_app. split; [done|].
  apply Forall_forall. intros ev Hev.
  by apply elem_of_replicate_inv in Hev as ->.
Qed.

Lemma scan_answered sched fs now self h :
  answered_since srv h
    (scan config (stateless srv) sched fs now self h).2.
Proof.
  unfold scan.
  assert (Hh : answered_since srv h
                 (h ++ [Ev_add_task (len (load_components_db fs))])).
  { apply answered_since_snoc; [apply answered_since_refl|done]. }
  destruct (py_range _ _ _) as [starts|e]; [|done].
  by apply scan_loop_answered.
Qed.

Lemma sequential_scan_results db results :
  Forall2 (λ comp r, eval srv (check_component config comp) = Ok r)
    db results →
  sequential_scan config srv db = omap id results.
Proof.
  unfold sequential_scan.
  induction 1 as [|comp r db results Hr _ IH]; [done|].
  cbn [omap list_omap]. rewrite Hr, IH. done.
Qed.

(** The ends of the tasks of a scan of a target without state. *)
Lemma scan_stateless_spec sched fs now self h o self' h' :
  1 ≤ threads config →
  scan config (stateless srv) sched fs now self h = (o, self', h') →
  let db := load_components_db fs in
  match o with
  | Ok _ =>
      ∃ results,
        Forall2 (λ comp r, eval srv (check_component config comp) = Ok r)
          db results ∧
        self_components self' = self_components self ++ omap id results ∧
        self_start_time self' = Some now
  | Raised e =>
      ∃ comp, comp ∈ db ∧ eval srv (check_component config comp) = Raised e
  end.
Proof.
  intros Ht Hscan db.
  pose proof (scan_answered sched fs now self h) as Hans.
  rewrite Hscan in Hans. simpl in Hans. destruct Hans as (evs & Hh' & Hevs).
  destruct (scan_spec config _ sched fs now self h _ _ _ Ht Hscan)
    as (runs & tail & Hh & Hcomps & Htime & Hjoined & Hlayout & Ho).
  fold db in Hh, Hlayout, Ho.
  rewrite Hh' in Hh. apply app_inv_head in Hh. subst evs.
  apply Forall_app in Hevs as [_ Hevs].
  apply Forall_app in Hevs as [Hruns Htail].
  assert (Hn : (0 < Z.to_nat (threads config))%nat) by lia.
  destruct o as [[]|e].
  - destruct Ho as [_ Hcover].
    exists (mjoin (batch_results <$> runs)). split; [|done].
    assert (Hall : Forall2
              (λ comp r, eval srv (check_component config comp) = Ok r)
              (mjoin (batch_chunk <$> runs)) (mjoin (batch_results <$> runs))).
    { clear Hlayout Hcover Hcomps Hh'.
      induction Hjoined as [|bt runs Hbt _ IH]; [constructor|].
      rewrite !fmap_cons in *. cbn [mjoin list_join] in *.
      apply Forall_app in Hruns as [Hhere Hrest].
      apply Forall2_app; [|by apply IH].
      destruct Hbt as (_ & Hlen & Hres).
      apply Forall2_same_length_lookup_2; [done|].
      intros j comp r Hcomp Hr.
      destruct (Hres j comp Hcomp) as (r' & Hr' & Hafter).
      rewrite Hr in Hr'. injection Hr' as <-.
      unfold batch_history in Hhere. apply Forall_app in Hhere as [Hhere _].
      by rewrite (after_eval srv _ _ _ (proj_answered srv _ _ Hhere) Hafter). }
    rewrite <- (take_ge runs (length runs)) in Hall at 1 by done.
    rewrite (chunks_take db _ runs Hn Hlayout) in Hall by done.
    by rewrite take_ge in Hall.
  - destruct Ho as (_ & _ & j & comp & Hcomp & Hafter).
    exists comp. split.
    + apply list_elem_of_lookup_2 in Hcomp.
      apply elem_of_take in Hcomp as (x & Hcomp & _).
      rewrite lookup_drop in Hcomp. by eapply list_elem_of_lookup_2.
    + by rewrite (after_eval srv _ _ _ (proj_answered srv _ _ Htail) Hafter).
Qed.

(** On a target whose answers depend on the request alone, the outcome
    of a scan that comes to its end depends neither on the way in which
    the tasks of a batch take turns nor on the size of the batches: the
    components recorded are those that checking the candidates one after
    the other gives, in the order of the database, and the scan comes to
    the same end under every other schedule. *)
Theorem scan_schedule_independent sched1 sched2 fs now self h self1 h1 :
  1 ≤ threads config →
  scan config (stateless srv) sched1 fs now self h = (Ok (), self1, h1) →
  self_components self1
  = self_components self ++ sequential_scan config srv (load_components_db fs)
  ∧ ∃ h2,
      scan config (stateless srv) sched2 fs now self h = (Ok (), self1, h2).
Proof.
  intros Ht Hscan1.
  destruct (scan_stateless_spec sched1 fs now self h _ _ _ Ht Hscan1)
    as (results1 & Hres1 & Hcomps1 & Htime1).
  split; [by rewrite (sequential_scan_results _ _ Hres1)|].
  destruct (scan config (stateless srv) sched2 fs now self h)
    as [[o2 self2] h2] eqn:Hscan2.
  pose proof (scan_stateless_spec sched2 fs now self h _ _ _ Ht Hscan2) as H2.
  destruct o2 as [[]|e].
  - destruct H2 as (results2 & Hres2 & Hcomps2 & Htime2).
    exists h2. do 2 f_equal.
    destruct self1 as [cs1 t1], self2 as [cs2 t2]. simpl in *.
    rewrite Hcomps1, Hcomps2, Htime1, Htime2.
    by rewrite <- (sequential_scan_results _ _ Hres1),
               <- (sequential_scan_results _ _ Hres2).
  - exfalso. destruct H2 as (comp & Hin & Hraise).
    apply list_elem_of_lookup in Hin as [j Hj].
    destruct (Forall2_lookup_l _ _ _ j comp Hres1 Hj) as (r & _ & Hr).
    congruence.
Qed.

End Stateless.

Lemma scan_schedule_independent_witness :
  self_components Mock.five_scanner
  = [] ++ sequential_scan (H:=Mock.library) Mock.config (Mock.net_site [])
            (load_components_db (Some Mock.five))
  ∧ ∃ h2,
      scan (H:=Mock.library) Mock.config (stateless (Mock.net_site []))
        Mock.in_order (Some Mock.five) 1000000 Scanner_init []
      = (Ok (), Mock.five_scanner, h2).
Proof.
  apply (scan_schedule_independent (H:=Mock.library) Mock.config
           (Mock.net_site []) Mock.turns Mock.in_order (Some Mock.five)
           1000000 Scanner_init [] Mock.five_scanner Mock.five_history).
  - vm_compute. discriminate.
  - vm_compute. reflexivity.
Defined.

(** ** Where the exceptions of a scan come from *)
Section Origin.

Context `{Library} (config : ScanConfig).










End Origin.


(** ** Edge cases: no candidate, no answer *)
Section Edges.

Context `{Library} (config : ScanConfig) (net : network)
  (sched : nat → list nat).

(** Without candidates there is nothing to scan: when the database file
    does not exist, or holds nothing but blank lines, the scanner makes
    no request at all and reports no component and no vulnerability, the
    progress bar having been given a total of zero. *)
Theorem run_scanner_empty_database fs now end_time :
  threads config ≠ 0 →
  fs = None ∨ (∃ lines, fs = Some lines
                        ∧ Forall (λ l, all_space l = true) lines) →
  run_scanner config net sched fs now end_time
  = (Ok {| target_url := url config; scan_time := now;
           duration := end_time - now; components := [];
           total_vulnerabilities := 0; scan_config := config |},
     [Ev_add_task 0]).
Proof.
  intros Ht Hfs.
  assert (Hdb : load_components_db fs = []).
  { destruct Hfs as [->|(lines & -> & Hblank)]; [done|].
    by apply load_components_db_blank. }
  unfold run_scanner, scan. rewrite Hdb.
  assert (Hrange : py_range 0 (len (@nil string)) (threads config) = Ok []).
  { destruct (decide (0 < threads config)) as [Hpos|Hneg].
    - rewrite py_range_chunks by done. unfold len. simpl.
      rewrite Z.div_small by lia. done.
    - apply py_range_negative; [lia|done]. }
  rewrite Hrange. done.
Qed.

(** A candidate on a target that cannot be reached: when every exchange
    fails at the transport level, [check_component] returns [None]
    after [max_retries + 1] attempts at each of its three paths, with a
    sleep of one second between two attempts at the same path. *)
Theorem check_component_unreachable task component h :
  0 ≤ max_retries config →
  (∀ h' p, p ∈ component_paths component →
     net h' GET (urljoin (url config) p) = Failed HttpxRequestError) →
  ∃ evs,
    run net task (check_component config component) h = (Ok None, h ++ evs) ∧
    len (filter (λ ev, is_request ev = true) evs)
    = 3 * (max_retries config + 1) ∧
    len (filter (λ ev, is_sleep ev = true) evs) = 3 * max_retries config ∧
    Forall (λ ev, ev = Ev_sleep task 1
                  ∨ ∃ p, p ∈ component_paths component
                         ∧ ev = Ev_request task GET (urljoin (url config) p)
                                  (Failed HttpxRequestError)) evs.
Proof.
  intros Hretries Hnet. rewrite check_component_run.
  set (n := Z.to_nat (max_retries config)).
  assert (Hloop : ∀ ps h0,
    (∀ p, p ∈ ps → p ∈ component_paths component) →
    ∃ evs,
      run net task (for_paths config locals_init ps) h0
      = (Ok locals_init, h0 ++ evs) ∧
      length (filter (λ ev, is_request ev = true) evs)
      = (length ps * S n)%nat ∧
      length (filter (λ ev, is_sleep ev = true) evs) = (length ps * n)%nat ∧
      Forall (λ ev, ev = Ev_sleep task 1
                    ∨ ∃ p, p ∈ component_paths component
                           ∧ ev = Ev_request task GET
                                    (urljoin (url config) p)
                                    (Failed HttpxRequestError)) evs).
  { induction ps as [|p ps IH]; intros h0 Hps.
    - exists []. simpl. rewrite app_nil_r. split; [done|].
      split; [done|]. split; [done|constructor].
    - set (u := urljoin (url config) p).
      set (evs0 := failed_attempts task u n
                   ++ [Ev_request task GET u (Failed HttpxRequestError)]).
      destruct (IH (h0 ++ evs0)) as (evs & Hrun & Hreq & Hsleep & Hall).
      { intros p' Hp'. apply Hps. by right. }
      exists (evs0 ++ evs). split; [|split; [|split]].
      + cbn [for_paths]. rewrite run_bind, check_path_run.
        rewrite (check_url_all_fail config net task u) with (n := n);
          [|intros h'; apply Hnet, Hps; left|unfold n; lia].
        rewrite decide_False by done. fold evs0. rewrite Hrun.
        by rewrite <- app_assoc.
      + rewrite filter_app, length_app, Hreq. unfold evs0.
        rewrite filter_app, length_app, failed_attempts_requests.
        simpl. lia.
      + rewrite filter_app, length_app, Hsleep. unfold evs0.
        rewrite filter_app, length_app, failed_attempts_sleeps,
          length_replicate.
        simpl. lia.
      + apply Forall_app. split; [|done]. unfold evs0.
        apply Forall_app. split.
        * unfold failed_attempts. clear -Hps.
          induction n as [|k IHk]; simpl; [constructor|].
          constructor; [right; exists p; split; [apply Hps; left|done]|].
          constructor; [by left|done].
        * constructor; [|constructor].
          right. exists p. split; [apply Hps; left|done]. }
  destruct (Hloop (component_paths component) h) as
    (evs & -> & Hreq & Hsleep & Hall); [done|].
  exists evs. split; [by rewrite decide_True|].
  unfold len. rewrite Hreq, Hsleep. simpl length.
  split; [unfold n; lia|]. split; [unfold n; lia|done].
Qed.

End Edges.

Lemma run_scanner_empty_database_witness :
  run_scanner (H:=Mock.library) Mock.config Mock.net_site Mock.turns
    (Some ["  "; ""]) 1000000 3000000
  = (Ok {| target_url := "http://target"; scan_time := 1000000;
           duration := 3000000 - 1000000; components := [];
           total_vulnerabilities := 0; scan_config := Mock.config |},
     [Ev_add_task 0]).
Proof.
  apply (run_scanner_empty_database (H:=Mock.library) Mock.config
           Mock.net_site Mock.turns (Some ["  "; ""]) 1000000 3000000).
  - vm_compute. discriminate.
  - right. exists ["  "; ""]. split; [reflexivity|].
    repeat constructor.
Defined.

Lemma check_component_unreachable_witness :
  ∃ evs,
    run Mock.net_down 0
      (check_component (H:=Mock.library) Mock.config "com_users") []
    = (Ok None, [] ++ evs) ∧
    len (filter (λ ev, is_request ev = true) evs) = 3 * (3 + 1) ∧
    len (filter (λ ev, is_sleep ev = true) evs) = 3 * 3 ∧
    Forall (λ ev, ev = Ev_sleep 0 1
                  ∨ ∃ p, p ∈ component_paths "com_users"
                         ∧ ev = Ev_request 0 GET (Mock.urljoin "http://target" p)
                                  (Failed HttpxRequestError)) evs.
Proof.
  apply (check_component_unreachable (H:=Mock.library) Mock.config
           Mock.net_down 0 "com_users" []).
  - vm_compute. discriminate.
  - intros h' p _. reflexivity.
Defined.

(** ** What is shown of a report *)
Section Shown.

Context {fmt : Formatting} (config : ScanConfig).

Lemma vulnerability_rows_length report :
  len (vulnerability_rows report)
  = len (mjoin (vulnerabilities <$> components report)).
Proof.
  unfold vulnerability_rows, len. f_equal.
  induction (components report) as [|c cs IH]; [done|].
  rewrite fmap_cons. cbn [mbind list_bind mjoin list_join].
  rewrite !length_app, IH. f_equal.
  induction (vulnerabilities c) as [|v vs IHv]; [done|].
  cbn [mbind list_bind]. rewrite length_app, IHv. done.
Qed.

(** What is shown of a report that [generate_report] has made, and that
    it agrees with the figures of the report. After the panel and the
    summary comes, when the report has no component, the line that no
    component was found and nothing else; otherwise the table of
    components, with one row for each, followed by the table of
    vulnerabilities exactly when the report lists a vulnerability. That
    table has one row for each vulnerability of each component, in
    order; the totals that the summary shows are the numbers of rows of
    the two tables. *)
Theorem display_results_agrees_with_report self end_time report :
  generate_report config self end_time = Ok report →
  let shown := display_results report in
  shown
  = Panel_fit "[bold blue]Joomla Scanner Results[/bold blue]" "blue"
    :: Table "Scan Summary" [("Metric", "cyan"); ("Value", "green")]
         (summary_rows report)
    :: match components report with
       | [] =>
           [Markup (newline +:+ "[bold red]No components found![/bold red]")]
       | _ =>
           Table "Found Components"
             [("Component", "cyan"); ("Version", "green");
              ("Vulnerabilities", "red"); ("Paths", "yellow")]
             (component_rows report)
           :: (if decide (vulnerability_rows report = []) then []
               else [Table "Vulnerabilities"
                       [("Component", "cyan"); ("Type", "red");
                        ("Severity", "yellow"); ("Description", "white");
                        ("URL", "blue")]
                       (vulnerability_rows report)])
       end ∧
  ["Components Found"; str_int (len (component_rows report))]
  ∈ summary_rows report ∧
  ["Total Vulnerabilities"; str_int (len (vulnerability_rows report))]
  ∈ summary_rows report ∧
  len (vulnerability_rows report) = total_vulnerabilities report ∧
  len (component_rows report) = len (components report) ∧
  (∀ columns rows,
     Table "Vulnerabilities" columns rows ∈ shown →
     rows = vulnerability_rows report ∧ rows ≠ []) ∧
  (vulnerability_rows report ≠ [] →
   ∃ columns, Table "Vulnerabilities" columns (vulnerability_rows report)
              ∈ shown) ∧
  (∀ columns rows,
     Table "Found Components" columns rows ∈ shown →
     rows = component_rows report ∧ rows ≠ []) ∧
  (components report ≠ [] →
   ∃ columns, Table "Found Components" columns (component_rows report)
              ∈ shown) ∧
  (components report = [] ↔
   Markup (newline +:+ "[bold red]No components found![/bold red]") ∈ shown).
Proof.
  intros Hreport shown.
  assert (Htotal : len (vulnerability_rows report)
                   = total_vulnerabilities report).
  { rewrite vulnerability_rows_length. unfold generate_report in Hreport.
    destruct (self_start_time self); [|done]. injection Hreport as <-.
    simpl. rewrite <- py_sum_lengths. by rewrite <- list_fmap_compose. }
  assert (Hnil : ∀ rows : list (list string), len rows ≤ 0 → rows = []).
  { intros [|r rows]; [done|]. unfold len. simpl. lia. }
  assert (Hcount : len (component_rows report) = len (components report)).
  { unfold component_rows, len. by rewrite length_fmap. }
  split.
  { unfold shown, display_results. cbn [app]. do 2 f_equal.
    destruct (components report) as [|c cs]; [done|]. cbn [app]. f_equal.
    destruct (decide (0 < total_vulnerabilities report)) as [Hpos|Hzero];
      destruct (decide (vulnerability_rows report = [])) as [Hrows|Hrows];
      try done.
    - exfalso. rewrite Hrows in Htotal. unfold len in Htotal.
      simpl in Htotal. lia.
    - exfalso. apply Hrows, Hnil. lia. }
  split.
  { rewrite Hcount. unfold summary_rows.
    do 3 apply list_elem_of_further. apply list_elem_of_here. }
  split.
  { rewrite Htotal. unfold summary_rows.
    do 4 apply list_elem_of_further. apply list_elem_of_here. }
  split; [done|]. split; [done|].
  unfold shown, display_results.
  destruct (components report) as [|c cs] eqn:Hcs.
  - assert (Hrows : vulnerability_rows report = []).
    { unfold vulnerability_rows. by rewrite Hcs. }
    split; [|split; [|split; [|split; [|split]]]].
    + intros columns rows Hin. exfalso.
      repeat (apply elem_of_cons in Hin as [Hin|Hin]; [done|]).
      by apply elem_of_nil in Hin.
    + by rewrite Hrows.
    + intros columns rows Hin. exfalso.
      repeat (apply elem_of_cons in Hin as [Hin|Hin]; [done|]).
      by apply elem_of_nil in Hin.
    + done.
    + intros _. do 2 apply list_elem_of_further. apply list_elem_of_here.
    + done.
  - destruct (decide (0 < total_vulnerabilities report)) as [Hpos|Hzero].
    + split; [|split; [|split; [|split; [|split]]]].
      * intros columns rows Hin.
        repeat (apply elem_of_cons in Hin as [Hin|Hin]; [try done|]).
        -- injection Hin as _ ->. split; [done|].
           intros Hrows. rewrite Hrows in Htotal. unfold len in Htotal.
           simpl in Htotal. lia.
        -- by apply elem_of_nil in Hin.
      * intros _. eexists. do 3 apply list_elem_of_further.
        apply list_elem_of_here.
      * intros columns rows Hin.
        repeat (apply elem_of_cons in Hin as [Hin|Hin]; [try done|]).
        -- injection Hin as _ ->. split; [done|].
           unfold component_rows. by rewrite Hcs.
        -- by apply elem_of_nil in Hin.
      * intros _. eexists. do 2 apply list_elem_of_further.
        apply list_elem_of_here.
      * intros Hin. discriminate Hin.
      * intros Hin. exfalso.
        repeat (apply elem_of_cons in Hin as [Hin|Hin]; [done|]).
        by apply elem_of_nil in Hin.
    + split; [|split; [|split; [|split; [|split]]]].
      * intros columns rows Hin. exfalso.
        repeat (apply elem_of_cons in Hin as [Hin|Hin]; [done|]).
        by apply elem_of_nil in Hin.
      * intros Hrows. exfalso. apply Hrows, Hnil. lia.
      * intros columns rows Hin.
        repeat (apply elem_of_cons in Hin as [Hin|Hin]; [try done|]).
        -- injection Hin as _ ->. split; [done|].
           unfold component_rows. by rewrite Hcs.
        -- by apply elem_of_nil in Hin.
      * intros _. eexists. do 2 apply list_elem_of_further.
        apply list_elem_of_here.
      * intros Hin. discriminate Hin.
      * intros Hin. exfalso.
        repeat (apply elem_of_cons in Hin as [Hin|Hin]; [done|]).
        by apply elem_of_nil in Hin.
Qed.

End Shown.

Lemma display_results_agrees_with_report_witness :
  let shown := display_results (fmt:=MockConsole.formatting) Mock.five_report in
  shown
  = Panel_fit "[bold blue]Joomla Scanner Results[/bold blue]" "blue"
    :: Table "Scan Summary" [("Metric", "cyan"); ("Value", "green")]
         (summary_rows (fmt:=MockConsole.formatting) Mock.five_report)
    :: match components Mock.five_report with
       | [] =>
           [Markup (newline +:+ "[bold red]No components found![/bold red]")]
       | _ =>
           Table "Found Components"
             [("Component", "cyan"); ("Version", "green");
              ("Vulnerabilities", "red"); ("Paths", "yellow")]
             (component_rows (fmt:=MockConsole.formatting) Mock.five_report)
           :: (if decide (vulnerability_rows Mock.five_report = []) then []
               else [Table "Vulnerabilities"
                       [("Component", "cyan"); ("Type", "red");
                        ("Severity", "yellow"); ("Description", "white");
                        ("URL", "blue")]
                       (vulnerability_rows Mock.five_report)])
       end ∧
  ["Components Found";
   str_int (Formatting:=MockConsole.formatting)
     (len (component_rows (fmt:=MockConsole.formatting) Mock.five_report))]
  ∈ summary_rows (fmt:=MockConsole.formatting) Mock.five_report ∧
  ["Total Vulnerabilities";
   str_int (Formatting:=MockConsole.formatting)
     (len (vulnerability_rows Mock.five_report))]
  ∈ summary_rows (fmt:=MockConsole.formatting) Mock.five_report ∧
  len (vulnerability_rows Mock.five_report)
  = total_vulnerabilities Mock.five_report ∧
  len (component_rows (fmt:=MockConsole.formatting) Mock.five_report)
  = len (components Mock.five_report) ∧
  (∀ columns rows,
     Table "Vulnerabilities" columns rows ∈ shown →
     rows = vulnerability_rows Mock.five_report ∧ rows ≠ []) ∧
  (vulnerability_rows Mock.five_report ≠ [] →
   ∃ columns,
     Table "Vulnerabilities" columns (vulnerability_rows Mock.five_report)
     ∈ shown) ∧
  (∀ columns rows,
     Table "Found Components" columns rows ∈ shown →
     rows = component_rows (fmt:=MockConsole.formatting) Mock.five_report
     ∧ rows ≠ []) ∧
  (components Mock.five_report ≠ [] →
   ∃ columns,
     Table "Found Components" columns
       (component_rows (fmt:=MockConsole.formatting) Mock.five_report)
     ∈ shown) ∧
  (components Mock.five_report = [] ↔
   Markup (newline +:+ "[bold red]No components found![/bold red]") ∈ shown).
Proof.
  apply (display_results_agrees_with_report (fmt:=MockConsole.formatting)
           Mock.config Mock.five_scanner 3000000 Mock.five_report).
  vm_compute. reflexivity.
Defined.
